(** * POSE-AFF: the retry helpers and the windowed batch runners

    A shallow embedding of [utils/helpers.ts] ([withRetry],
    [withGenericRetry], [parseAndFormatErrorMessage]), of the batch
    loops of the pose widgets ([PoseTreadmill.generatePoses],
    [PoseGanci.generatePoses]) with their [downloadAll], of
    [BatchEditor.generateEdits], of the sequential batch of
    [ImageGenerator] and of the API key handling of [index.tsx],
    together with the properties the specification states about them
    and further properties of the code.

    Asynchronous code is embedded as a resumable procedure ([Proc]): a
    tree whose [Await] nodes are the suspension points of the
    TypeScript [await]s, whose [Read]/[Write] nodes are the synchronous
    accesses to the widget object, and whose [Throw] leaves are
    rejections.  The event loop is an explicit schedule. *)

From Stdlib Require Import ZArith List Ascii String Bool Lia PeanoNat PrimFloat.
From Stdlib Require DecimalString.
From Equations Require Import Equations.
Import ListNotations.

Set Implicit Arguments.
Set Default Goal Selector "!".
Set Warnings "-register-all".

(* ===================================================================== *)
(** * The embedded program *)
(* ===================================================================== *)

(* ===================================================================== *)
(** ** JavaScript values *)
(* ===================================================================== *)

(** The values a [catch (e: any)] clause can bind and [JSON.parse] can
    return.  Objects are plain data (own properties, no accessors). *)
Inductive JsValue : Type :=
| VUndefined
| VNull
| VBool (b : bool)
| VNumber (x : float)
| VString (s : string)
| VArray (xs : list JsValue)
| VObject (props : list (string * JsValue)).

(** A synchronous completion: a value, or a thrown value. *)
Inductive Completion (A : Type) : Type :=
| Normal (a : A)
| Thrown (e : JsValue).
Arguments Normal {A} a.
Arguments Thrown {A} e.

(** A settled promise. *)
Inductive Settled (A : Type) : Type :=
| Fulfilled (a : A)
| Rejected (e : JsValue).
Arguments Fulfilled {A} a.
Arguments Rejected {A} e.

(** [new Error(msg)] and the engine's [TypeError]s, as data. *)
Definition mkError (name msg : string) : JsValue :=
  VObject [("name", VString name); ("message", VString msg)]%string.

Definition TypeError_read (name : string) : JsValue :=
  mkError "TypeError" ("Cannot read properties of null or undefined (reading '" ++ name ++ "')").

Fixpoint own_property (props : list (string * JsValue)) (name : string) : JsValue :=
  match props with
  | [] => VUndefined
  | (k, v) :: rest => if String.eqb k name then v else own_property rest name
  end.

(** [v.name] for a name that no built-in prototype defines (the source
    reads [message], [error], [code] only): a [TypeError] on [null] and
    [undefined], the own property of an object, [undefined] on the
    other values. *)
Definition get_member (v : JsValue) (name : string) : Completion JsValue :=
  match v with
  | VUndefined | VNull => Thrown (TypeError_read name)
  | VObject props => Normal (own_property props name)
  | _ => Normal VUndefined
  end.

(** [v?.name]: short-circuits to [undefined] on [null] and [undefined]. *)
Definition opt_member (v : JsValue) (name : string) : JsValue :=
  match v with
  | VObject props => own_property props name
  | _ => VUndefined
  end.

(** [v === n] for a number literal [n]. *)
Definition strict_eq_number (v : JsValue) (n : float) : bool :=
  match v with
  | VNumber x => PrimFloat.eqb x n
  | _ => false
  end.

(* ===================================================================== *)
(** ** Resumable procedures *)
(* ===================================================================== *)

Section Procedures.
(** [E] names the asynchronous operations a procedure can await and
    [ans] what each is resumed with; [St] is the object the
    synchronous code reads and writes. *)
Context {E : Type} {ans : E -> Type} {St : Type}.

Inductive Proc (R : Type) : Type :=
| Ret (r : R)
| Throw (e : JsValue)
| Read (k : St -> Proc R)
| Write (f : St -> St) (k : Proc R)
| Await (ev : E) (k : ans ev -> Proc R).

Arguments Ret {R} r.
Arguments Throw {R} e.
Arguments Read {R} k.
Arguments Write {R} f k.
Arguments Await {R} ev k.

Fixpoint bind {A B : Type} (p : Proc A) (f : A -> Proc B) : Proc B :=
  match p with
  | Ret a => f a
  | Throw e => Throw e
  | Read k => Read (fun s => bind (k s) f)
  | Write g k => Write g (bind k f)
  | Await ev k => Await ev (fun a => bind (k a) f)
  end.

(** [try { p } catch (e) { h e }] *)
Fixpoint try_catch {A : Type} (p : Proc A) (h : JsValue -> Proc A) : Proc A :=
  match p with
  | Ret a => Ret a
  | Throw e => h e
  | Read k => Read (fun s => try_catch (k s) h)
  | Write g k => Write g (try_catch k h)
  | Await ev k => Await ev (fun a => try_catch (k a) h)
  end.

(** [try { p } finally { c }]: [c] runs on both exits and the exit of
    [p] is kept unless [c] itself throws. *)
Fixpoint try_finally {A : Type} (p : Proc A) (c : Proc unit) : Proc A :=
  match p with
  | Ret a => bind c (fun _ => Ret a)
  | Throw e => bind c (fun _ => Throw e)
  | Read k => Read (fun s => try_finally (k s) c)
  | Write g k => Write g (try_finally k c)
  | Await ev k => Await ev (fun a => try_finally (k a) c)
  end.

(** A synchronous completion used as a statement. *)
Definition lift {A : Type} (c : Completion A) : Proc A :=
  match c with
  | Normal a => Ret a
  | Thrown e => Throw e
  end.

(** [await op] for an operation answered with a settled promise. *)
Definition settle {A : Type} (r : Settled A) : Proc A :=
  match r with
  | Fulfilled a => Ret a
  | Rejected e => Throw e
  end.
End Procedures.

Arguments Proc : clear implicits.
Arguments Ret {E ans St R} r.
Arguments Throw {E ans St R} e.
Arguments Read {E ans St R} k.
Arguments Write {E ans St R} f k.
Arguments Await {E ans St R} ev k.

Declare Scope proc_scope.
Delimit Scope proc_scope with proc.
Notation "x <- p ;; q" := (bind p (fun x => q))
  (at level 61, p at next level, right associativity) : proc_scope.
Notation "p ;;; q" := (bind p (fun _ => q))
  (at level 61, right associativity) : proc_scope.

(* ===================================================================== *)
(** ** utils/helpers.ts: [withRetry] and [withGenericRetry] *)
(* ===================================================================== *)

(** How the attempt loop is left without an exception: by the [return]
    inside the [try], or by the loop guard failing, which reaches the
    statement after the loop with the current [lastError]. *)
Inductive LoopExit (T : Type) : Type :=
| Returned (v : T)
| FellThrough (lastError : JsValue).
Arguments Returned {T} v.
Arguments FellThrough {T} lastError.

Section Helpers.
Context {E : Type} {ans : E -> Type} {St : Type} {T : Type}.
Local Open Scope proc_scope.
Local Open Scope Z_scope.

(** The platform's [JSON.parse]: [None] when it throws. *)
Variable JSON_parse : string -> option JsValue.

Variable fn : Proc E ans St T.
Variables retries delayMs : Z.
Variable onRetry : Z -> JsValue -> Proc E ans St unit.
(** [delay(ms)] of helpers.ts. *)
Variable delay : Z -> Proc E ans St unit.

(** The classification in the [catch] block of [withRetry]
    (the value of [is429] when the block reaches its [if]). *)
Definition is429 (e : JsValue) : Completion bool :=
  match get_member e "message" with
  | Thrown err => Thrown err
  | Normal (VString m) =>
      match JSON_parse m with
      | Some errBody =>
          Normal (strict_eq_number (opt_member (opt_member errBody "error") "code") 429)
      | None => Normal false
      end
  | Normal _ => Normal false
  end.

Equations? withRetry_loop (attempt : Z) (lastError : JsValue)
  : Proc E ans St (LoopExit T) by wf (Z.to_nat (retries + 2 - attempt)) lt :=
withRetry_loop attempt lastError with Z_le_dec attempt (retries + 1) := {
  | left _ =>
      try_catch (v <- fn ;; Ret (Returned v))
        (fun e =>
           b <- lift (is429 e) ;;
           if b && (attempt <=? retries)
           then onRetry attempt e ;;; delay delayMs ;;; withRetry_loop (attempt + 1) e
           else Throw e)
  | right _ => Ret (FellThrough lastError) }.
Proof. lia. Qed.

Definition withRetry : Proc E ans St T :=
  x <- withRetry_loop 1 VUndefined ;;
  match x with
  | Returned v => Ret v
  | FellThrough lastError => Throw lastError
  end.

Equations? withGenericRetry_loop (attempt : Z) (lastError : JsValue)
  : Proc E ans St (LoopExit T) by wf (Z.to_nat (retries + 2 - attempt)) lt :=
withGenericRetry_loop attempt lastError with Z_le_dec attempt (retries + 1) := {
  | left _ =>
      try_catch (v <- fn ;; Ret (Returned v))
        (fun e =>
           if attempt <=? retries
           then onRetry attempt e ;;; delay delayMs ;;; withGenericRetry_loop (attempt + 1) e
           else Throw e)
  | right _ => Ret (FellThrough lastError) }.
Proof. lia. Qed.

Definition withGenericRetry : Proc E ans St T :=
  x <- withGenericRetry_loop 1 VUndefined ;;
  match x with
  | Returned v => Ret v
  | FellThrough lastError => Throw lastError
  end.
End Helpers.

(* ===================================================================== *)
(** ** utils/helpers.ts: [parseAndFormatErrorMessage] *)
(* ===================================================================== *)

(** The truth value of a JavaScript value in a condition or under
    [||]: [undefined], [null], [false], [0], [NaN] and the empty string
    are false, everything else is true. *)
Definition truthy (v : JsValue) : bool :=
  match v with
  | VUndefined | VNull => false
  | VBool b => b
  | VNumber x => negb (PrimFloat.eqb x 0) && PrimFloat.eqb x x
  | VString s => negb (String.eqb s EmptyString)
  | VArray _ | VObject _ => true
  end.

(** [v || d]. *)
Definition or_else (v d : JsValue) : JsValue := if truthy v then v else d.

Section Formatter.
(** [JSON.parse] as in [withRetry] ([None] where it throws), and the
    string conversion of a template literal ([None] where it throws). *)
Variable JSON_parse : string -> option JsValue.
Variable to_string : JsValue -> option string.
Local Open Scope string_scope.

(** The [try] block, once [e.message] is known to be the string [m]. *)
Definition format_parsed (baseMessage m : string) : Completion string :=
  match JSON_parse m with
  | None => Thrown (mkError "SyntaxError" "Unexpected token")
  | Some errBody =>
      match get_member errBody "error" with
      | Thrown x => Thrown x
      | Normal v =>
          let err := or_else v (VObject []) in
          match get_member err "code" with
          | Thrown x => Thrown x
          | Normal code =>
              match get_member err "message" with
              | Thrown x => Thrown x
              | Normal m' =>
                  let message := or_else m' (VString "An unknown error occurred.") in
                  if strict_eq_number code 429
                  then Normal (baseMessage ++ " Quota limit reached after multiple retries.")
                  else if strict_eq_number code 400 || strict_eq_number code 403
                  then Normal (baseMessage ++ " Invalid API Key.")
                  else if strict_eq_number code 500
                  then Normal (baseMessage ++ " A server error occurred. Please try again later.")
                  else match to_string message with
                       | Some s => Normal (baseMessage ++ " Error: " ++ s)
                       | None => Thrown (mkError "TypeError" "Cannot convert object to primitive value")
                       end
              end
          end
      end
  end.

Definition parseAndFormatErrorMessage (e : JsValue) (context : string) : Completion string :=
  let baseMessage := context ++ " failed." in
  match get_member e "message" with
  | Thrown x => Thrown x
  | Normal (VString m) =>
      match format_parsed baseMessage m with
      | Normal s => Normal s
      | Thrown parseErr => Normal (baseMessage ++ " Details: " ++ m)
      end
  | Normal _ => Normal (baseMessage ++ " An unexpected error occurred.")
  end.

(** The text shown for a rate-limit error. *)
Definition quota_message (context : string) : string :=
  (context ++ " failed.") ++ " Quota limit reached after multiple retries.".
End Formatter.

(* ===================================================================== *)
(** ** Running the retry helpers against an operation *)
(* ===================================================================== *)

(** What a retry helper does to its surroundings: it invokes [fn], it
    calls the observer, it waits. *)
Inductive RetryE : Type :=
| CallFn
| OnRetry (attempt : Z) (e : JsValue)
| Delay (ms : Z).

Definition retry_ans (T : Type) (ev : RetryE) : Type :=
  match ev with
  | CallFn => Settled T
  | OnRetry _ _ => unit
  | Delay _ => unit
  end.

Definition RetryProc (T R : Type) : Type := Proc RetryE (retry_ans T) unit R.

(** [fn()] awaited, the observer and [delay] as observable events. *)
Definition call_fn {T : Type} : RetryProc T T := Await CallFn (@settle _ _ _ T).
Definition observe {T : Type} (attempt : Z) (e : JsValue) : RetryProc T unit :=
  Await (OnRetry attempt e) (fun _ => Ret tt).
Definition wait {T : Type} (ms : Z) : RetryProc T unit :=
  Await (Delay ms) (fun _ => Ret tt).

(** The operation as its callers see it: the outcome of its [n]-th
    invocation, for every [n] (counted from 0). *)
Definition Script (T : Type) : Type := nat -> Settled T.

Definition answer {T : Type} (script : Script T) (n : nat) (ev : RetryE) : retry_ans T ev :=
  match ev with
  | CallFn => script n
  | OnRetry _ _ => tt
  | Delay _ => tt
  end.

Definition is_call (ev : RetryE) : bool :=
  match ev with CallFn => true | _ => false end.

Definition bump (n : nat) (ev : RetryE) : nat :=
  if is_call ev then S n else n.

(** The events of a run, in order, and how it completes; [n] is the
    number of invocations of [fn] made before. *)
Fixpoint exec {T R : Type} (p : RetryProc T R) (script : Script T) (n : nat)
  : list RetryE * Completion R :=
  match p with
  | Ret r => ([], Normal r)
  | Throw e => ([], Thrown e)
  | Read k => exec (k tt) script n
  | Write _ k => exec k script n
  | Await ev k =>
      let (t, o) := exec (k (answer script n ev)) script (bump n ev) in
      (ev :: t, o)
  end.

(** Number of invocations of [fn] in a trace. *)
Definition calls (t : list RetryE) : nat := List.length (filter is_call t).

(** The attempt numbers handed to [onRetry], in call order. *)
Fixpoint observed (t : list RetryE) : list Z :=
  match t with
  | [] => []
  | OnRetry a _ :: t' => a :: observed t'
  | _ :: t' => observed t'
  end.

(** The two helpers over an operation given by its script. *)
Definition runWithRetry {T : Type} (JSON_parse : string -> option JsValue)
  (retries delayMs : Z) (script : Script T) : list RetryE * Completion T :=
  exec (withRetry JSON_parse call_fn retries delayMs observe wait) script 0.

Definition runWithGenericRetry {T : Type}
  (retries delayMs : Z) (script : Script T) : list RetryE * Completion T :=
  exec (withGenericRetry call_fn retries delayMs observe wait) script 0.

(* ===================================================================== *)
(** ** The event loop: windows of concurrently running jobs *)
(* ===================================================================== *)

(** [xs.slice(start, end)] *)
Definition slice {A : Type} (start stop : nat) (xs : list A) : list A :=
  firstn (stop - start) (skipn start xs).

Section EventLoop.
(** [J] identifies a job, [U] is a user event (a click handled between
    two steps of the running jobs). *)
Context {E : Type} {ans : E -> Type} {St J U : Type}.
Variable job_eqb : J -> J -> bool.
Variable handle : U -> St -> St.
(** What the [n]-th operation awaited by job [j] is resumed with. *)
Variable oracle : J -> nat -> forall ev : E, ans ev.

(** A procedure run until it has to wait. *)
Inductive Suspended : Type :=
| Finished
| Failed (e : JsValue)
| Blocked (ev : E) (k : ans ev -> Proc E ans St unit).
Arguments Blocked ev k : clear implicits.

Fixpoint run_sync (p : Proc E ans St unit) (s : St) : St * Suspended :=
  match p with
  | Ret _ => (s, Finished)
  | Throw e => (s, Failed e)
  | Read k => run_sync (k s) s
  | Write f k => run_sync k (f s)
  | Await ev k => (s, Blocked ev k)
  end.

(** A job waiting for the operation [task_ev], its [task_awaits]-th. *)
Record Task : Type := {
  task_job : J;
  task_awaits : nat;
  task_ev : E;
  task_k : ans task_ev -> Proc E ans St unit
}.

(** One turn of the event loop: an awaited operation of a job settles,
    or a user event is handled. *)
Inductive Tick : Type :=
| Resume (job : J)
| User (u : U).

(** How [await Promise.all(...)] ends: every promise fulfilled, or the
    first rejection. *)
Inductive WindowEnd : Type :=
| AllSettled (s : St) (rest : list Tick)
| Rejection (e : JsValue) (s : St) (rest : list Tick).

(** [chunk.map(job => runJob(job))]: every job runs, in order, up to
    its first [await]. *)
Fixpoint start_all (runJob : J -> Proc E ans St unit) (chunk : list J) (s : St)
  : St * list Task * option JsValue :=
  match chunk with
  | [] => (s, [], None)
  | j :: chunk' =>
      let (s1, r) := run_sync (runJob j) s in
      let '(s2, pool, rejected) := start_all runJob chunk' s1 in
      match r with
      | Finished => (s2, pool, rejected)
      | Failed e => (s2, pool, Some e)
      | Blocked ev k =>
          (s2, {| task_job := j; task_awaits := 0; task_ev := ev; task_k := k |} :: pool, rejected)
      end
  end.

Definition resume (t : Task) (s : St) : St * Suspended :=
  run_sync (task_k t (oracle (task_job t) (task_awaits t) (task_ev t))) s.

(** The operation awaited by job [j] settles and the job runs on to
    its next [await] or to its end. *)
Fixpoint step_job (j : J) (pool : list Task) (s : St) : St * list Task * option JsValue :=
  match pool with
  | [] => (s, [], None)
  | t :: pool' =>
      if job_eqb (task_job t) j then
        match resume t s with
        | (s', Finished) => (s', pool', None)
        | (s', Failed e) => (s', pool', Some e)
        | (s', Blocked ev k) =>
            (s', {| task_job := task_job t; task_awaits := S (task_awaits t);
                    task_ev := ev; task_k := k |} :: pool', None)
        end
      else
        let '(s', pool'', rejected) := step_job j pool' s in
        (s', t :: pool'', rejected)
  end.

(** A job run to its end, each operation settling as soon as awaited. *)
Fixpoint drain (p : Proc E ans St unit) (j : J) (n : nat) (s : St) : St * option JsValue :=
  match p with
  | Ret _ => (s, None)
  | Throw e => (s, Some e)
  | Read k => drain (k s) j n s
  | Write f k => drain k j n (f s)
  | Await ev k => drain (k (oracle j n ev)) j (S n) s
  end.

Fixpoint drain_pool (pool : list Task) (s : St) : WindowEnd :=
  match pool with
  | [] => AllSettled s []
  | t :: pool' =>
      match drain (task_k t (oracle (task_job t) (task_awaits t) (task_ev t)))
                  (task_job t) (S (task_awaits t)) s with
      | (s', None) => drain_pool pool' s'
      | (s', Some e) => Rejection e s' []
      end
  end.

(** The turns of the event loop while the window is awaited.  A turn
    naming a job that awaits nothing is skipped; once the schedule is
    used up the operations still awaited settle one after the other
    (every operation settles eventually). *)
Fixpoint settle_window (ticks : list Tick) (pool : list Task) (s : St) : WindowEnd :=
  match pool, ticks with
  | [], _ => AllSettled s ticks
  | _ :: _, [] => drain_pool pool s
  | _ :: _, User u :: ticks' => settle_window ticks' pool (handle u s)
  | _ :: _, Resume j :: ticks' =>
      match step_job j pool s with
      | (s', pool', None) => settle_window ticks' pool' s'
      | (s', _, Some e) => Rejection e s' ticks'
      end
  end.

(** [await Promise.all(chunk.map(job => runJob(job)))] *)
Definition promise_all (runJob : J -> Proc E ans St unit) (chunk : list J)
  (s : St) (ticks : list Tick) : WindowEnd :=
  match start_all runJob chunk s with
  | (s', _, Some e) => Rejection e s' ticks
  | (s', pool, None) => settle_window ticks pool s'
  end.

(** How the batch loop is left: past its last statement, with the
    windows it ran, or by the exception of a rejected window. *)
Inductive LoopEnd : Type :=
| Completed (s : St) (windows : list (list J))
| Aborted (e : JsValue) (s : St) (windows : list (list J)).

Variable isRunning : St -> bool.
Variable concurrency : St -> nat.
Variable runJob : J -> Proc E ans St unit.
Variable jobs : list J.

(** [for (let i = 0; i < jobs.length; i += this.concurrency) {
       if (!this.isRunning) break;
       const chunk = jobs.slice(i, i + this.concurrency);
       await Promise.all(chunk.map(job => runJob(job))); }]
    [None] when [fuel] iterations do not reach the end of the loop. *)
Fixpoint windows_loop (fuel i : nat) (s : St) (ticks : list Tick) (windows : list (list J))
  : option LoopEnd :=
  match fuel with
  | O => None
  | S fuel' =>
      if i <? List.length jobs then
        if negb (isRunning s) then Some (Completed s windows)
        else
          let chunk := slice i (i + concurrency s) jobs in
          match promise_all runJob chunk s ticks with
          | AllSettled s' ticks' =>
              windows_loop fuel' (i + concurrency s) s' ticks' (windows ++ [chunk])
          | Rejection e s' _ => Some (Aborted e s' (windows ++ [chunk]))
          end
      else Some (Completed s windows)
  end.
End EventLoop.

Arguments Suspended : clear implicits.
Arguments Task : clear implicits.
Arguments Tick : clear implicits.
Arguments WindowEnd : clear implicits.
Arguments LoopEnd : clear implicits.

(* ===================================================================== *)
(** ** JavaScript arrays *)
(* ===================================================================== *)

(** An array is its list of slots; [None] is a hole, read as
    [undefined] like an index past the end. *)
Definition js_get {A : Type} (xs : list (option A)) (i : nat) : option A :=
  match nth_error xs i with
  | Some (Some x) => Some x
  | _ => None
  end.

(** [xs[i] = v]: overwrites slot [i]; past the end the array grows, the
    slots in between being holes. *)
Fixpoint js_set {A : Type} (xs : list (option A)) (i : nat) (v : A) : list (option A) :=
  match xs, i with
  | [], O => [Some v]
  | [], S i' => None :: js_set [] i' v
  | _ :: xs', O => Some v :: xs'
  | x :: xs', S i' => x :: js_set xs' i' v
  end.

(* ===================================================================== *)
(** ** The generation call and its response (@google/genai) *)
(* ===================================================================== *)

Record InlineData : Type := { mimeType : option string; data : option string }.
Record Part : Type := { inlineData : option InlineData; text : option string }.
Record Content : Type := { parts : option (list Part) }.
Record Candidate : Type := { content : option Content }.
Record GenerateContentResponse : Type := { candidates : option (list Candidate) }.

(** The SDK, [new GoogleGenAI(...)] and the wrappers of utils/gemini.ts
    reject with [Error] objects. *)
Record ApiError : Type := { error_name : string; error_message : string }.

Inductive ApiOutcome : Type :=
| ApiFulfilled (response : GenerateContentResponse)
| ApiRejected (err : ApiError).

Definition thrown_value (err : ApiError) : JsValue :=
  mkError (error_name err) (error_message err).

Definition has_inlineData (p : Part) : bool :=
  match inlineData p with Some _ => true | None => false end.

(** [genResponse.candidates?.[0]?.content?.parts.find(p => p.inlineData)] *)
Definition find_image_part (genResponse : GenerateContentResponse) : Completion (option Part) :=
  match candidates genResponse with
  | None => Normal None
  | Some cs =>
      match nth_error cs 0 with
      | None => Normal None
      | Some c =>
          match content c with
          | None => Normal None
          | Some ct =>
              match parts ct with
              | None => Thrown (TypeError_read "find")
              | Some ps => Normal (find has_inlineData ps)
              end
          end
      end
  end.

(** A template placeholder: an absent string prints as [undefined]. *)
Definition show (s : option string) : string :=
  match s with Some x => x | None => "undefined" end.

(** The lines between the [await] and the write of the result:
    the image of the response as a data URL, or the thrown error. *)
Definition image_url_of (genResponse : GenerateContentResponse) : Completion string :=
  match find_image_part genResponse with
  | Thrown e => Thrown e
  | Normal imagePart =>
      match match imagePart with Some p => inlineData p | None => None end with
      | None => Thrown (mkError "Error" "No image data in response.")
      | Some blob =>
          Normal ("data:" ++ show (mimeType blob) ++ ";base64," ++ show (data blob))%string
      end
  end.

(* ===================================================================== *)
(** ** components/PoseTreadmill.ts and components/PoseGanci.ts *)
(* ===================================================================== *)

(** The two widgets run the same loop over their own list of poses;
    they differ in the text of the prompt and in how the request is
    sent ([ai.models.generateContent] directly, or through
    [generateImageEditContent]), both a single awaited call.

    The document is left out: the progress bar, the status line,
    [render()] and [downloadFile] write no field the loop reads.  The
    uploaded images are part of every request alike and are left out of
    the request. *)
(** ['pending' | 'done' | 'error'] *)
Inductive Status : Type := StatusPending | StatusDone | StatusError.

Module Pose.

(** A property that is absent reads [undefined]. *)
Record PoseResult : Type := {
  prompt : JsValue;
  status : Status;
  imageUrl : JsValue;
  errorMessage : JsValue
}.

(** The fields of the widget the batch run reads and writes, with the
    run's counter [completedJobs]. *)
Record PoseWidget : Type := {
  isRunning : bool;
  concurrency : nat;
  results : list (option PoseResult);
  completedJobs : nat
}.

Inductive PoseE : Type := GenerateContent (prompt : JsValue).
Definition pose_ans (ev : PoseE) : Type := ApiOutcome.
Definition PoseProc (R : Type) : Type := Proc PoseE pose_ans PoseWidget R.

Local Open Scope proc_scope.

(** The awaited request; the pose prompt is the part of it that
    differs between jobs.  An exception raised while the request is
    built (by [new GoogleGenAI]) reaches the same [catch] block as a
    rejection and is taken as one. *)
Definition settle_api (o : ApiOutcome) : PoseProc GenerateContentResponse :=
  match o with
  | ApiFulfilled r => Ret r
  | ApiRejected err => Throw (thrown_value err)
  end.

Definition await_generate (p : JsValue) : PoseProc GenerateContentResponse :=
  Await (GenerateContent p) settle_api.

(** [this.results[jobIndex] = r] *)
Definition set_result (jobIndex : nat) (r : PoseResult) (w : PoseWidget) : PoseWidget :=
  {| isRunning := isRunning w; concurrency := concurrency w;
     results := js_set (results w) jobIndex r; completedJobs := completedJobs w |}.

(** [{ ...result, status: 'done', imageUrl }] *)
Definition done_result (result : PoseResult) (url : string) : PoseResult :=
  {| prompt := prompt result; status := StatusDone;
     imageUrl := VString url; errorMessage := errorMessage result |}.

(** [{ ...current, status: 'error', errorMessage: msg }], [current]
    being [undefined] when the slot is empty. *)
Definition error_result (current : option PoseResult) (msg : JsValue) : PoseResult :=
  match current with
  | Some r => {| prompt := prompt r; status := StatusError;
                 imageUrl := imageUrl r; errorMessage := msg |}
  | None => {| prompt := VUndefined; status := StatusError;
               imageUrl := VUndefined; errorMessage := msg |}
  end.

(** The [try] block after its [await]. *)
Definition after_generate (jobIndex : nat) (result : PoseResult)
  (genResponse : GenerateContentResponse) : PoseProc unit :=
  Read (fun w =>
    if negb (isRunning w) then Ret tt
    else
      url <- lift (image_url_of genResponse) ;;
      Write (set_result jobIndex (done_result result url)) (Ret tt)).

Definition try_block (jobIndex : nat) : PoseProc unit :=
  Read (fun w =>
    match js_get (results w) jobIndex with
    | None => Throw (TypeError_read "prompt")
    | Some result =>
        genResponse <- await_generate (prompt result) ;;
        after_generate jobIndex result genResponse
    end).

Definition catch_block (jobIndex : nat) (e : JsValue) : PoseProc unit :=
  msg <- lift (get_member e "message") ;;
  Write (fun w => set_result jobIndex (error_result (js_get (results w) jobIndex) msg) w) (Ret tt).

Definition count_completed (w : PoseWidget) : PoseWidget :=
  {| isRunning := isRunning w; concurrency := concurrency w;
     results := results w; completedJobs := S (completedJobs w) |}.

Definition finally_block : PoseProc unit :=
  Read (fun w => if isRunning w then Write count_completed (Ret tt) else Ret tt).

Definition runJob (jobIndex : nat) : PoseProc unit :=
  Read (fun w =>
    if negb (isRunning w) then Ret tt
    else try_finally (try_catch (try_block jobIndex) (catch_block jobIndex)) finally_block).

(** [{ prompt, status: 'pending', imageUrl: null }] *)
Definition pending_result (p : string) : PoseResult :=
  {| prompt := VString p; status := StatusPending;
     imageUrl := VNull; errorMessage := VUndefined |}.

(** [reset()], the handler of the start-over button: besides the end
    of a run, the only code that clears [isRunning]. *)
Definition reset (w : PoseWidget) : PoseWidget :=
  {| isRunning := false; concurrency := concurrency w;
     results := []; completedJobs := completedJobs w |}.

(** The generate button clicked again.  While [isRunning] is set the
    button is disabled ([updateGenerateButtonState]) and nothing
    happens.  After [reset()], once a model and a garment are uploaded
    again, the button is enabled although requests of the cancelled run
    may still be in flight: the click calls [generatePoses()] a second
    time, which sets the flag and replaces the array before its loop
    starts.  [completedJobs] is the counter of the run observed here,
    a local variable of its call, which the second call does not
    touch.  The jobs of the second call are not part of the schedule
    of this run: what is proved of a schedule with such a click is
    proved of the steps of this run and of the handlers only. *)
Definition restart (POSES : list string) (w : PoseWidget) : PoseWidget :=
  if isRunning w then w
  else {| isRunning := true; concurrency := concurrency w;
          results := map (fun p => Some (pending_result p)) POSES;
          completedJobs := completedJobs w |}.

Inductive UserEvent : Type := ClickStartOver | ClickGenerate.

Definition handle (POSES : list string) (u : UserEvent) (w : PoseWidget) : PoseWidget :=
  match u with
  | ClickStartOver => reset w
  | ClickGenerate => restart POSES w
  end.

Definition Oracle : Type := nat -> nat -> forall ev : PoseE, pose_ans ev.

Definition stop_running (w : PoseWidget) : PoseWidget :=
  {| isRunning := false; concurrency := concurrency w;
     results := results w; completedJobs := completedJobs w |}.

(** The state after the statements that precede the loop. *)
Definition begin_run (POSES : list string) (w : PoseWidget) : PoseWidget :=
  {| isRunning := true; concurrency := concurrency w;
     results := map (fun p => Some (pending_result p)) POSES; completedJobs := 0 |}.

(** [this.results.map((_, index) => index)] *)
Definition job_indices (w : PoseWidget) : list nat := seq 0 (List.length (results w)).

(** [generatePoses()] past its input check, for the list of poses of the
    widget.  [None]: the loop does not end. *)
Definition generatePoses (POSES : list string) (oracle : Oracle)
  (w : PoseWidget) (ticks : list (Tick nat UserEvent))
  : option (LoopEnd PoseWidget nat) :=
  let w1 := begin_run POSES w in
  let jobs := job_indices w1 in
  match windows_loop Nat.eqb (handle POSES) oracle isRunning concurrency runJob jobs
          (S (List.length jobs)) 0 w1 ticks [] with
  | Some (Completed s windows) => Some (Completed (stop_running s) windows)
  | other => other
  end.
End Pose.

(* ===================================================================== *)
(** ** The album of the pose widgets: [downloadAll] *)
(* ===================================================================== *)

(** [`${n}`] for a non-negative integer. *)
Definition decimal (n : nat) : string :=
  DecimalString.NilEmpty.string_of_uint (Nat.to_uint n).

Module PoseAlbum.
Import Pose.

Definition is_done (r : PoseResult) : bool :=
  match status r with StatusDone => true | _ => false end.

(** What [downloadAll] does to the page, in order. *)
Inductive AlbumEvent : Type :=
| SetDisabled (disabled : bool)
| SetLabel (text : string)
| DownloadFile (url : JsValue) (filename : string)
| Wait (ms : Z).

(** [this.results.filter(r => r.status === 'done').length]; [filter]
    skips the holes of the array. *)
Fixpoint successfulCount (rs : list (option PoseResult)) : nat :=
  match rs with
  | [] => 0
  | Some r :: rs' => (if is_done r then 1 else 0) + successfulCount rs'
  | None :: rs' => successfulCount rs'
  end.

(** The [for ... of this.results.entries()] loop from index [index]
    on; the iterator yields [undefined] for a hole, whose [status]
    cannot be read. *)
Fixpoint download_from (file_prefix : string) (total index downloadedCount : nat)
  (rs : list (option PoseResult)) : list AlbumEvent * Completion unit :=
  match rs with
  | [] => ([], Normal tt)
  | None :: _ => ([], Thrown (TypeError_read "status"))
  | Some result :: rs' =>
      if is_done result && truthy (imageUrl result) then
        let (t, c) := download_from file_prefix total (S index) (S downloadedCount) rs' in
        (SetLabel ("Downloading " ++ decimal (S downloadedCount) ++ "/" ++ decimal total ++ "...")
           :: DownloadFile (imageUrl result) (file_prefix ++ decimal (index + 1) ++ ".png")
           :: Wait 300 :: t, c)
      else download_from file_prefix total (S index) downloadedCount rs'
  end.

(** [downloadAll()], for the file name prefix of the widget
    ([pose_treadmill_], [pose_ganci_]) and the text of the button, on
    an array that is not written while the downloads go on. *)
Definition downloadAll (file_prefix originalText : string) (rs : list (option PoseResult))
  : list AlbumEvent * Completion unit :=
  match download_from file_prefix (successfulCount rs) 0 0 rs with
  | (t, Normal _) =>
      (SetDisabled true :: t ++ [SetLabel originalText; SetDisabled false], Normal tt)
  | (t, Thrown e) => (SetDisabled true :: t, Thrown e)
  end.

(** The files handed to [downloadFile]. *)
Fixpoint files (t : list AlbumEvent) : list (JsValue * string) :=
  match t with
  | [] => []
  | DownloadFile url filename :: t' => (url, filename) :: files t'
  | _ :: t' => files t'
  end.

(** The button of [downloadAll] when the events of [t] are over,
    [before] being its state at the start. *)
Fixpoint disabled_after (t : list AlbumEvent) (before : bool) : bool :=
  match t with
  | [] => before
  | SetDisabled b :: t' => disabled_after t' b
  | _ :: t' => disabled_after t' before
  end.
End PoseAlbum.

(* ===================================================================== *)
(** ** components/BatchEditor.ts *)
(* ===================================================================== *)

(** [s.split(c)] for a one-character separator. *)
Fixpoint split_on (c : Ascii.ascii) (s : string) : list string :=
  match s with
  | EmptyString => [EmptyString]
  | String a rest =>
      if Ascii.eqb a c then EmptyString :: split_on c rest
      else match split_on c rest with
           | [] => [String a EmptyString]
           | h :: t => String a h :: t
           end
  end.

(** [xs[i] = row] on an array without holes, for an index in range. *)
Fixpoint replace_nth {A : Type} (xs : list A) (i : nat) (x : A) : list A :=
  match xs, i with
  | [], _ => []
  | _ :: xs', O => x :: xs'
  | y :: xs', S i' => y :: replace_nth xs' i' x
  end.

Module Batch.

Record EditResult : Type := {
  status : Status;
  imageUrl : JsValue;
  errorMessage : JsValue
}.

(** The fields of the widget the batch run reads and writes, the
    placeholder elements [#batch-edit-job-f-p] present in the document
    and the run's counter [completedJobs].  The rest of the document and
    [downloadFile] are left out. *)
Record BatchWidget : Type := {
  files : list string;
  prompts : list string;
  isRunning : bool;
  concurrency : nat;
  results : list (list (option EditResult));
  placeholders : list (nat * nat);
  completedJobs : nat
}.

(** How [blobToDataUrl(file)] settles; the rejection value is the
    [error] event of the reader, an object without [message]. *)
Inductive BlobOutcome : Type :=
| BlobLoaded (dataUrl : string)
| BlobFailed.

Inductive BatchE : Type :=
| BlobToDataUrl (fileIndex : nat)
| GenerateImageEdit (prompt : JsValue) (imageBytes : string)
| Sleep (ms : Z).

Definition batch_ans (ev : BatchE) : Type :=
  match ev with
  | BlobToDataUrl _ => BlobOutcome
  | GenerateImageEdit _ _ => ApiOutcome
  | Sleep _ => unit
  end.

Definition BatchProc (R : Type) : Type := Proc BatchE batch_ans BatchWidget R.

Local Open Scope proc_scope.

Definition settle_blob (o : BlobOutcome) : BatchProc string :=
  match o with
  | BlobLoaded dataUrl => Ret dataUrl
  | BlobFailed => Throw (VObject [("type", VString "error")]%string)
  end.

Definition settle_api (o : ApiOutcome) : BatchProc GenerateContentResponse :=
  match o with
  | ApiFulfilled r => Ret r
  | ApiRejected err => Throw (thrown_value err)
  end.

(** [delay(ms)] of helpers.ts *)
Definition delay (ms : Z) : BatchProc unit := Await (Sleep ms) (fun _ => Ret tt).

(** [xs[i]] on an array of strings. *)
Definition string_at (xs : list string) (i : nat) : JsValue :=
  match nth_error xs i with
  | Some s => VString s
  | None => VUndefined
  end.

(** [generateImageEditContent(prompt, imageBytes, '', null, getApiKey)]
    of utils/gemini.ts: without a source image it throws before any
    request is made. *)
Definition generateFn (prompt imageBytes : JsValue) : BatchProc GenerateContentResponse :=
  match imageBytes with
  | VString (String a rest) => Await (GenerateImageEdit prompt (String a rest)) settle_api
  | _ => Throw (mkError "Error" "No source image provided.")
  end.

(** The observer passed to [withGenericRetry]: it rewrites the text of
    the placeholder and touches no field of the widget. *)
Definition onRetry (attempt : Z) (e : JsValue) : BatchProc unit := Ret tt.

Definition cell (rs : list (list (option EditResult))) (job : nat * nat) : option EditResult :=
  match nth_error rs (fst job) with
  | Some row => js_get row (snd job)
  | None => None
  end.

(** [this.results[fileIndex][promptIndex] = r] *)
Definition set_cell (job : nat * nat) (r : EditResult) (w : BatchWidget) : Completion BatchWidget :=
  match nth_error (results w) (fst job) with
  | None => Thrown (mkError "TypeError" "Cannot set properties of undefined")
  | Some row =>
      Normal {| files := files w; prompts := prompts w; isRunning := isRunning w;
                concurrency := concurrency w;
                results := replace_nth (results w) (fst job) (js_set row (snd job) r);
                placeholders := placeholders w; completedJobs := completedJobs w |}
  end.

Definition put_cell (job : nat * nat) (r : EditResult) (w : BatchWidget) : BatchWidget :=
  match set_cell job r w with
  | Normal w' => w'
  | Thrown _ => w
  end.

Definition write_cell (job : nat * nat) (r : EditResult) : BatchProc unit :=
  Read (fun w =>
    match set_cell job r w with
    | Normal _ => Write (put_cell job r) (Ret tt)
    | Thrown e => Throw e
    end).

Definition job_eqb (a b : nat * nat) : bool :=
  Nat.eqb (fst a) (fst b) && Nat.eqb (snd a) (snd b).

(** [placeholder.replaceWith(item)] *)
Definition replace_placeholder (job : nat * nat) (w : BatchWidget) : BatchWidget :=
  {| files := files w; prompts := prompts w; isRunning := isRunning w;
     concurrency := concurrency w; results := results w;
     placeholders := filter (fun q => negb (job_eqb q job)) (placeholders w);
     completedJobs := completedJobs w |}.

Definition count_completed (w : BatchWidget) : BatchWidget :=
  {| files := files w; prompts := prompts w; isRunning := isRunning w;
     concurrency := concurrency w; results := results w;
     placeholders := placeholders w; completedJobs := S (completedJobs w) |}.

(** The [try] block from the end of [withGenericRetry] on. *)
Definition after_generate (job : nat * nat) (response : GenerateContentResponse) : BatchProc unit :=
  Read (fun w =>
    if negb (isRunning w) then Ret tt
    else
      url <- lift (image_url_of response) ;;
      write_cell job {| status := StatusDone; imageUrl := VString url;
                        errorMessage := VUndefined |} ;;;
      Write (replace_placeholder job) (Ret tt)).

Definition try_block (job : nat * nat) : BatchProc unit :=
  Read (fun w =>
    let prompt := string_at (prompts w) (snd job) in
    dataUrl <- Await (BlobToDataUrl (fst job)) settle_blob ;;
    let imageBytes :=
      match nth_error (split_on ","%char dataUrl) 1 with
      | Some b => VString b
      | None => VUndefined
      end in
    response <- withGenericRetry (generateFn prompt imageBytes) 5 2000 onRetry delay ;;
    after_generate job response).

Definition catch_block (job : nat * nat) (e : JsValue) : BatchProc unit :=
  msg <- lift (get_member e "message") ;;
  write_cell job {| status := StatusError; imageUrl := VNull; errorMessage := msg |} ;;;
  Write (replace_placeholder job) (Ret tt).

Definition finally_block : BatchProc unit :=
  Read (fun w => if isRunning w then Write count_completed (Ret tt) else Ret tt).

Definition runJob (job : nat * nat) : BatchProc unit :=
  Read (fun w =>
    if negb (isRunning w) then Ret tt
    else if negb (existsb (job_eqb job) (placeholders w)) then Ret tt
    else try_finally (try_catch (try_block job) (catch_block job)) finally_block).

(** The stop button: [this.isRunning = false]. *)
Inductive UserEvent : Type := ClickStop.

Definition set_running (b : bool) (w : BatchWidget) : BatchWidget :=
  {| files := files w; prompts := prompts w; isRunning := b;
     concurrency := concurrency w; results := results w;
     placeholders := placeholders w; completedJobs := completedJobs w |}.

Definition handle (u : UserEvent) (w : BatchWidget) : BatchWidget :=
  match u with ClickStop => set_running false w end.

Definition Oracle : Type := nat * nat -> nat -> forall ev : BatchE, batch_ans ev.

(** [{ status: 'pending', imageUrl: null }] *)
Definition pending_result : EditResult :=
  {| status := StatusPending; imageUrl := VNull; errorMessage := VUndefined |}.

(** The flat list of jobs, file by file. *)
Definition job_list (nfiles nprompts : nat) : list (nat * nat) :=
  list_prod (seq 0 nfiles) (seq 0 nprompts).

(** The state after the statements that precede the loop; [lines] are
    the non-empty trimmed lines of the prompt box. *)
Definition begin_run (lines : list string) (w : BatchWidget) : BatchWidget :=
  let ps := firstn 20 lines in
  {| files := files w; prompts := ps; isRunning := true; concurrency := concurrency w;
     results := repeat (repeat (Some pending_result) (List.length ps)) (List.length (files w));
     placeholders := job_list (List.length (files w)) (List.length ps);
     completedJobs := 0 |}.

(** [this.prompts = ps] *)
Definition set_prompts (ps : list string) (w : BatchWidget) : BatchWidget :=
  {| files := files w; prompts := ps; isRunning := isRunning w;
     concurrency := concurrency w; results := results w;
     placeholders := placeholders w; completedJobs := completedJobs w |}.

(** [generateEdits()].  [None]: the loop does not end. *)
Definition generateEdits (lines : list string) (oracle : Oracle)
  (w : BatchWidget) (ticks : list (Tick (nat * nat) UserEvent))
  : option (LoopEnd BatchWidget (nat * nat)) :=
  let w0 := set_prompts (firstn 20 lines) w in
  if (List.length (prompts w0) =? 0) || (List.length (files w0) =? 0)
  then Some (Completed w0 [])
  else
    let w1 := begin_run lines w in
    let jobs := job_list (List.length (files w1)) (List.length (prompts w1)) in
    match windows_loop job_eqb handle oracle isRunning concurrency runJob jobs
            (S (List.length jobs)) 0 w1 ticks [] with
    | Some (Completed s windows) => Some (Completed (set_running false s) windows)
    | other => other
    end.
End Batch.

(* ===================================================================== *)
(** ** components/ImageGenerator.ts: the sequential batch *)
(* ===================================================================== *)

Module ImageBatch.

(** An element appended to [batchOutputGrid]. *)
Inductive GridItem : Type :=
| ImageItem (url prompt : string)
| FailedItem (prompt : string).

(** The fields of the widget the batch reads and writes and the items
    of the output grid; the status line, the progress bar and
    [downloadFile] are left out. *)
Record ImageWidget : Type := {
  isBatchRunning : bool;
  batchDelaySeconds : float;
  batchResults : list (string * string);
  batchOutputGrid : list GridItem
}.

(** [generateImageContent(prompt, ...)], a timeout and one firing of
    the one-second interval of [interruptibleImageDelay]. *)
Inductive ImageE : Type :=
| GenerateImageContent (prompt : string)
| Timeout (ms : Z)
| IntervalFires.

Definition image_ans (ev : ImageE) : Type :=
  match ev with
  | GenerateImageContent _ => Settled JsValue
  | Timeout _ => unit
  | IntervalFires => unit
  end.

Definition ImageProc (R : Type) : Type := Proc ImageE image_ans ImageWidget R.

Local Open Scope proc_scope.

Definition set_running (b : bool) (w : ImageWidget) : ImageWidget :=
  {| isBatchRunning := b; batchDelaySeconds := batchDelaySeconds w;
     batchResults := batchResults w; batchOutputGrid := batchOutputGrid w |}.

(** [this.batchResults.push({ url, prompt })] *)
Definition push_result (url prompt : string) (w : ImageWidget) : ImageWidget :=
  {| isBatchRunning := isBatchRunning w; batchDelaySeconds := batchDelaySeconds w;
     batchResults := batchResults w ++ [(url, prompt)];
     batchOutputGrid := batchOutputGrid w |}.

(** [this.batchOutputGrid.appendChild(item)] *)
Definition append_item (item : GridItem) (w : ImageWidget) : ImageWidget :=
  {| isBatchRunning := isBatchRunning w; batchDelaySeconds := batchDelaySeconds w;
     batchResults := batchResults w;
     batchOutputGrid := batchOutputGrid w ++ [item] |}.

(** The statements that precede the loop. *)
Definition begin_batch (w : ImageWidget) : ImageWidget :=
  {| isBatchRunning := true; batchDelaySeconds := batchDelaySeconds w;
     batchResults := []; batchOutputGrid := [] |}.

Definition delay (ms : Z) : ImageProc unit := Await (Timeout ms) (fun _ => Ret tt).

(** The interval callback of [interruptibleImageDelay], [more] being
    [secondsLeft - 1]: it resolves when the batch was stopped or when
    the seconds are used up. *)
Fixpoint interval_callbacks (more : nat) : ImageProc unit :=
  Await IntervalFires (fun _ =>
    Read (fun w =>
      if negb (isBatchRunning w) then Ret tt
      else match more with
           | O => Ret tt
           | S more' => interval_callbacks more'
           end)).

Section Batch.
(** The string conversion of a template literal ([None] where it
    throws), [x * 1000] as a number of milliseconds and
    [Math.ceil(x * 1000 / 1000)]. *)
Variable to_string : JsValue -> option string.
Variable milliseconds : float -> Z.
Variable ceil_seconds : float -> Z.

Definition interruptibleImageDelay (x : float) : ImageProc unit :=
  interval_callbacks (Z.to_nat (ceil_seconds x - 1)).

(** The body of the inner [try] and its [catch]. *)
Definition generate_one (prompt : string) : ImageProc unit :=
  try_catch
    (Read (fun w =>
       base64Image <- withGenericRetry (Await (GenerateImageContent prompt) settle) 5
                        (milliseconds (batchDelaySeconds w)) (fun _ _ => Ret tt) delay ;;
       match to_string base64Image with
       | None => Throw (mkError "TypeError" "Cannot convert object to primitive value")
       | Some b =>
           let imageUrl := ("data:image/jpeg;base64," ++ b)%string in
           Write (push_result imageUrl prompt)
             (Write (append_item (ImageItem imageUrl prompt)) (Ret tt))
       end))
    (fun e => Write (append_item (FailedItem prompt)) (Ret tt)).

(** [for (const [index, prompt] of prompts.entries()) { ... }], from
    [index] on, [total] being [prompts.length]. *)
Fixpoint batch_loop (total index : nat) (prompts : list string) : ImageProc unit :=
  match prompts with
  | [] => Ret tt
  | prompt :: rest =>
      Read (fun w =>
        if negb (isBatchRunning w) then Ret tt
        else
          generate_one prompt ;;;
          Read (fun w' =>
            if (index <? total - 1) && isBatchRunning w'
            then interruptibleImageDelay (batchDelaySeconds w')
            else Ret tt) ;;;
          batch_loop total (S index) rest)
  end.

(** [generateBatchImages()]; [lines] are the non-empty trimmed lines of
    the prompt box. *)
Definition generateBatchImages (lines : list string) : ImageProc unit :=
  let prompts := firstn 10 lines in
  if List.length prompts =? 0 then Ret tt
  else
    Write begin_batch
      (try_finally (batch_loop (List.length prompts) 0 prompts)
         (Write (set_running false) (delay 1500))).

(** The stop button: [this.isBatchRunning = false]. *)
Inductive UserEvent : Type := ClickStop.

Definition handle (u : UserEvent) (w : ImageWidget) : ImageWidget :=
  match u with ClickStop => set_running false w end.

Definition Oracle : Type := unit -> nat -> forall ev : ImageE, image_ans ev.

(** A call of [generateBatchImages] run through the event loop. *)
Definition run (lines : list string) (oracle : Oracle) (w : ImageWidget)
  (ticks : list (Tick unit UserEvent)) : WindowEnd ImageWidget unit UserEvent :=
  promise_all (fun _ _ => true) handle oracle (fun _ => generateBatchImages lines) [tt] w ticks.
End Batch.
End ImageBatch.

(* ===================================================================== *)
(** ** index.tsx: the API key *)
(* ===================================================================== *)

Module ApiKey.

(** [premiumApiKey], the item [premiumApiKey] of [localStorage]
    ([None]: [null]), the text of the input field and the class
    [active] of the status indicator. *)
Record KeyState : Type := {
  premiumApiKey : option string;
  stored : option string;
  inputValue : string;
  indicatorActive : bool
}.

Definition non_empty (s : string) : bool := negb (String.eqb s EmptyString).

(** The truth value of [premiumApiKey]. *)
Definition has_key (k : option string) : bool :=
  match k with
  | Some s => non_empty s
  | None => false
  end.

Section Operations.
(** [String.prototype.trim] and [process.env.API_KEY]. *)
Variable trim : string -> string.
Variable env_API_KEY : JsValue.

Definition getApiKey (st : KeyState) : JsValue :=
  match premiumApiKey st with
  | Some k => if non_empty k then VString k else env_API_KEY
  | None => env_API_KEY
  end.

Definition updateApiKeyStatusUI (st : KeyState) : KeyState :=
  {| premiumApiKey := premiumApiKey st; stored := stored st; inputValue := inputValue st;
     indicatorActive := has_key (premiumApiKey st) |}.

Definition saveApiKey (st : KeyState) : KeyState :=
  let newKey := trim (inputValue st) in
  if non_empty newKey then
    updateApiKeyStatusUI
      {| premiumApiKey := Some newKey; stored := Some newKey; inputValue := inputValue st;
         indicatorActive := indicatorActive st |}
  else st.

Definition clearApiKey (st : KeyState) : KeyState :=
  updateApiKeyStatusUI
    {| premiumApiKey := None; stored := None; inputValue := EmptyString;
       indicatorActive := indicatorActive st |}.

(** The [DOMContentLoaded] handler. *)
Definition load (st : KeyState) : KeyState :=
  updateApiKeyStatusUI
    {| premiumApiKey := stored st; stored := stored st;
       inputValue := if has_key (stored st) then
                       match stored st with Some k => k | None => inputValue st end
                     else inputValue st;
       indicatorActive := indicatorActive st |}.

(** A page freshly opened over the storage [item]. *)
Definition open_page (item : option string) : KeyState :=
  load {| premiumApiKey := None; stored := item; inputValue := EmptyString;
          indicatorActive := false |}.

(** What the user does: edit the field, press Save, press Clear,
    reload the page. *)
Inductive Action : Type :=
| TypeKey (text : string)
| ClickSave
| ClickClear
| Reload.

Definition act (st : KeyState) (a : Action) : KeyState :=
  match a with
  | TypeKey text =>
      {| premiumApiKey := premiumApiKey st; stored := stored st; inputValue := text;
         indicatorActive := indicatorActive st |}
  | ClickSave => saveApiKey st
  | ClickClear => clearApiKey st
  | Reload => open_page (stored st)
  end.

Definition session (item : option string) (actions : list Action) : KeyState :=
  fold_left act actions (open_page item).
End Operations.
End ApiKey.

(* ===================================================================== *)
(** * Properties of the embedded program *)
(* ===================================================================== *)

(* ===================================================================== *)
(** ** The attempt loops, one iteration at a time *)
(* ===================================================================== *)

Section LoopFacts.
Context {T : Type}.
Variables (R d : Z) (script : Script T).
Local Open Scope Z_scope.

(** The verdict of the policy in use on a caught error. *)
Variable cls : JsValue -> Completion bool.

(** One iteration of an attempt loop whose remaining iterations are [run]. *)
Definition loop_step
  (run : Z -> JsValue -> nat -> list RetryE * Completion (LoopExit T))
  (a : Z) (le : JsValue) (n : nat) : list RetryE * Completion (LoopExit T) :=
  if a <=? R + 1 then
    match script n with
    | Fulfilled v => ([CallFn], Normal (Returned v))
    | Rejected e =>
        match cls e with
        | Thrown err => ([CallFn], Thrown err)
        | Normal b =>
            if b && (a <=? R)
            then let (t, o) := run (a + 1) e (S n) in
                 (CallFn :: OnRetry a e :: Delay d :: t, o)
            else ([CallFn], Thrown e)
        end
    end
  else ([], Normal (FellThrough le)).

Variable run : Z -> JsValue -> nat -> list RetryE * Completion (LoopExit T).
Hypothesis run_unfold : forall a le n, run a le n = loop_step run a le n.

(** What a loop started at attempt [a], with [n] earlier invocations,
    has done when it is left. *)
Record LoopSummary (a : Z) (n : nat) (t : list RetryE) (o : Completion (LoopExit T)) : Prop := {
  ls_bound : (calls t <= Z.to_nat (R + 2 - a))%nat;
  ls_entered : a <= R + 1 -> (1 <= calls t)%nat;
  ls_skipped : R + 1 < a -> t = [] /\ exists le, o = Normal (FellThrough le);
  ls_ends_on_call : t <> [] -> exists t0, t = t0 ++ [CallFn];
  ls_earlier : forall j, (n <= j)%nat -> (S j < n + calls t)%nat ->
      exists e, script j = Rejected e /\ cls e = Normal true /\ a + Z.of_nat (j - n) <= R;
  ls_last : a <= R + 1 ->
      match o with
      | Normal (Returned v) => script (n + calls t - 1)%nat = Fulfilled v
      | Normal (FellThrough _) => False
      | Thrown x => exists e, script (n + calls t - 1)%nat = Rejected e /\
          (cls e = Thrown x \/
           (x = e /\ (cls e = Normal false \/ R < a + Z.of_nat (calls t) - 1)))
      end;
  ls_observed : observed t = map (fun i => a + Z.of_nat i) (seq 0 (calls t - 1))
}.

Lemma run_summary_aux : forall (m : nat) (a : Z) (le : JsValue) (n : nat),
  Z.to_nat (R + 2 - a) = m ->
  LoopSummary a n (fst (run a le n)) (snd (run a le n)).
Proof.
  induction m as [|m IH]; intros a le n Hm; rewrite run_unfold; unfold loop_step.
  - destruct (Z.leb_spec a (R + 1)) as [Hle|Hgt]; [lia|].
    cbn. constructor; cbn; try lia; try congruence; eauto; intros; lia.
  - destruct (Z.leb_spec a (R + 1)) as [Hle|Hgt]; [|lia].
    destruct (script n) as [v|e] eqn:Hs.
    { cbn. constructor; cbn; try lia.
      - intros _. exists []. reflexivity.
      - intros _. replace (n + 1 - 1)%nat with n by lia. exact Hs.
      - reflexivity. }
    destruct (cls e) as [b|err] eqn:Hc.
    2:{ cbn. constructor; cbn; try lia.
        - intros _. exists []. reflexivity.
          - intros _. replace (n + 1 - 1)%nat with n by lia. exists e. auto.
        - reflexivity. }
    destruct (b && (a <=? R))%bool eqn:Hb.
    2:{ cbn. constructor; cbn; try lia.
        - intros _. exists []. reflexivity.
          - intros _. replace (n + 1 - 1)%nat with n by lia. exists e. split; [exact Hs|].
          right. split; [reflexivity|].
          destruct b; [right|left; exact Hc].
          cbn in Hb. apply Z.leb_gt in Hb. lia.
        - reflexivity. }
    apply andb_true_iff in Hb. destruct Hb as [-> Hb]. apply Z.leb_le in Hb.
    assert (Hm' : Z.to_nat (R + 2 - (a + 1)) = m) by lia.
    specialize (IH (a + 1) e (S n) Hm').
    destruct (run (a + 1) e (S n)) as [t o]. cbn in IH. cbn [fst snd].
    destruct IH as [B1 B2 B3 B4 B5 B6 B7].
    assert (Hcalls : calls (CallFn :: OnRetry a e :: Delay d :: t) = S (calls t)) by reflexivity.
    assert (Hpos : (1 <= calls t)%nat) by (apply B2; lia).
    constructor; rewrite ?Hcalls.
    + lia.
    + lia.
    + lia.
    + intros _. destruct t as [|x t'].
      * cbn in Hpos. lia.
      * destruct B4 as [t0 Ht0]; [congruence|].
        exists (CallFn :: OnRetry a e :: Delay d :: t0). rewrite Ht0. reflexivity.
    + intros j H1 H2. destruct (Nat.eq_dec j n) as [->|Hne].
      * exists e. repeat split; auto. replace (n - n)%nat with 0%nat by lia. lia.
      * destruct (B5 j) as [e' (E1 & E2 & E3)]; [lia|lia|].
        exists e'. repeat split; auto.
        replace (Z.of_nat (j - n)) with (1 + Z.of_nat (j - S n)) by lia. lia.
    + intros _. specialize (B6 ltac:(lia)).
      replace (n + S (calls t) - 1)%nat with (S n + calls t - 1)%nat by lia.
      destruct o as [[v|le']|x]; auto.
      destruct B6 as [e' (E1 & E2)]. exists e'. split; [exact E1|].
      destruct E2 as [E2|(E2 & E3)]; [left; exact E2|right].
      split; [exact E2|]. destruct E3 as [E3|E3]; [left; exact E3|right; lia].
    + cbn [observed]. rewrite B7.
      replace (S (calls t) - 1)%nat with (S (calls t - 1)) by lia.
      cbn [seq map]. f_equal; [lia|].
      rewrite <- seq_shift, map_map. apply map_ext. intros i. lia.
Qed.

Lemma run_summary (a : Z) (le : JsValue) (n : nat) :
  LoopSummary a n (fst (run a le n)) (snd (run a le n)).
Proof. exact (run_summary_aux a le n eq_refl). Qed.
End LoopFacts.

(* ===================================================================== *)
(** ** The two helpers satisfy the iteration equations *)
(* ===================================================================== *)

Lemma calls_cons (ev : RetryE) (t : list RetryE) (n : nat) :
  (bump n ev + calls t = n + calls (ev :: t))%nat.
Proof. unfold bump, calls. cbn. destruct (is_call ev); cbn; lia. Qed.

(** How a helper completes, from how its attempt loop is left. *)
Definition finish {T : Type} (o : Completion (LoopExit T)) : Completion T :=
  match o with
  | Normal (Returned v) => Normal v
  | Normal (FellThrough lastError) => Thrown lastError
  | Thrown e => Thrown e
  end.

Definition after_loop {T : Type} (x : LoopExit T) : RetryProc T T :=
  match x with
  | Returned v => Ret v
  | FellThrough lastError => Throw lastError
  end.

Lemma exec_after_loop {T : Type} (p : RetryProc T (LoopExit T)) (script : Script T) (n : nat) :
  exec (bind p after_loop) script n = (fst (exec p script n), finish (snd (exec p script n))).
Proof.
  revert n. induction p as [r|e|k IH|f k IH|ev k IH]; intros n; cbn.
  - destruct r; reflexivity.
  - reflexivity.
  - apply IH.
  - apply IH.
  - rewrite IH. destruct (exec (k (answer script n ev)) script (bump n ev)). reflexivity.
Qed.

Section HelperRuns.
Context {T : Type}.
Variable JSON_parse : string -> option JsValue.
Variables (R d : Z) (script : Script T).
Local Open Scope Z_scope.

(** The attempt loops of the two helpers, run against the script. *)
Definition withRetry_run (a : Z) (le : JsValue) (n : nat)
  : list RetryE * Completion (LoopExit T) :=
  exec (withRetry_loop JSON_parse call_fn R d observe wait a le) script n.

Definition withGenericRetry_run (a : Z) (le : JsValue) (n : nat)
  : list RetryE * Completion (LoopExit T) :=
  exec (withGenericRetry_loop call_fn R d observe wait a le) script n.

Lemma withRetry_run_unfold (a : Z) (le : JsValue) (n : nat) :
  withRetry_run a le n = loop_step R d script (is429 JSON_parse) withRetry_run a le n.
Proof.
  unfold withRetry_run, loop_step. simp withRetry_loop.
  destruct (Z_le_dec a (R + 1)) as [Hle|Hgt]; cbn.
  - destruct (Z.leb_spec a (R + 1)); [|lia].
    destruct (script n) as [v|e]; cbn; [reflexivity|].
    destruct (is429 JSON_parse e) as [b|err]; cbn; [|reflexivity].
    destruct (b && (a <=? R))%bool; cbn; [|reflexivity].
    destruct (exec _ script (S n)). reflexivity.
  - destruct (Z.leb_spec a (R + 1)); [lia|reflexivity].
Qed.

(** The generic policy: every caught error is retryable. *)
Definition always_retryable (e : JsValue) : Completion bool := Normal true.

Lemma withGenericRetry_run_unfold (a : Z) (le : JsValue) (n : nat) :
  withGenericRetry_run a le n = loop_step R d script always_retryable withGenericRetry_run a le n.
Proof.
  unfold withGenericRetry_run, loop_step, always_retryable. simp withGenericRetry_loop.
  destruct (Z_le_dec a (R + 1)) as [Hle|Hgt]; cbn.
  - destruct (Z.leb_spec a (R + 1)); [|lia].
    destruct (script n) as [v|e]; cbn; [reflexivity|].
    destruct (a <=? R); cbn; [|reflexivity].
    destruct (exec _ script (S n)). reflexivity.
  - destruct (Z.leb_spec a (R + 1)); [lia|reflexivity].
Qed.

Lemma runWithRetry_eq :
  runWithRetry JSON_parse R d script
  = (fst (withRetry_run 1 VUndefined 0), finish (snd (withRetry_run 1 VUndefined 0))).
Proof. apply (exec_after_loop (withRetry_loop JSON_parse call_fn R d observe wait 1 VUndefined)). Qed.

Lemma runWithGenericRetry_eq :
  runWithGenericRetry R d script
  = (fst (withGenericRetry_run 1 VUndefined 0), finish (snd (withGenericRetry_run 1 VUndefined 0))).
Proof. apply (exec_after_loop (withGenericRetry_loop call_fn R d observe wait 1 VUndefined)). Qed.

Lemma withRetry_summary :
  LoopSummary R script (is429 JSON_parse) 1 0
    (fst (withRetry_run 1 VUndefined 0)) (snd (withRetry_run 1 VUndefined 0)).
Proof. apply run_summary with (d := d). exact withRetry_run_unfold. Qed.

Lemma withGenericRetry_summary :
  LoopSummary R script always_retryable 1 0
    (fst (withGenericRetry_run 1 VUndefined 0)) (snd (withGenericRetry_run 1 VUndefined 0)).
Proof. apply run_summary with (d := d). exact withGenericRetry_run_unfold. Qed.
End HelperRuns.

(* ===================================================================== *)
(** ** Sample inputs *)
(* ===================================================================== *)

Definition dquote : string := String (Ascii.ascii_of_nat 34) EmptyString.

(** The text [{"error":{"code":429}}]. *)
Definition rate_limit_text : string :=
  ("{" ++ dquote ++ "error" ++ dquote ++ ":{" ++ dquote ++ "code" ++ dquote ++ ":429}}")%string.

(** [JSON.parse] on the three texts the samples use: the rate-limit
    payload, the literal [null], and anything else taken as not JSON. *)
Definition sample_JSON_parse (s : string) : option JsValue :=
  if String.eqb s rate_limit_text
  then Some (VObject [("error", VObject [("code", VNumber 429)])]%string)
  else if String.eqb s "null" then Some VNull
  else None.

Definition rate_limit_error : JsValue := mkError "ApiError" rate_limit_text.
Definition plain_error : JsValue := mkError "Error" "boom".

(** An operation that is rate-limited twice and then succeeds with 7. *)
Definition script_two_429_then_ok : Script nat :=
  fun n => if (n <? 2)%nat then Rejected rate_limit_error else Fulfilled 7%nat.

Definition script_always_429 : Script nat := fun _ => Rejected rate_limit_error.
Definition script_always_plain : Script nat := fun _ => Rejected plain_error.
Definition script_always_ok : Script nat := fun _ => Fulfilled 7%nat.
Definition script_rejects_null : Script nat := fun _ => Rejected VNull.

Example run_two_429_then_ok :
  runWithRetry sample_JSON_parse 3 2000 script_two_429_then_ok
  = ([CallFn; OnRetry 1 rate_limit_error; Delay 2000;
      CallFn; OnRetry 2 rate_limit_error; Delay 2000; CallFn], Normal 7%nat).
Proof. vm_compute. reflexivity. Qed.

Example run_plain_error :
  runWithRetry sample_JSON_parse 3 2000 script_always_plain = ([CallFn], Thrown plain_error).
Proof. vm_compute. reflexivity. Qed.

Example run_generic_exhausted :
  runWithGenericRetry 2 500 script_always_plain
  = ([CallFn; OnRetry 1 plain_error; Delay 500;
      CallFn; OnRetry 2 plain_error; Delay 500; CallFn], Thrown plain_error).
Proof. vm_compute. reflexivity. Qed.

(** With a negative bound the loop body never runs and the statement
    after the loop throws the initial [undefined]. *)
Example run_negative_bound :
  runWithRetry sample_JSON_parse (-1) 2000 script_always_ok = ([], Thrown VUndefined).
Proof. vm_compute. reflexivity. Qed.

(* ===================================================================== *)
(** ** Properties of a run, stated on its trace and completion *)
(* ===================================================================== *)

(** [null] and [undefined]. *)
Definition nullish (v : JsValue) : bool :=
  match v with
  | VUndefined | VNull => true
  | _ => false
  end.

(** At most [R + 1] invocations; a fulfilled invocation is the last
    event of the run and its value is the result. *)
Definition bounded_and_stops_on_success {T : Type} (R : Z) (script : Script T)
  (r : list RetryE * Completion T) : Prop :=
  (Z.of_nat (calls (fst r)) <= R + 1)%Z /\
  forall k v, k < calls (fst r) -> script k = Fulfilled v ->
    snd r = Normal v /\ calls (fst r) = S k /\ exists t0, fst r = t0 ++ [CallFn].

(** The observer is called once between consecutive invocations, with
    the attempt numbers 1, 2, ... in order. *)
Definition observer_follows_attempts (R : Z) (t : list RetryE) : Prop :=
  observed t = map Z.of_nat (seq 1 (calls t - 1)) /\
  Z.of_nat (List.length (observed t)) = Z.min (Z.of_nat (calls t) - 1) R.

(** The number of observer calls the specification states. *)
Definition stated_observer_calls (R : Z) (t : list RetryE) : Z :=
  Z.min (Z.of_nat (calls t)) R.

(** The rejection of invocation [k] ends the run and is what the caller
    catches. *)
Definition rethrown_at {T : Type} (k : nat) (e : JsValue)
  (r : list RetryE * Completion T) : Prop :=
  snd r = Thrown e /\ calls (fst r) = S k.

(** A returned value is the value some invocation, the last one, was
    fulfilled with. *)
Definition result_is_from_fn {T : Type} (script : Script T)
  (r : list RetryE * Completion T) : Prop :=
  forall v, snd r = Normal v -> exists k, calls (fst r) = S k /\ script k = Fulfilled v.

(** The specification's rate-limit condition: the [message] field is a
    string that parses as JSON whose [error.code] equals 429. *)
Definition rate_limited (JSON_parse : string -> option JsValue) (e : JsValue) : Prop :=
  exists props m body_props error_props c,
    e = VObject props /\ own_property props "message" = VString m /\
    JSON_parse m = Some (VObject body_props) /\
    own_property body_props "error" = VObject error_props /\
    own_property error_props "code" = VNumber c /\
    PrimFloat.eqb c 429 = true.

Section SummaryConsequences.
Context {T : Type}.
Variables (R : Z) (script : Script T) (cls : JsValue -> Completion bool).
Variables (t : list RetryE) (o : Completion (LoopExit T)).
Hypothesis summary : LoopSummary R script cls 1 0 t o.
Local Open Scope Z_scope.

Lemma summary_last_call (k : nat) (v : T) :
  (k < calls t)%nat -> script k = Fulfilled v -> calls t = S k.
Proof.
  intros Hk Hs. destruct (Nat.eq_dec (S k) (calls t)) as [E|NE]; [congruence|].
  destruct (ls_earlier summary (j := k)) as [e (He & _)]; [lia|lia|congruence].
Qed.

Lemma summary_bounded : 0 <= R -> bounded_and_stops_on_success R script (t, finish o).
Proof.
  intros HR. split; cbn [fst snd].
  - pose proof (ls_bound summary). lia.
  - intros k v Hk Hs. pose proof (summary_last_call Hk Hs) as Hlast.
    pose proof (ls_last summary ltac:(lia)) as HL.
    replace (0 + calls t - 1)%nat with k in HL by lia.
    repeat split; auto.
    + destruct o as [[v'|le]|x]; cbn.
      * congruence.
      * contradiction.
      * destruct HL as [e (He & _)]. congruence.
    + apply (ls_ends_on_call summary). intros ->. cbn in Hk. lia.
Qed.

Lemma summary_observer : 0 <= R -> observer_follows_attempts R t.
Proof.
  intros HR. pose proof (ls_observed summary) as Ho.
  assert (E : observed t = map Z.of_nat (seq 1 (calls t - 1))).
  { rewrite Ho, <- seq_shift, map_map. apply map_ext. intros i. lia. }
  split; [exact E|].
  rewrite E, length_map, length_seq.
  pose proof (ls_bound summary). pose proof (ls_entered summary ltac:(lia)). lia.
Qed.

Lemma summary_rethrow (k : nat) (e : JsValue) :
  script k = Rejected e -> (k < calls t)%nat ->
  cls e = Normal false \/ (cls e = Normal true /\ R < Z.of_nat k + 1) ->
  rethrown_at k e (t, finish o).
Proof.
  intros Hs Hk Hc.
  assert (Hlast : calls t = S k).
  { destruct (Nat.eq_dec (S k) (calls t)) as [E|NE]; [congruence|].
    destruct (ls_earlier summary (j := k)) as [e' (He & Hc' & Hle)]; [lia|lia|].
    assert (e' = e) by congruence. subst e'.
    destruct Hc as [Hc|[_ Hc]]; [congruence|].
    replace (k - 0)%nat with k in Hle by lia. lia. }
  split; cbn [fst snd]; [|exact Hlast].
  assert (Hin : 1 <= R + 1).
  { destruct (Z_le_dec 1 (R + 1)); [assumption|].
    destruct (ls_skipped summary) as [-> _]; [lia|]. cbn in Hk. lia. }
  pose proof (ls_last summary Hin) as HL.
  replace (0 + calls t - 1)%nat with k in HL by lia.
  destruct o as [[v'|le]|x]; cbn.
  - congruence.
  - contradiction.
  - destruct HL as [e' (He & [Hthrow|(-> & _)])]; [|congruence].
    assert (e' = e) by congruence. subst e'.
    destruct Hc as [Hc|[Hc _]]; congruence.
Qed.

Lemma summary_result_from_fn : result_is_from_fn script (t, finish o).
Proof.
  intros v. cbn [fst snd]. destruct o as [[v'|le]|x]; cbn; try discriminate.
  intros [= ->].
  destruct (Z_le_dec 1 (R + 1)) as [Hin|Hout].
  - pose proof (ls_last summary Hin) as HL. cbn in HL.
    pose proof (ls_entered summary Hin).
    exists (calls t - 1)%nat. split; [lia|exact HL].
  - destruct (ls_skipped summary) as [_ [le E]]; [lia|]. discriminate.
Qed.

Lemma summary_no_fall_through :
  0 <= R ->
  match o with
  | Normal (Returned v) => exists k, calls t = S k /\ script k = Fulfilled v
  | Normal (FellThrough _) => False
  | Thrown x => exists k e, calls t = S k /\ script k = Rejected e
  end.
Proof.
  intros HR. pose proof (ls_last summary ltac:(lia)) as HL.
  pose proof (ls_entered summary ltac:(lia)).
  destruct o as [[v'|le]|x]; auto.
  - exists (calls t - 1)%nat. split; [lia|exact HL].
  - destruct HL as [e (He & _)]. exists (calls t - 1)%nat, e. split; [lia|exact He].
Qed.
End SummaryConsequences.

(* ===================================================================== *)
(** ** The retry policy: claims *)
(* ===================================================================== *)

(** C1. For every operation, every bound [R >= 0] and every delay, both
    helpers invoke [fn] at most [R + 1] times, and an invocation that is
    fulfilled ends the run at once: its value is returned and nothing,
    in particular no invocation, follows it. *)
Theorem retry_bound_and_success (T : Type) (JSON_parse : string -> option JsValue)
  (R d : Z) (script : Script T) :
  (0 <= R)%Z ->
  bounded_and_stops_on_success R script (runWithRetry JSON_parse R d script) /\
  bounded_and_stops_on_success R script (runWithGenericRetry R d script).
Proof.
  intros HR. rewrite runWithRetry_eq, runWithGenericRetry_eq. split.
  - exact (summary_bounded (withRetry_summary JSON_parse R d script) HR).
  - exact (summary_bounded (withGenericRetry_summary R d script) HR).
Qed.

Lemma retry_bound_and_success_witness :
  (0 <= 3)%Z /\
  bounded_and_stops_on_success 3 script_two_429_then_ok
    (runWithRetry sample_JSON_parse 3 2000 script_two_429_then_ok) /\
  bounded_and_stops_on_success 3 script_two_429_then_ok
    (runWithGenericRetry 3 2000 script_two_429_then_ok).
Proof.
  split; [lia|].
  apply (@retry_bound_and_success nat sample_JSON_parse 3 2000 script_two_429_then_ok).
  lia.
Defined.

(** For every caught value other than [null] and [undefined] the
    classification of [withRetry] completes without throwing, and its
    verdict is retryable exactly when the value's [message] is a string
    that parses as JSON whose [error.code] equals 429. *)
Theorem classification_of_non_nullish (JSON_parse : string -> option JsValue) (e : JsValue) :
  nullish e = false ->
  exists b, is429 JSON_parse e = Normal b /\ (b = true <-> rate_limited JSON_parse e).
Proof.
  intros Hn. unfold is429, rate_limited.
  destruct e as [| |b|x|s|xs|props]; cbn in Hn; try discriminate; cbn;
    try (exists false; split; [reflexivity|];
         split; [discriminate|intros (p & m & bp & ep & c & H & _); discriminate]).
  destruct (own_property props "message") as [| |b|x|m|xs|mp] eqn:Hm;
    try (exists false; split; [reflexivity|];
         split; [discriminate|
                 intros (p & m' & bp & ep & c & [= <-] & H & _); congruence]).
  destruct (JSON_parse m) as [body|] eqn:Hp.
  2:{ exists false. split; [reflexivity|]. split; [discriminate|].
      intros (p & m' & bp & ep & c & [= <-] & H & H' & _). congruence. }
  eexists. split; [reflexivity|]. split.
  - intros Heq.
    destruct body as [| |b|x|s|xs|bp]; cbn in Heq; try discriminate.
    destruct (own_property bp "error") as [| |b|x|s|xs|ep] eqn:He; cbn in Heq; try discriminate.
    destruct (own_property ep "code") as [| |b|c|s|xs|cp] eqn:Hc; cbn in Heq; try discriminate.
    exists props, m, bp, ep, c. auto 6.
  - intros (p & m' & bp & ep & c & [= <-] & H1 & H2 & H3 & H4 & H5).
    assert (m' = m) by congruence. subst m'.
    assert (body = VObject bp) by congruence. subst body.
    cbn. rewrite H3. cbn. rewrite H4. cbn. exact H5.
Qed.

(** C2. The claim holds of every caught value but [null] and
    [undefined] (lemma [classification_of_non_nullish]).  On an
    operation that rejects with [null] (and likewise with [undefined])
    the classification does not complete: reading [e.message] throws a
    [TypeError] inside the [catch] block, and [withRetry] ends with
    that [TypeError] after one invocation, where the claim has the
    value classified non-retryable and rethrown. *)
Lemma classification_throws_on_null :
  is429 sample_JSON_parse VNull = Thrown (TypeError_read "message") /\
  is429 sample_JSON_parse VUndefined = Thrown (TypeError_read "message") /\
  runWithRetry sample_JSON_parse 3 2000 script_rejects_null
  = ([CallFn], Thrown (TypeError_read "message")).
Proof. vm_compute. repeat split. Qed.

(** C4 (amended). For every bound [R >= 0] and every operation, both
    helpers call [onRetry] exactly [attempts_used - 1] times, where
    [attempts_used] is the number of invocations of [fn] (so at most [R]
    times), and the attempt numbers passed are 1, 2, ...,
    [attempts_used - 1] in this order. *)
Theorem observer_calls (T : Type) (JSON_parse : string -> option JsValue)
  (R d : Z) (script : Script T) :
  (0 <= R)%Z ->
  observer_follows_attempts R (fst (runWithRetry JSON_parse R d script)) /\
  observer_follows_attempts R (fst (runWithGenericRetry R d script)).
Proof.
  intros HR. rewrite runWithRetry_eq, runWithGenericRetry_eq. cbn [fst]. split.
  - exact (summary_observer (withRetry_summary JSON_parse R d script) HR).
  - exact (summary_observer (withGenericRetry_summary R d script) HR).
Qed.

Lemma observer_calls_witness :
  (0 <= 3)%Z /\
  observer_follows_attempts 3 (fst (runWithRetry sample_JSON_parse 3 2000 script_two_429_then_ok)) /\
  observer_follows_attempts 3 (fst (runWithGenericRetry 3 2000 script_two_429_then_ok)).
Proof.
  split; [lia|].
  apply (@observer_calls nat sample_JSON_parse 3 2000 script_two_429_then_ok).
  lia.
Defined.

(** C4, as stated, fails.  With [R = 1], [withRetry] on an operation
    that rejects with a non-rate-limit error makes one invocation and no
    observer call, and [withGenericRetry] on an operation that succeeds
    at once does the same, while [min(attempts_used, R)] is 1. *)
Lemma observer_calls_not_min_of_attempts :
  calls (fst (runWithRetry sample_JSON_parse 1 2000 script_always_plain)) = 1 /\
  List.length (observed (fst (runWithRetry sample_JSON_parse 1 2000 script_always_plain))) = 0 /\
  stated_observer_calls 1 (fst (runWithRetry sample_JSON_parse 1 2000 script_always_plain)) = 1%Z /\
  calls (fst (runWithGenericRetry 1 2000 script_always_ok)) = 1 /\
  List.length (observed (fst (runWithGenericRetry 1 2000 script_always_ok))) = 0 /\
  stated_observer_calls 1 (fst (runWithGenericRetry 1 2000 script_always_ok)) = 1%Z.
Proof. vm_compute. repeat split. Qed.

(** When invocation [k] of the operation rejects with [e] and the
    [catch] block takes its [else] branch, that is when [e] has been
    classified non-retryable (under [withRetry]) or the retries are
    used up ([k + 1 > R], under either helper), the helper makes no
    further invocation and throws [e] itself to its caller.  A helper
    returns a value only if its last invocation was fulfilled with that
    value: no error is turned into a result.  (Under [withRetry] this
    supposes that the classification of [e] completes, which it does
    for every value but [null] and [undefined].) *)
Theorem last_error_is_rethrown (T : Type) (JSON_parse : string -> option JsValue)
  (R d : Z) (script : Script T) (k : nat) (e : JsValue) :
  script k = Rejected e ->
  (forall b, k < calls (fst (runWithRetry JSON_parse R d script)) ->
   is429 JSON_parse e = Normal b ->
   b = false \/ (R < Z.of_nat k + 1)%Z ->
   rethrown_at k e (runWithRetry JSON_parse R d script)) /\
  (k < calls (fst (runWithGenericRetry R d script)) ->
   (R < Z.of_nat k + 1)%Z ->
   rethrown_at k e (runWithGenericRetry R d script)) /\
  result_is_from_fn script (runWithRetry JSON_parse R d script) /\
  result_is_from_fn script (runWithGenericRetry R d script).
Proof.
  intros Hs. rewrite runWithRetry_eq, runWithGenericRetry_eq. cbn [fst].
  split; [|split; [|split]].
  - intros b Hk Hb Hc.
    apply (summary_rethrow (withRetry_summary JSON_parse R d script) Hs Hk).
    destruct Hc as [->|Hc]; [left; exact Hb|].
    destruct b; [right; split; assumption|left; exact Hb].
  - intros Hk Hc.
    apply (summary_rethrow (withGenericRetry_summary R d script) Hs Hk).
    right. split; [reflexivity|exact Hc].
  - apply (summary_result_from_fn (withRetry_summary JSON_parse R d script)).
  - apply (summary_result_from_fn (withGenericRetry_summary R d script)).
Qed.

(** C5. The claim holds of [withGenericRetry], and of [withRetry] for
    every error but [null] and [undefined] (lemma
    [last_error_is_rethrown]).  On an operation that rejects with
    [null], [withRetry] does not rethrow the operation's error: with
    the bound exhausted at the first invocation ([R = 0]), and equally
    with retries left ([R = 3]), it throws the [TypeError] of reading
    [e.message], where [withGenericRetry] rethrows [null]. *)
Theorem null_rejection_is_not_rethrown :
  script_rejects_null 0 = Rejected VNull /\
  runWithRetry sample_JSON_parse 0 2000 script_rejects_null
  = ([CallFn], Thrown (TypeError_read "message")) /\
  runWithRetry sample_JSON_parse 3 2000 script_rejects_null
  = ([CallFn], Thrown (TypeError_read "message")) /\
  runWithGenericRetry 0 2000 script_rejects_null = ([CallFn], Thrown VNull).
Proof. vm_compute. repeat split. Qed.

(** The third failure of an operation that is always rate-limited, with
    two retries: the retries are used up and the error is rethrown. *)
Example rate_limit_error_rethrown_when_exhausted :
  runWithRetry sample_JSON_parse 2 2000 script_always_429
  = ([CallFn; OnRetry 1 rate_limit_error; Delay 2000;
      CallFn; OnRetry 2 rate_limit_error; Delay 2000; CallFn], Thrown rate_limit_error).
Proof. vm_compute. reflexivity. Qed.

(** C10. For every bound [R >= 0] the attempt loop of either helper is
    never left through its guard, so the [throw lastError] after the
    loop is not reached: the loop is left by the [return] of a value that
    the last invocation was fulfilled with, or by a [throw] inside the
    loop after the last invocation was rejected, and the helper
    completes accordingly. *)
Theorem trailing_throw_unreachable (T : Type) (JSON_parse : string -> option JsValue)
  (R d : Z) (script : Script T) :
  (0 <= R)%Z ->
  match snd (withRetry_run JSON_parse R d script 1 VUndefined 0) with
  | Normal (Returned v) =>
      snd (runWithRetry JSON_parse R d script) = Normal v /\
      exists k, calls (fst (runWithRetry JSON_parse R d script)) = S k /\ script k = Fulfilled v
  | Normal (FellThrough _) => False
  | Thrown x =>
      snd (runWithRetry JSON_parse R d script) = Thrown x /\
      exists k e, calls (fst (runWithRetry JSON_parse R d script)) = S k /\ script k = Rejected e
  end /\
  match snd (withGenericRetry_run R d script 1 VUndefined 0) with
  | Normal (Returned v) =>
      snd (runWithGenericRetry R d script) = Normal v /\
      exists k, calls (fst (runWithGenericRetry R d script)) = S k /\ script k = Fulfilled v
  | Normal (FellThrough _) => False
  | Thrown x =>
      snd (runWithGenericRetry R d script) = Thrown x /\
      exists k e, calls (fst (runWithGenericRetry R d script)) = S k /\ script k = Rejected e
  end.
Proof.
  intros HR. rewrite runWithRetry_eq, runWithGenericRetry_eq. cbn [fst snd]. split.
  - pose proof (summary_no_fall_through (withRetry_summary JSON_parse R d script) HR) as H.
    destruct (snd (withRetry_run JSON_parse R d script 1 VUndefined 0)) as [[v|le]|x]; cbn; auto.
  - pose proof (summary_no_fall_through (withGenericRetry_summary R d script) HR) as H.
    destruct (snd (withGenericRetry_run R d script 1 VUndefined 0)) as [[v|le]|x]; cbn; auto.
Qed.

Lemma trailing_throw_unreachable_witness :
  (0 <= 3)%Z /\
  match snd (withRetry_run sample_JSON_parse 3 2000 script_two_429_then_ok 1 VUndefined 0) with
  | Normal (Returned v) =>
      snd (runWithRetry sample_JSON_parse 3 2000 script_two_429_then_ok) = Normal v /\
      exists k, calls (fst (runWithRetry sample_JSON_parse 3 2000 script_two_429_then_ok)) = S k
                /\ script_two_429_then_ok k = Fulfilled v
  | Normal (FellThrough _) => False
  | Thrown x =>
      snd (runWithRetry sample_JSON_parse 3 2000 script_two_429_then_ok) = Thrown x /\
      exists k e, calls (fst (runWithRetry sample_JSON_parse 3 2000 script_two_429_then_ok)) = S k
                  /\ script_two_429_then_ok k = Rejected e
  end /\
  match snd (withGenericRetry_run 3 2000 script_two_429_then_ok 1 VUndefined 0) with
  | Normal (Returned v) =>
      snd (runWithGenericRetry 3 2000 script_two_429_then_ok) = Normal v /\
      exists k, calls (fst (runWithGenericRetry 3 2000 script_two_429_then_ok)) = S k
                /\ script_two_429_then_ok k = Fulfilled v
  | Normal (FellThrough _) => False
  | Thrown x =>
      snd (runWithGenericRetry 3 2000 script_two_429_then_ok) = Thrown x /\
      exists k e, calls (fst (runWithGenericRetry 3 2000 script_two_429_then_ok)) = S k
                  /\ script_two_429_then_ok k = Rejected e
  end.
Proof.
  split; [lia|].
  apply (@trailing_throw_unreachable nat sample_JSON_parse 3 2000 script_two_429_then_ok).
  lia.
Defined.


(* ===================================================================== *)
(** ** Facts about arrays and about the event loop *)
(* ===================================================================== *)

Lemma js_get_set_same {A : Type} (xs : list (option A)) (i : nat) (v : A) :
  js_get (js_set xs i v) i = Some v.
Proof.
  unfold js_get. revert xs. induction i as [|i IH]; intros [|x xs]; cbn; auto.
Qed.

Lemma js_get_set_other {A : Type} (xs : list (option A)) (i j : nat) (v : A) :
  i <> j -> js_get (js_set xs i v) j = js_get xs j.
Proof.
  unfold js_get. revert xs j.
  induction i as [|i IH]; intros [|x xs] [|j] Hne; cbn; auto; try lia;
    try (destruct j; reflexivity).
  rewrite (IH [] j) by lia. destruct j; reflexivity.
Qed.

Lemma js_set_length {A : Type} (xs : list (option A)) (i : nat) (v : A) :
  i < List.length xs -> List.length (js_set xs i v) = List.length xs.
Proof.
  revert xs. induction i as [|i IH]; intros [|x xs] Hi; cbn in *; try lia.
  rewrite IH by lia. reflexivity.
Qed.

Lemma js_get_nil {A : Type} (i : nat) : js_get (@nil (option A)) i = None.
Proof. unfold js_get. destruct i; reflexivity. Qed.

(** An array whose slots are all filled is determined by its reads. *)
Lemma js_array_ext {A : Type} (xs : list (option A)) (f : nat -> A) :
  (forall j, j < List.length xs -> js_get xs j = Some (f j)) ->
  xs = map (fun j => Some (f j)) (seq 0 (List.length xs)).
Proof.
  intros H. apply nth_error_ext. intros j.
  destruct (Nat.lt_ge_cases j (List.length xs)) as [Hlt|Hge].
  - rewrite nth_error_map, nth_error_seq.
    destruct (Nat.ltb_spec j (List.length xs)); [|lia]. cbn.
    specialize (H j Hlt). unfold js_get in H.
    destruct (nth_error xs j) as [[x|]|] eqn:E; try discriminate.
    congruence.
  - rewrite (proj2 (nth_error_None _ _)) by lia.
    symmetry. apply nth_error_None. rewrite length_map, length_seq. lia.
Qed.

Section EventLoopFacts.
Context {E : Type} {ans : E -> Type} {St J : Type}.
Variable oracle : J -> nat -> forall ev : E, ans ev.

(** A job that runs to its end without waiting does the same when
    drained. *)
Lemma drain_finished (p : Proc E ans St unit) (j : J) (n : nat) (s s' : St) :
  run_sync p s = (s', Finished) -> drain oracle p j n s = (s', None).
Proof.
  revert s. induction p as [r|e|k IH|f k IH|ev k IH]; intros s; cbn.
  - intros [= ->]. reflexivity.
  - discriminate.
  - apply IH.
  - apply IH.
  - discriminate.
Qed.
End EventLoopFacts.

(** The loop check: with the flag cleared the loop is left at once,
    with the windows run so far and the state as it is. *)
Lemma loop_breaks_when_cleared {E : Type} {ans : E -> Type} {St J U : Type}
  (job_eqb : J -> J -> bool) (handle : U -> St -> St)
  (oracle : J -> nat -> forall ev : E, ans ev)
  (isRunning : St -> bool) (concurrency : St -> nat)
  (runJob : J -> Proc E ans St unit) (jobs : list J)
  (fuel i : nat) (s : St) (ticks : list (Tick J U)) (windows : list (list J)) :
  isRunning s = false ->
  windows_loop job_eqb handle oracle isRunning concurrency runJob jobs (S fuel) i s ticks windows
  = Some (Completed s windows).
Proof.
  intros Hrun. cbn [windows_loop].
  destruct (i <? List.length jobs); [rewrite Hrun|]; reflexivity.
Qed.

(* ===================================================================== *)
(** ** One job of a pose widget *)
(* ===================================================================== *)

(** The outcome of a job as the specification names it. *)
Inductive JobOutcome : Type :=
| Succeeded (url : string)
| FailedWith (msg : JsValue).

(** [e.message] of a caught value that has members. *)
Definition message_of (e : JsValue) : JsValue :=
  match get_member e "message" with
  | Normal m => m
  | Thrown _ => VUndefined
  end.

(** What a job makes of the way its request settles. *)
Definition outcome_of (o : ApiOutcome) : JobOutcome :=
  match o with
  | ApiFulfilled resp =>
      match image_url_of resp with
      | Normal url => Succeeded url
      | Thrown e => FailedWith (message_of e)
      end
  | ApiRejected err => FailedWith (VString (error_message err))
  end.

Section PoseJob.
Import Pose.
Local Open Scope proc_scope.

(** [runJob(jobIndex)] from the moment its request settles, [result]
    being the entry read before the request was sent. *)
Definition settled_job (jobIndex : nat) (result : PoseResult) (o : ApiOutcome) : PoseProc unit :=
  try_finally
    (try_catch (genResponse <- settle_api o ;; after_generate jobIndex result genResponse)
               (catch_block jobIndex))
    finally_block.

(** The [catch] and [finally] blocks on a caught error with message [msg]. *)
Definition record_failure (jobIndex : nat) (msg : JsValue) (w : PoseWidget) : PoseWidget :=
  let w' := set_result jobIndex (error_result (js_get (results w) jobIndex) msg) w in
  if isRunning w' then count_completed w' else w'.

(** The effect on the widget of a request of job [jobIndex] settling. *)
Definition on_settle (jobIndex : nat) (result : PoseResult) (o : ApiOutcome)
  (w : PoseWidget) : PoseWidget :=
  match o with
  | ApiFulfilled resp =>
      if isRunning w then
        match image_url_of resp with
        | Normal url => count_completed (set_result jobIndex (done_result result url) w)
        | Thrown e => record_failure jobIndex (message_of e) w
        end
      else w
  | ApiRejected err => record_failure jobIndex (VString (error_message err)) w
  end.

Lemma image_url_of_thrown (resp : GenerateContentResponse) (e : JsValue) :
  image_url_of resp = Thrown e -> get_member e "message" = Normal (message_of e).
Proof.
  unfold image_url_of, find_image_part.
  destruct (candidates resp) as [cs|]; [|intros [= <-]; reflexivity].
  destruct (nth_error cs 0) as [c|]; [|intros [= <-]; reflexivity].
  destruct (content c) as [ct|]; [|intros [= <-]; reflexivity].
  destruct (parts ct) as [ps|]; [|intros [= <-]; reflexivity].
  destruct (find has_inlineData ps) as [p|]; [|intros [= <-]; reflexivity].
  destruct (inlineData p); [discriminate|intros [= <-]; reflexivity].
Qed.


Lemma run_sync_runJob_running (j : nat) (w : PoseWidget) (r : PoseResult) :
  isRunning w = true -> js_get (results w) j = Some r ->
  run_sync (runJob j) w = (w, Blocked (GenerateContent (prompt r)) (settled_job j r)).
Proof. intros H Hr. cbn. rewrite H. cbn. rewrite Hr. reflexivity. Qed.

Lemma run_sync_settled_job (j : nat) (r : PoseResult) (o : ApiOutcome) (w : PoseWidget) :
  run_sync (settled_job j r o) w = (on_settle j r o w, Finished).
Proof.
  unfold settled_job, on_settle, record_failure. destruct o as [resp|err]; cbn.
  - destruct (isRunning w) eqn:Hrun; cbn; [|rewrite Hrun; reflexivity].
    destruct (image_url_of resp) as [url|e] eqn:Hu; cbn.
    + rewrite Hrun. reflexivity.
    + unfold catch_block. rewrite (image_url_of_thrown _ Hu). cbn. rewrite Hrun. reflexivity.
  - destruct (isRunning w); reflexivity.
Qed.
(** A settling request counts as completed exactly when the run has
    not been cancelled. *)
Lemma on_settle_counts (j : nat) (r : PoseResult) (o : ApiOutcome) (w : PoseWidget) :
  completedJobs (on_settle j r o w)
  = completedJobs w + (if isRunning w then 1 else 0).
Proof.
  unfold on_settle, record_failure. destruct o as [resp|err].
  - destruct (isRunning w) eqn:Hrun; [|lia].
    destruct (image_url_of resp); cbn; [lia|]. rewrite Hrun. cbn. lia.
  - cbn. destruct (isRunning w); cbn; lia.
Qed.

(** It leaves the flag, the concurrency and the other entries alone. *)
Lemma on_settle_flag (j : nat) (r : PoseResult) (o : ApiOutcome) (w : PoseWidget) :
  isRunning (on_settle j r o w) = isRunning w.
Proof.
  unfold on_settle, record_failure. destruct o as [resp|err].
  - destruct (isRunning w) eqn:Hr; [|exact Hr].
    destruct (image_url_of resp); cbn; [exact Hr|]. rewrite Hr. exact Hr.
  - cbn. destruct (isRunning w) eqn:Hr; cbn; exact Hr.
Qed.

Lemma on_settle_concurrency (j : nat) (r : PoseResult) (o : ApiOutcome) (w : PoseWidget) :
  concurrency (on_settle j r o w) = concurrency w.
Proof.
  unfold on_settle, record_failure. destruct o as [resp|err].
  - destruct (isRunning w) eqn:Hr; [|reflexivity].
    destruct (image_url_of resp); cbn; [reflexivity|]. rewrite Hr. reflexivity.
  - cbn. destruct (isRunning w); reflexivity.
Qed.

Lemma on_settle_other (j i : nat) (r : PoseResult) (o : ApiOutcome) (w : PoseWidget) :
  i <> j -> js_get (results (on_settle j r o w)) i = js_get (results w) i.
Proof.
  intros Hne. unfold on_settle, record_failure. destruct o as [resp|err].
  - destruct (isRunning w) eqn:Hr; [|reflexivity].
    destruct (image_url_of resp); cbn; [apply js_get_set_other; auto|].
    rewrite Hr. cbn. apply js_get_set_other. auto.
  - cbn. destruct (isRunning w); cbn; apply js_get_set_other; auto.
Qed.
End PoseJob.

(* ===================================================================== *)
(** ** A window of a pose widget *)
(* ===================================================================== *)

Definition no_user_event {J U : Type} (t : Tick J U) : Prop :=
  match t with
  | Resume _ => True
  | User _ => False
  end.

(** A turn other than a second click on the generate button. *)
Definition no_restart (t : Tick nat Pose.UserEvent) : Prop :=
  match t with
  | User Pose.ClickGenerate => False
  | _ => True
  end.

Lemma no_user_event_no_restart (ticks : list (Tick nat Pose.UserEvent)) :
  Forall no_user_event ticks -> Forall no_restart ticks.
Proof.
  intros H. eapply Forall_impl; [|exact H]. intros [j|u]; [intros _; exact I|intros []].
Qed.

Section PoseWindow.
Import Pose.
Variable POSES : list string.
Variable oracle : Oracle.
Variable C : nat.

Definition pose (j : nat) : string := nth j POSES EmptyString.

(** The request of job [j] and how it settles. *)
Definition request (j : nat) : PoseE := GenerateContent (VString (pose j)).
Definition reply (j : nat) : ApiOutcome := oracle j 0 (request j).

Definition pose_task (j : nat) : Task PoseE pose_ans PoseWidget nat :=
  {| task_job := j; task_awaits := 0; task_ev := request j;
     task_k := settled_job j (pending_result (pose j)) |}.

(** The entry job [j] leaves when its request settles during the run. *)
Definition expected (j : nat) : PoseResult :=
  match outcome_of (reply j) with
  | Succeeded url => done_result (pending_result (pose j)) url
  | FailedWith msg => error_result (Some (pending_result (pose j))) msg
  end.

(** The entry job [j] leaves when its request is rejected after the
    array was emptied. *)
Definition detached (j : nat) (r : PoseResult) : Prop :=
  exists err, reply j = ApiRejected err /\ r = error_result None (VString (error_message err)).

Definition in_flight (pool : list (Task PoseE pose_ans PoseWidget nat)) (j : nat) : Prop :=
  In j (map (@task_job _ _ _ _) pool).

(** The widget while the jobs below [hi] have been started and those of
    [pool] still wait for their request. *)
Record WindowInv (hi : nat) (pool : list (Task PoseE pose_ans PoseWidget nat))
  (w : PoseWidget) : Prop := {
  wi_conc : concurrency w = C;
  wi_tasks : forall t, In t pool ->
     t = pose_task (task_job t) /\ task_job t < hi /\ task_job t < List.length POSES;
  wi_nodup : NoDup (map (@task_job _ _ _ _) pool);
  wi_running : isRunning w = true ->
     List.length (results w) = List.length POSES /\
     forall j, j < List.length POSES ->
       (hi <= j \/ in_flight pool j -> js_get (results w) j = Some (pending_result (pose j))) /\
       (j < hi -> ~ in_flight pool j -> js_get (results w) j = Some (expected j));
  wi_stopped : isRunning w = false ->
     forall j, (hi <= j \/ in_flight pool j -> js_get (results w) j = None) /\
               (forall r, js_get (results w) j = Some r ->
                  detached j r /\ j < List.length POSES)
}.

Lemma on_settle_running (j : nat) (w : PoseWidget) :
  isRunning w = true ->
  js_get (results w) j = Some (pending_result (pose j)) ->
  on_settle j (pending_result (pose j)) (reply j) w
  = count_completed (set_result j (expected j) w).
Proof.
  intros Hrun Hget. unfold on_settle, expected, outcome_of, record_failure.
  destruct (reply j) as [resp|err]; cbn; rewrite Hrun.
  - destruct (image_url_of resp); [reflexivity|]. rewrite Hget. reflexivity.
  - rewrite Hget. reflexivity.
Qed.

Lemma on_settle_stopped (j : nat) (w : PoseWidget) :
  isRunning w = false ->
  js_get (results w) j = None ->
  on_settle j (pending_result (pose j)) (reply j) w = w \/
  exists r, detached j r /\ on_settle j (pending_result (pose j)) (reply j) w = set_result j r w.
Proof.
  intros Hrun Hget. unfold on_settle, record_failure, detached.
  destruct (reply j) as [resp|err]; cbn; rewrite Hrun; [left; reflexivity|].
  right. rewrite Hget. eexists. split; [|reflexivity]. eauto.
Qed.

(** A settled job leaves the pool and the invariant holds again. *)
Lemma settle_keeps_inv (hi j : nat) (pool pool' : list (Task PoseE pose_ans PoseWidget nat))
  (w : PoseWidget) :
  WindowInv hi pool w ->
  in_flight pool j ->
  (forall t, In t pool' <-> In t pool /\ task_job t <> j) ->
  NoDup (map (@task_job _ _ _ _) pool') ->
  WindowInv hi pool' (on_settle j (pending_result (pose j)) (reply j) w) /\
  isRunning (on_settle j (pending_result (pose j)) (reply j) w) = isRunning w.
Proof.
  intros Inv Hj Hpool Hnd.
  assert (Hfl : forall i, in_flight pool' i <-> in_flight pool i /\ i <> j).
  { intros i. unfold in_flight. rewrite !in_map_iff. split.
    - intros (t & <- & Ht). apply Hpool in Ht. destruct Ht. split; eauto.
    - intros ((t & <- & Ht) & Hne). exists t. split; [reflexivity|]. apply Hpool. auto. }
  assert (HjL : j < hi /\ j < List.length POSES).
  { unfold in_flight in Hj. apply in_map_iff in Hj. destruct Hj as (t & <- & Ht).
    apply (wi_tasks Inv) in Ht. tauto. }
  destruct (isRunning w) eqn:Hrun.
  - destruct (wi_running Inv Hrun) as [Hlen Hent].
    rewrite on_settle_running; auto; [|apply Hent; tauto].
    split; [|exact Hrun]. constructor; cbn.
    + apply (wi_conc Inv).
    + intros t Ht. apply Hpool in Ht. apply (wi_tasks Inv). tauto.
    + exact Hnd.
    + intros _. split; [rewrite js_set_length; lia|].
      intros i Hi. destruct (Nat.eq_dec j i) as [<-|Hne].
      * rewrite js_get_set_same. split; [|reflexivity].
        intros [H|H]; [lia|]. apply Hfl in H. tauto.
      * rewrite js_get_set_other by exact Hne. destruct (Hent i Hi) as [H1 H2]. split.
        -- intros [H|H]; [auto|]. apply Hfl in H. tauto.
        -- intros H3 H4. apply H2; [exact H3|]. intros H5. apply H4, Hfl. split; auto.
    + rewrite Hrun. discriminate.
  - pose proof (wi_stopped Inv Hrun) as Hent.
    assert (Hnone : js_get (results w) j = None) by (apply Hent; tauto).
    destruct (on_settle_stopped j w Hrun Hnone) as [->|(r & Hr & ->)].
    + split; [|exact Hrun]. constructor; auto.
      * apply (wi_conc Inv).
      * intros t Ht. apply Hpool in Ht. apply (wi_tasks Inv). tauto.
      * rewrite Hrun. discriminate.
      * intros _ i. destruct (Hent i) as [H1 H2]. split; [|exact H2].
        intros [H|H]; [auto|]. apply Hfl in H. tauto.
    + cbn. split; [|exact Hrun]. constructor; cbn.
      * apply (wi_conc Inv).
      * intros t Ht. apply Hpool in Ht. apply (wi_tasks Inv). tauto.
      * exact Hnd.
      * rewrite Hrun. discriminate.
      * intros _ i. destruct (Hent i) as [H1 H2].
        destruct (Nat.eq_dec j i) as [<-|Hne].
        -- rewrite js_get_set_same. split.
           ++ intros [H|H]; [lia|]. apply Hfl in H. tauto.
           ++ intros r' [= <-]. split; [exact Hr|lia].
        -- rewrite js_get_set_other by exact Hne. split; [|exact H2].
           intros [H|H]; [auto|]. apply Hfl in H. tauto.
Qed.
Lemma step_job_in_flight (j : nat) (pool : list (Task PoseE pose_ans PoseWidget nat))
  (w : PoseWidget) :
  (forall t, In t pool -> t = pose_task (task_job t)) ->
  NoDup (map (@task_job _ _ _ _) pool) ->
  in_flight pool j ->
  exists pool',
    step_job Nat.eqb oracle j pool w
    = (on_settle j (pending_result (pose j)) (reply j) w, pool', None) /\
    (forall t, In t pool' <-> In t pool /\ task_job t <> j) /\
    NoDup (map (@task_job _ _ _ _) pool').
Proof.
  induction pool as [|t rest IH]; intros Htasks Hnd Hj; [destruct Hj|].
  cbn [step_job]. cbn in Hnd. apply NoDup_cons_iff in Hnd. destruct Hnd as [Hnotin Hnd].
  destruct (Nat.eqb_spec (task_job t) j) as [Heq|Hne].
  - exists rest.
    assert (Hres : resume oracle t w
                   = (on_settle j (pending_result (pose j)) (reply j) w, Finished)).
    { unfold resume. rewrite (Htasks t (or_introl eq_refl)), Heq. cbn.
      apply run_sync_settled_job. }
    rewrite Hres.
    split; [reflexivity|]. split; [|exact Hnd].
    intros t0. split.
    + intros H. split; [right; exact H|].
      intros E. apply Hnotin. rewrite Heq, <- E. apply in_map. exact H.
    + intros [[<-|H] Hne]; [congruence|exact H].
  - destruct IH as (pool' & Hstep & Hin & Hnd').
    + intros t' Ht'. apply Htasks. right. exact Ht'.
    + exact Hnd.
    + destruct Hj as [Hj|Hj]; [congruence|exact Hj].
    + rewrite Hstep. exists (t :: pool'). split; [reflexivity|]. split.
      * intros t0. split.
        -- intros [<-|H]; [split; [left; reflexivity|exact Hne]|].
           apply Hin in H. split; [right; tauto|tauto].
        -- intros [[<-|H] Hne']; [left; reflexivity|right; apply Hin; auto].
      * cbn. apply NoDup_cons; [|exact Hnd'].
        rewrite in_map_iff. intros (t' & Ht' & Hin'). apply Hin in Hin'.
        apply Hnotin. rewrite <- Ht'. apply in_map. tauto.
Qed.

Lemma step_job_not_in_flight (j : nat) (pool : list (Task PoseE pose_ans PoseWidget nat))
  (w : PoseWidget) :
  ~ in_flight pool j -> step_job Nat.eqb oracle j pool w = (w, pool, None).
Proof.
  induction pool as [|t rest IH]; intros Hj; [reflexivity|].
  cbn [step_job]. destruct (Nat.eqb_spec (task_job t) j) as [Heq|Hne].
  - exfalso. apply Hj. left. exact Heq.
  - rewrite IH; [reflexivity|]. intros H. apply Hj. right. exact H.
Qed.

Lemma drain_pool_settles (hi : nat) (pool : list (Task PoseE pose_ans PoseWidget nat))
  (w : PoseWidget) :
  WindowInv hi pool w ->
  exists w', drain_pool (U := UserEvent) oracle pool w = AllSettled w' [] /\
             WindowInv hi [] w' /\ isRunning w' = isRunning w.
Proof.
  revert w. induction pool as [|t rest IH]; intros w Inv.
  - exists w. auto.
  - cbn [drain_pool].
    destruct (wi_tasks Inv t (or_introl eq_refl)) as (Ht & _).
    assert (Hd : drain oracle (task_k t (oracle (task_job t) (task_awaits t) (task_ev t)))
                   (task_job t) (S (task_awaits t)) w
                 = (on_settle (task_job t) (pending_result (pose (task_job t)))
                      (reply (task_job t)) w, None)).
    { apply drain_finished. rewrite Ht. cbn. apply run_sync_settled_job. }
    rewrite Hd.
    pose proof (wi_nodup Inv) as Hnd. cbn in Hnd. apply NoDup_cons_iff in Hnd.
    destruct Hnd as [Hnotin Hnd].
    destruct (@settle_keeps_inv hi (task_job t) (t :: rest) rest w Inv) as [Inv' Hrun'].
    + left. reflexivity.
    + intros t'. split.
      * intros H. split; [right; exact H|]. intros E. apply Hnotin. rewrite <- E.
        apply in_map. exact H.
      * intros [[<-|H] Hne]; [exfalso; apply Hne; reflexivity|exact H].
    + exact Hnd.
    + destruct (IH _ Inv') as (w' & Hw' & Inv'' & Hrun'').
      exists w'. split; [exact Hw'|]. split; [exact Inv''|congruence].
Qed.

Lemma reset_keeps_inv (hi : nat) (pool : list (Task PoseE pose_ans PoseWidget nat))
  (w : PoseWidget) :
  WindowInv hi pool w -> WindowInv hi pool (reset w).
Proof.
  intros Inv. constructor; cbn.
  - apply (wi_conc Inv).
  - apply (wi_tasks Inv).
  - apply (wi_nodup Inv).
  - discriminate.
  - intros _ j. rewrite js_get_nil. split; [reflexivity|discriminate].
Qed.

Lemma in_flight_dec (pool : list (Task PoseE pose_ans PoseWidget nat)) (j : nat) :
  {in_flight pool j} + {~ in_flight pool j}.
Proof. apply in_dec, Nat.eq_dec. Qed.

(** Awaiting a window ends with every job settled. *)
Lemma settle_window_settles (hi : nat) (ticks : list (Tick nat UserEvent)) :
  forall (pool : list (Task PoseE pose_ans PoseWidget nat)) (w : PoseWidget),
  Forall no_restart ticks ->
  WindowInv hi pool w ->
  exists w' rest,
    settle_window Nat.eqb (handle POSES) oracle ticks pool w = AllSettled w' rest /\
    WindowInv hi [] w' /\
    Forall no_restart rest /\
    (Forall no_user_event ticks -> isRunning w' = isRunning w /\ Forall no_user_event rest).
Proof.
  induction ticks as [|tick ticks IH]; intros pool w Hnr Inv.
  - destruct pool as [|t rest].
    + exists w, []. cbn. auto.
    + destruct (drain_pool_settles Inv) as (w' & Hw' & Inv' & Hrun).
      exists w', []. cbn [settle_window]. auto.
  - destruct pool as [|t rest] eqn:Hpool.
    + exists w, (tick :: ticks). cbn. auto.
    + rewrite <- Hpool in *.
      assert (Hsw : forall tk, settle_window Nat.eqb (handle POSES) oracle (tk :: ticks) pool w =
                match tk with
                | User u => settle_window Nat.eqb (handle POSES) oracle ticks pool (handle POSES u w)
                | Resume j =>
                    match step_job Nat.eqb oracle j pool w with
                    | (s', pool', None) => settle_window Nat.eqb (handle POSES) oracle ticks pool' s'
                    | (s', _, Some e) => Rejection e s' ticks
                    end
                end).
      { intros tk. rewrite Hpool. reflexivity. }
      rewrite Hsw. clear Hsw.
      pose proof (Forall_inv Hnr) as Hnr1. apply Forall_inv_tail in Hnr.
      destruct tick as [j|u].
      * destruct (in_flight_dec pool j) as [Hj|Hj].
        -- destruct (@step_job_in_flight j pool w
                       (fun t Ht => proj1 (wi_tasks Inv t Ht)) (wi_nodup Inv) Hj)
             as (pool' & Hstep & Hin & Hnd).
           rewrite Hstep.
           destruct (@settle_keeps_inv hi j pool pool' w Inv Hj Hin Hnd) as [Inv' Hrun'].
           destruct (IH _ _ Hnr Inv') as (w' & rest' & Hw' & Inv'' & Hnr' & Hno).
           exists w', rest'. split; [exact Hw'|]. split; [exact Inv''|]. split; [exact Hnr'|].
           intros Hall. apply Forall_inv_tail in Hall. destruct (Hno Hall). split; congruence.
        -- rewrite step_job_not_in_flight by exact Hj.
           destruct (IH _ _ Hnr Inv) as (w' & rest' & Hw' & Inv'' & Hnr' & Hno).
           exists w', rest'. split; [exact Hw'|]. split; [exact Inv''|]. split; [exact Hnr'|].
           intros Hall. apply Forall_inv_tail in Hall. auto.
      * destruct u; [|destruct Hnr1]. cbn [handle].
        destruct (IH _ _ Hnr (reset_keeps_inv Inv)) as (w' & rest' & Hw' & Inv'' & Hnr' & Hno).
        exists w', rest'. split; [exact Hw'|]. split; [exact Inv''|]. split; [exact Hnr'|].
        intros Hall. apply Forall_inv in Hall. destruct Hall.
Qed.
(** The jobs of a run: the indices of the poses. *)
Definition jobs : list nat := seq 0 (List.length POSES).

Lemma firstn_of_seq (n start len : nat) :
  firstn n (seq start len) = seq start (Nat.min n len).
Proof.
  revert start len. induction n as [|n IH]; intros start [|len]; cbn; try reflexivity.
  rewrite IH. reflexivity.
Qed.

Lemma slice_jobs (i : nat) :
  slice i (i + C) jobs = seq i (Nat.min C (List.length POSES - i)).
Proof.
  unfold slice, jobs. replace (i + C - i) with C by lia.
  rewrite skipn_seq, firstn_of_seq. reflexivity.
Qed.

Lemma start_all_running (chunk : list nat) (w : PoseWidget) :
  isRunning w = true ->
  (forall j, In j chunk -> js_get (results w) j = Some (pending_result (pose j))) ->
  start_all runJob chunk w = (w, map pose_task chunk, None).
Proof.
  intros Hrun. induction chunk as [|j chunk IH]; intros Hent; [reflexivity|].
  cbn [start_all map].
  rewrite (run_sync_runJob_running j w Hrun (Hent j (or_introl eq_refl))).
  rewrite IH by (intros j' Hj'; apply Hent; right; exact Hj').
  reflexivity.
Qed.

Lemma in_flight_map_pose_task (chunk : list nat) (j : nat) :
  in_flight (map pose_task chunk) j <-> In j chunk.
Proof. unfold in_flight. rewrite map_map. cbn. rewrite map_id. reflexivity. Qed.

(** One iteration of the loop that finds the flag set: the window is
    started and awaited, and every job of it settles. *)
Lemma window_settles (i : nat) (w : PoseWidget) (ticks : list (Tick nat UserEvent)) :
  Forall no_restart ticks ->
  WindowInv i [] w -> isRunning w = true ->
  exists w' rest,
    promise_all Nat.eqb (handle POSES) oracle runJob (slice i (i + C) jobs) w ticks
    = AllSettled w' rest /\
    WindowInv (i + C) [] w' /\
    Forall no_restart rest /\
    (Forall no_user_event ticks -> isRunning w' = true /\ Forall no_user_event rest).
Proof.
  intros Hnr Inv Hrun. unfold promise_all. rewrite slice_jobs.
  set (chunk := seq i (Nat.min C (List.length POSES - i))).
  destruct (wi_running Inv Hrun) as [Hlen Hent].
  assert (Hchunk : forall j, In j chunk <-> i <= j /\ j < i + C /\ j < List.length POSES).
  { intros j. unfold chunk. rewrite in_seq. lia. }
  rewrite start_all_running; [|exact Hrun|].
  2:{ intros j Hj. apply Hchunk in Hj. apply Hent; [lia|]. left. lia. }
  assert (Inv' : WindowInv (i + C) (map pose_task chunk) w).
  { constructor.
    - apply (wi_conc Inv).
    - intros t Ht. apply in_map_iff in Ht. destruct Ht as (j & <- & Hj).
      apply Hchunk in Hj. cbn. split; [reflexivity|lia].
    - rewrite map_map. cbn. rewrite map_id. apply seq_NoDup.
    - intros _. split; [exact Hlen|]. intros j Hj. destruct (Hent j Hj) as [H1 H2]. split.
      + intros [H|H]; [apply H1; left; lia|].
        apply in_flight_map_pose_task, Hchunk in H. apply H1. left. lia.
      + intros H3 H4. apply H2; [|intros H; destruct H].
        destruct (Nat.lt_ge_cases j i) as [Hlt|Hge]; [exact Hlt|].
        exfalso. apply H4, in_flight_map_pose_task, Hchunk. lia.
    - rewrite Hrun. discriminate. }
  destruct (settle_window_settles Hnr Inv') as (w' & rest & Hw' & Inv'' & Hnr' & Hno).
  exists w', rest. split; [exact Hw'|]. split; [exact Inv''|]. split; [exact Hnr'|].
  intros Hall. destruct (Hno Hall). split; congruence.
Qed.

(** The windows run by [n] iterations started at index [i]. *)
Definition windows_from (i n : nat) : list (list nat) :=
  map (fun k => slice (i + k * C) (i + k * C + C) jobs) (seq 0 n).

Lemma windows_from_S (i n : nat) :
  windows_from i (S n) = slice i (i + C) jobs :: windows_from (i + C) n.
Proof.
  unfold windows_from. cbn [seq map]. f_equal.
  - f_equal; lia.
  - rewrite <- seq_shift, map_map. apply map_ext. intros k.
    f_equal; lia.
Qed.

(** The loop from index [i] on: it ends, having run [n] windows. *)
Lemma windows_loop_ends (fuel : nat) :
  forall (i : nat) (w : PoseWidget) (ticks : list (Tick nat UserEvent)) (windows : list (list nat)),
  1 <= C -> 0 < fuel -> List.length POSES < i + fuel ->
  Forall no_restart ticks ->
  WindowInv i [] w ->
  exists w' n,
    windows_loop Nat.eqb (handle POSES) oracle isRunning concurrency runJob jobs fuel i w ticks windows
    = Some (Completed w' (windows ++ windows_from i n)) /\
    WindowInv (i + n * C) [] w' /\
    (isRunning w' = true -> List.length POSES <= i + n * C) /\
    (0 < n -> i + (n - 1) * C < List.length POSES) /\
    (Forall no_user_event ticks -> isRunning w = true -> isRunning w' = true) /\
    (isRunning w = false -> n = 0 /\ w' = w).
Proof.
  induction fuel as [|fuel IH]; intros i w ticks windows HC Hpos Hfuel Hnr Inv; [lia|].
  cbn [windows_loop]. unfold jobs at 1. rewrite length_seq.
  destruct (Nat.ltb_spec i (List.length POSES)) as [Hlt|Hge].
  - destruct (isRunning w) eqn:Hrun; cbn [negb].
    + rewrite (wi_conc Inv).
      destruct (window_settles Hnr Inv Hrun) as (w1 & rest & Hw & Inv1 & Hnr1 & Hno).
      fold jobs. rewrite Hw.
      assert (Hfuel' : List.length POSES < i + C + fuel) by lia.
      assert (Hpos' : 0 < fuel) by lia.
      destruct (IH (i + C) w1 rest (windows ++ [slice i (i + C) jobs]) HC Hpos' Hfuel' Hnr1 Inv1)
        as (w' & n & Hloop & Inv' & Hend & Hlast & Hkeep & Hstop).
      exists w', (S n). rewrite Hloop, windows_from_S, <- app_assoc. cbn [app].
      split; [reflexivity|].
      replace (i + S n * C) with (i + C + n * C) by lia.
      split; [exact Inv'|]. split; [exact Hend|]. split.
      * intros _. destruct n as [|n]; [cbn; lia|].
        replace (S (S n) - 1) with (S n) by lia.
        specialize (Hlast ltac:(lia)). replace (S n - 1) with n in Hlast by lia.
        cbn [Nat.mul]. lia.
      * split; [|discriminate].
        intros Hall _. apply Hkeep; [apply Hno; exact Hall|apply Hno; exact Hall].
    + exists w, 0. unfold windows_from. cbn [seq map]. rewrite app_nil_r.
      split; [reflexivity|]. rewrite Nat.add_0_r.
      split; [exact Inv|]. split; [congruence|]. split; [lia|]. split; [congruence|auto].
  - exists w, 0. unfold windows_from. cbn [seq map]. rewrite app_nil_r.
    split; [reflexivity|]. rewrite Nat.add_0_r.
    split; [exact Inv|]. split; [lia|]. split; [lia|]. auto.
Qed.
Lemma step_job_pool_length (j : nat) (pool : list (Task PoseE pose_ans PoseWidget nat))
  (w : PoseWidget) :
  (forall t, In t pool -> t = pose_task (task_job t)) ->
  in_flight pool j ->
  S (List.length (snd (fst (step_job Nat.eqb oracle j pool w)))) = List.length pool.
Proof.
  induction pool as [|t rest IH]; intros Htasks Hj; [destruct Hj|].
  cbn [step_job]. destruct (Nat.eqb_spec (task_job t) j) as [Heq|Hne].
  - assert (Hres : resume oracle t w
                   = (on_settle j (pending_result (pose j)) (reply j) w, Finished)).
    { unfold resume. rewrite (Htasks t (or_introl eq_refl)), Heq. cbn.
      apply run_sync_settled_job. }
    rewrite Hres. reflexivity.
  - assert (Hrest : S (List.length (snd (fst (step_job Nat.eqb oracle j rest w)))) = List.length rest).
    { apply IH.
      - intros t' Ht'. apply Htasks. right. exact Ht'.
      - destruct Hj as [Hj|Hj]; [congruence|exact Hj]. }
    destruct (step_job Nat.eqb oracle j rest w) as [[s' pool''] rejected].
    cbn [fst snd List.length] in *. lia.
Qed.

(** What holds of the widget under every schedule, a second click on
    the generate button included: the jobs that wait were started by
    this run, the entries of the jobs not started yet are pending while
    the flag is set, and the counter counts started jobs that no
    longer wait. *)
Record RunInv (hi : nat) (pool : list (Task PoseE pose_ans PoseWidget nat))
  (w : PoseWidget) : Prop := {
  ri_conc : concurrency w = C;
  ri_tasks : forall t, In t pool ->
     t = pose_task (task_job t) /\ task_job t < hi /\ task_job t < List.length POSES;
  ri_nodup : NoDup (map (@task_job _ _ _ _) pool);
  ri_pending : isRunning w = true ->
     forall j, hi <= j -> j < List.length POSES ->
     js_get (results w) j = Some (pending_result (pose j));
  ri_count : completedJobs w + List.length pool <= Nat.min hi (List.length POSES)
}.

Lemma js_get_pending_array (j : nat) :
  j < List.length POSES ->
  js_get (map (fun p => Some (pending_result p)) POSES) j = Some (pending_result (pose j)).
Proof.
  intros Hj. unfold js_get, pose. rewrite nth_error_map.
  rewrite (nth_error_nth' POSES EmptyString Hj). reflexivity.
Qed.

Lemma settle_keeps_run (hi j : nat) (pool pool' : list (Task PoseE pose_ans PoseWidget nat))
  (w : PoseWidget) :
  RunInv hi pool w ->
  in_flight pool j ->
  (forall t, In t pool' <-> In t pool /\ task_job t <> j) ->
  NoDup (map (@task_job _ _ _ _) pool') ->
  S (List.length pool') = List.length pool ->
  RunInv hi pool' (on_settle j (pending_result (pose j)) (reply j) w).
Proof.
  intros Inv Hj Hpool Hnd Hlen.
  assert (HjL : j < hi).
  { unfold in_flight in Hj. apply in_map_iff in Hj. destruct Hj as (t & <- & Ht).
    apply (ri_tasks Inv) in Ht. tauto. }
  constructor.
  - rewrite on_settle_concurrency. apply (ri_conc Inv).
  - intros t Ht. apply Hpool in Ht. apply (ri_tasks Inv). tauto.
  - exact Hnd.
  - rewrite on_settle_flag. intros Hrun i Hi HiL.
    rewrite on_settle_other by lia. apply (ri_pending Inv Hrun); assumption.
  - rewrite on_settle_counts. pose proof (ri_count Inv). destruct (isRunning w); lia.
Qed.

Lemma handle_keeps_run (hi : nat) (pool : list (Task PoseE pose_ans PoseWidget nat))
  (u : UserEvent) (w : PoseWidget) :
  RunInv hi pool w -> RunInv hi pool (handle POSES u w).
Proof.
  intros Inv. destruct u; cbn [handle].
  - constructor; cbn.
    + apply (ri_conc Inv).
    + apply (ri_tasks Inv).
    + apply (ri_nodup Inv).
    + discriminate.
    + apply (ri_count Inv).
  - unfold restart. destruct (isRunning w) eqn:Hrun; [exact Inv|].
    constructor; cbn.
    + apply (ri_conc Inv).
    + apply (ri_tasks Inv).
    + apply (ri_nodup Inv).
    + intros _ j _ Hj. apply js_get_pending_array. exact Hj.
    + apply (ri_count Inv).
Qed.

Lemma drain_pool_run (hi : nat) (pool : list (Task PoseE pose_ans PoseWidget nat))
  (w : PoseWidget) :
  RunInv hi pool w ->
  exists w', drain_pool (U := UserEvent) oracle pool w = AllSettled w' [] /\ RunInv hi [] w'.
Proof.
  revert w. induction pool as [|t rest IH]; intros w Inv.
  - exists w. auto.
  - cbn [drain_pool].
    destruct (ri_tasks Inv t (or_introl eq_refl)) as (Ht & _).
    assert (Hd : drain oracle (task_k t (oracle (task_job t) (task_awaits t) (task_ev t)))
                   (task_job t) (S (task_awaits t)) w
                 = (on_settle (task_job t) (pending_result (pose (task_job t)))
                      (reply (task_job t)) w, None)).
    { apply drain_finished. rewrite Ht. cbn. apply run_sync_settled_job. }
    rewrite Hd.
    pose proof (ri_nodup Inv) as Hnd. cbn in Hnd. apply NoDup_cons_iff in Hnd.
    destruct Hnd as [Hnotin Hnd].
    apply IH. apply (@settle_keeps_run hi (task_job t) (t :: rest) rest w Inv).
    + left. reflexivity.
    + intros t'. split.
      * intros H. split; [right; exact H|]. intros E. apply Hnotin. rewrite <- E.
        apply in_map. exact H.
      * intros [[<-|H] Hne]; [exfalso; apply Hne; reflexivity|exact H].
    + exact Hnd.
    + reflexivity.
Qed.

(** Awaiting a window ends with every job settled, whatever the user
    does meanwhile. *)
Lemma settle_window_run (hi : nat) (ticks : list (Tick nat UserEvent)) :
  forall (pool : list (Task PoseE pose_ans PoseWidget nat)) (w : PoseWidget),
  RunInv hi pool w ->
  exists w' rest,
    settle_window Nat.eqb (handle POSES) oracle ticks pool w = AllSettled w' rest /\
    RunInv hi [] w'.
Proof.
  induction ticks as [|tick ticks IH]; intros pool w Inv.
  - destruct pool as [|t rest].
    + exists w, []. cbn. auto.
    + destruct (drain_pool_run Inv) as (w' & Hw' & Inv').
      exists w', []. cbn [settle_window]. auto.
  - destruct pool as [|t rest] eqn:Hpool.
    + exists w, (tick :: ticks). cbn. auto.
    + rewrite <- Hpool in *.
      assert (Hsw : forall tk, settle_window Nat.eqb (handle POSES) oracle (tk :: ticks) pool w =
                match tk with
                | User u => settle_window Nat.eqb (handle POSES) oracle ticks pool (handle POSES u w)
                | Resume j =>
                    match step_job Nat.eqb oracle j pool w with
                    | (s', pool', None) => settle_window Nat.eqb (handle POSES) oracle ticks pool' s'
                    | (s', _, Some e) => Rejection e s' ticks
                    end
                end).
      { intros tk. rewrite Hpool. reflexivity. }
      rewrite Hsw. clear Hsw. destruct tick as [j|u].
      * destruct (in_flight_dec pool j) as [Hj|Hj].
        -- pose proof (@step_job_pool_length j pool w
                         (fun t Ht => proj1 (ri_tasks Inv t Ht)) Hj) as Hlen.
           destruct (@step_job_in_flight j pool w
                       (fun t Ht => proj1 (ri_tasks Inv t Ht)) (ri_nodup Inv) Hj)
             as (pool' & Hstep & Hin & Hnd).
           rewrite Hstep in *. cbn [fst snd] in Hlen.
           exact (IH _ _ (@settle_keeps_run hi j pool pool' w Inv Hj Hin Hnd Hlen)).
        -- rewrite step_job_not_in_flight by exact Hj.
           exact (IH _ _ Inv).
      * exact (IH _ _ (handle_keeps_run u Inv)).
Qed.

Lemma window_run (i : nat) (w : PoseWidget) (ticks : list (Tick nat UserEvent)) :
  RunInv i [] w -> isRunning w = true -> i < List.length POSES ->
  exists w' rest,
    promise_all Nat.eqb (handle POSES) oracle runJob (slice i (i + C) jobs) w ticks
    = AllSettled w' rest /\
    RunInv (i + C) [] w'.
Proof.
  intros Inv Hrun Hi. unfold promise_all. rewrite slice_jobs.
  set (chunk := seq i (Nat.min C (List.length POSES - i))).
  assert (Hchunk : forall j, In j chunk <-> i <= j /\ j < i + C /\ j < List.length POSES).
  { intros j. unfold chunk. rewrite in_seq. lia. }
  rewrite start_all_running; [|exact Hrun|].
  2:{ intros j Hj. apply Hchunk in Hj. apply (ri_pending Inv Hrun); lia. }
  apply settle_window_run. constructor.
  - apply (ri_conc Inv).
  - intros t Ht. apply in_map_iff in Ht. destruct Ht as (j & <- & Hj).
    apply Hchunk in Hj. cbn. split; [reflexivity|lia].
  - rewrite map_map. cbn. rewrite map_id. apply seq_NoDup.
  - intros _ j Hj HjL. apply (ri_pending Inv Hrun); lia.
  - pose proof (ri_count Inv) as Hc. cbn [List.length] in Hc.
    rewrite length_map. unfold chunk. rewrite length_seq. lia.
Qed.

(** The loop from index [i] on always ends, having run [n] windows. *)
Lemma windows_loop_run (fuel : nat) :
  forall (i : nat) (w : PoseWidget) (ticks : list (Tick nat UserEvent)) (windows : list (list nat)),
  1 <= C -> 0 < fuel -> List.length POSES < i + fuel ->
  RunInv i [] w ->
  exists w' n,
    windows_loop Nat.eqb (handle POSES) oracle isRunning concurrency runJob jobs fuel i w ticks windows
    = Some (Completed w' (windows ++ windows_from i n)) /\
    completedJobs w' <= List.length POSES.
Proof.
  induction fuel as [|fuel IH]; intros i w ticks windows HC Hpos Hfuel Inv; [lia|].
  cbn [windows_loop]. unfold jobs at 1. rewrite length_seq.
  assert (Hstop : exists w' n,
            Some (Completed (J := nat) w windows)
            = Some (Completed w' (windows ++ windows_from i n)) /\
            completedJobs w' <= List.length POSES).
  { exists w, 0. unfold windows_from. cbn [seq map]. rewrite app_nil_r.
    split; [reflexivity|]. pose proof (ri_count Inv). lia. }
  destruct (Nat.ltb_spec i (List.length POSES)) as [Hlt|Hge]; [|exact Hstop].
  destruct (isRunning w) eqn:Hrun; cbn [negb]; [|exact Hstop].
  rewrite (ri_conc Inv).
  destruct (window_run ticks Inv Hrun Hlt) as (w1 & rest & Hw & Inv1).
  fold jobs. rewrite Hw.
  assert (Hfuel' : List.length POSES < i + C + fuel) by lia.
  assert (Hpos' : 0 < fuel) by lia.
  destruct (IH (i + C) w1 rest (windows ++ [slice i (i + C) jobs]) HC Hpos' Hfuel' Inv1)
    as (w' & n & Hloop & Hle).
  exists w', (S n). rewrite Hloop, windows_from_S, <- app_assoc. cbn [app].
  split; [reflexivity|exact Hle].
Qed.
Lemma concat_windows_from (n i : nat) :
  List.concat (windows_from i n) = seq i (Nat.min (n * C) (List.length POSES - i)).
Proof.
  revert i. induction n as [|n IH]; intros i; [reflexivity|].
  rewrite windows_from_S. cbn [List.concat]. rewrite IH, slice_jobs.
  destruct (Nat.le_gt_cases C (List.length POSES - i)) as [Hle|Hgt].
  - rewrite (Nat.min_l C) by exact Hle. rewrite <- seq_app. f_equal.
    cbn [Nat.mul]. lia.
  - rewrite (Nat.min_r C) by lia.
    replace (Nat.min (n * C) (List.length POSES - (i + C))) with 0 by lia.
    cbn [seq]. rewrite app_nil_r. f_equal. cbn [Nat.mul]. lia.
Qed.

End PoseWindow.

(** [ceil(L / C)] *)
Definition ceil_div (L C : nat) : nat := (L + C - 1) / C.

Lemma ceil_div_unique (L C n : nat) :
  1 <= C -> L <= n * C -> (0 < n -> (n - 1) * C < L) -> n = ceil_div L C.
Proof.
  intros HC Hup Hlow. unfold ceil_div. destruct n as [|n].
  - assert (L = 0) by lia. subst L. symmetry. apply Nat.div_small. lia.
  - specialize (Hlow ltac:(lia)). replace (S n - 1) with n in Hlow by lia.
    apply (Nat.div_unique _ _ _ (L + C - 1 - C * S n)); lia.
Qed.

Section PoseRun.
Import Pose.
Variable POSES : list string.
Variable oracle : Oracle.

Lemma begin_run_inv (w : PoseWidget) :
  WindowInv POSES oracle (concurrency w) 0 [] (begin_run POSES w).
Proof.
  constructor; cbn.
  - reflexivity.
  - intros t [].
  - constructor.
  - intros _. split; [apply length_map|].
    intros j Hj. split; [|lia]. intros _.
    unfold js_get. rewrite nth_error_map.
    rewrite (nth_error_nth' POSES EmptyString Hj). reflexivity.
  - discriminate.
Qed.

Lemma begin_run_run_inv (w : PoseWidget) :
  RunInv POSES (concurrency w) 0 [] (begin_run POSES w).
Proof.
  constructor; cbn.
  - reflexivity.
  - intros t [].
  - constructor.
  - intros _ j _ Hj. apply js_get_pending_array. exact Hj.
  - lia.
Qed.

(** [generatePoses] always ends normally, having run the first [n]
    windows of the job list, and its counter does not pass the number
    of jobs.  When the generate button is not clicked again during the
    run, the array is what the jobs of this run made of it. *)
Lemma generatePoses_ends (w : PoseWidget) (ticks : list (Tick nat UserEvent)) :
  1 <= concurrency w ->
  exists w' n,
    generatePoses POSES oracle w ticks
    = Some (Completed (stop_running w') (windows_from POSES (concurrency w) 0 n)) /\
    completedJobs w' <= List.length POSES /\
    (Forall no_restart ticks ->
     WindowInv POSES oracle (concurrency w) (n * concurrency w) [] w' /\
     (isRunning w' = true -> List.length POSES <= n * concurrency w) /\
     (0 < n -> (n - 1) * concurrency w < List.length POSES) /\
     (Forall no_user_event ticks -> isRunning w' = true)).
Proof.
  intros HC. unfold generatePoses, job_indices. cbn [begin_run results]. rewrite length_map.
  assert (Hfuel : List.length POSES < 0 + S (List.length (seq 0 (List.length POSES))))
    by (rewrite length_seq; lia).
  destruct (@windows_loop_run POSES oracle (concurrency w) (S (List.length (seq 0 (List.length POSES))))
              0 (begin_run POSES w) ticks [] HC ltac:(lia) Hfuel (begin_run_run_inv w))
    as (w' & n & Hloop & Hle).
  exists w', n. unfold jobs in Hloop. fold (begin_run POSES w). rewrite Hloop.
  cbn [app]. split; [reflexivity|]. split; [exact Hle|].
  intros Hnr.
  destruct (@windows_loop_ends POSES oracle (concurrency w) (S (List.length (seq 0 (List.length POSES))))
              0 (begin_run POSES w) ticks [] HC ltac:(lia) Hfuel Hnr (begin_run_inv w))
    as (w2 & n2 & Hloop2 & Inv & Hend & Hlast & Hkeep & _).
  unfold jobs in Hloop2. rewrite Hloop in Hloop2. injection Hloop2 as Hw Hn.
  assert (n2 = n) as ->.
  { apply (f_equal (@List.length _)) in Hn. cbn [app] in Hn. unfold windows_from in Hn.
    rewrite !length_map, !length_seq in Hn. congruence. }
  subst w2. cbn [Nat.add] in *.
  split; [exact Inv|]. split; [exact Hend|]. split; [exact Hlast|].
  intros Hall. apply Hkeep; [exact Hall|reflexivity].
Qed.
End PoseRun.

(* ===================================================================== *)
(** ** Sample runs of a pose widget *)
(* ===================================================================== *)

Definition ok_response : GenerateContentResponse :=
  {| candidates := Some [ {| content := Some {| parts := Some
       [ {| inlineData := Some {| mimeType := Some "image/png"; data := Some "AAAA" |};
            text := None |} ] |} |} ] |}%string.

Definition quota_error : ApiError :=
  {| error_name := "ApiError"; error_message := "quota exceeded" |}%string.

Definition all_fulfilled : Pose.Oracle := fun _ _ _ => ApiFulfilled ok_response.
Definition all_rejected : Pose.Oracle := fun _ _ _ => ApiRejected quota_error.
(** Job 1 is rejected, the other jobs are fulfilled. *)
Definition only_job1_rejected : Pose.Oracle :=
  fun j _ _ => if Nat.eqb j 1 then ApiRejected quota_error else ApiFulfilled ok_response.

Definition five_poses : list string := ["a"; "b"; "c"; "d"; "e"]%string.
Definition three_poses : list string := ["a"; "b"; "c"]%string.

Definition idle_widget : Pose.PoseWidget :=
  {| Pose.isRunning := false; Pose.concurrency := 2; Pose.results := []; Pose.completedJobs := 0 |}.

(** Five jobs, concurrency 2, every request fulfilled, the requests of
    a window settling in reverse order: windows (2, 2, 1) and five
    [done] entries in the order of the poses. *)
Example five_jobs_two_at_a_time :
  exists s,
    Pose.generatePoses five_poses all_fulfilled idle_widget
      [Resume 1; Resume 0; Resume 3; Resume 2; Resume 4]
    = Some (Completed s [[0; 1]; [2; 3]; [4]]) /\
    map (option_map Pose.status) (Pose.results s)
    = [Some StatusDone; Some StatusDone; Some StatusDone;
       Some StatusDone; Some StatusDone] /\
    map (option_map Pose.prompt) (Pose.results s)
    = map (fun p => Some (VString p)) five_poses /\
    Pose.completedJobs s = 5.
Proof. eexists. vm_compute. repeat split. Qed.

(** With concurrency 0 the loop does not advance. *)
Example zero_concurrency_does_not_end :
  Pose.generatePoses five_poses all_fulfilled
    {| Pose.isRunning := false; Pose.concurrency := 0; Pose.results := [];
       Pose.completedJobs := 0 |} [] = None.
Proof. vm_compute. reflexivity. Qed.

(* ===================================================================== *)
(** ** The batch loop of the pose widgets: claims *)
(* ===================================================================== *)




Section PoseClaims.
Import Pose.
Variable POSES : list string.
Variable oracle : Oracle.

(** The entry of a job for pose [p] once its request has settled as
    [o] during the run: a [done] entry with the image of the response
    as a data URL, or an [error] entry with the message of the error. *)
Definition outcome_entry (p : string) (o : ApiOutcome) : PoseResult :=
  match o with
  | ApiFulfilled resp =>
      match image_url_of resp with
      | Normal url =>
          {| prompt := VString p; status := StatusDone;
             imageUrl := VString url; errorMessage := VUndefined |}
      | Thrown e =>
          {| prompt := VString p; status := StatusError;
             imageUrl := VNull; errorMessage := message_of e |}
      end
  | ApiRejected err =>
      {| prompt := VString p; status := StatusError;
         imageUrl := VNull; errorMessage := VString (error_message err) |}
  end.

(** The entry a job leaves when its request is rejected with [err]
    after the start-over button has emptied the array. *)
Definition late_failure_entry (err : ApiError) : PoseResult :=
  {| prompt := VUndefined; status := StatusError;
     imageUrl := VUndefined; errorMessage := VString (error_message err) |}.

Lemma expected_outcome_entry (i : nat) :
  expected POSES oracle i = outcome_entry (pose POSES i) (reply POSES oracle i).
Proof.
  unfold expected, outcome_entry, outcome_of.
  destruct (reply POSES oracle i) as [resp|err]; [|reflexivity].
  destruct (image_url_of resp); reflexivity.
Qed.

(** In a run during which the generate button is not clicked again,
    every entry of the final array is the entry of the job of its
    index: what the outcome of request [i] makes of the entry of pose
    [i], or the late failure of request [i]; with no user event the
    final array is, index by index, what each job makes of its own
    request. *)
Definition outcomes_mirror_jobs (w : PoseWidget) (ticks : list (Tick nat UserEvent)) : Prop :=
  exists s windows,
    generatePoses POSES oracle w ticks = Some (Completed s windows) /\
    (Forall no_restart ticks ->
     forall i r, js_get (results s) i = Some r ->
       i < List.length POSES /\
       (r = outcome_entry (pose POSES i) (reply POSES oracle i) \/
        exists err, reply POSES oracle i = ApiRejected err /\ r = late_failure_entry err)) /\
    (Forall no_user_event ticks ->
     results s = map (fun i => Some (outcome_entry (pose POSES i) (reply POSES oracle i)))
                   (seq 0 (List.length POSES))).




(** The entries of the final array of a run during which the generate
    button is not clicked again. *)
Lemma final_entries (C hi : nat) (w' : PoseWidget) (i : nat) (r : PoseResult) :
  WindowInv POSES oracle C hi [] w' ->
  (isRunning w' = true -> List.length POSES <= hi) ->
  js_get (results w') i = Some r ->
  i < List.length POSES /\
  (isRunning w' = true /\ r = expected POSES oracle i \/
   isRunning w' = false /\ detached POSES oracle i r).
Proof.
  intros Inv Hend Hr. destruct (isRunning w') eqn:Hrun'.
  - destruct (wi_running Inv Hrun') as [Hlen Hent].
    assert (Hi : i < List.length POSES).
    { rewrite <- Hlen. apply nth_error_Some. unfold js_get in Hr.
      destruct (nth_error (results w') i); [discriminate|discriminate Hr]. }
    split; [exact Hi|]. left. split; [reflexivity|].
    destruct (Hent i Hi) as [_ H2]. specialize (Hend eq_refl).
    rewrite H2 in Hr; [congruence|lia|intros []].
  - destruct (wi_stopped Inv Hrun' i) as [_ H2]. destruct (H2 r Hr).
    split; [assumption|]. right. split; [reflexivity|assumption].
Qed.

Lemma outcomes_mirror_jobs_holds (w : PoseWidget) (ticks : list (Tick nat UserEvent)) :
  1 <= concurrency w -> outcomes_mirror_jobs w ticks.
Proof.
  intros HC.
  destruct (generatePoses_ends POSES oracle w ticks HC) as (w' & n & Hrun & _ & Hstrong).
  exists (stop_running w'), (windows_from POSES (concurrency w) 0 n).
  split; [exact Hrun|]. cbn [stop_running results]. split.
  - intros Hnr i r Hr. destruct (Hstrong Hnr) as (Inv & Hend & _).
    destruct (@final_entries _ _ w' i r Inv Hend Hr) as [Hi [[_ ->]|[_ (err & He & ->)]]].
    + split; [exact Hi|]. left. apply expected_outcome_entry.
    + split; [exact Hi|]. right. exists err. split; [exact He|reflexivity].
  - intros Hall. destruct (Hstrong (no_user_event_no_restart Hall)) as (Inv & Hend & _ & Hkeep).
    specialize (Hkeep Hall). specialize (Hend Hkeep).
    destruct (wi_running Inv Hkeep) as [Hlen Hent].
    rewrite <- Hlen. apply js_array_ext. intros j Hj. rewrite Hlen in Hj.
    rewrite <- expected_outcome_entry. apply (Hent j Hj); [lia|intros []].
Qed.

(** The operation of every job rejects, whenever it is invoked. *)
Definition always_rejects : Prop :=
  forall j n ev, exists err, oracle j n ev = ApiRejected err.

(** A rejected request ends its job normally, with a [StatusError]
    entry carrying the error's message at the job's index and nothing
    else written. *)
Definition failure_is_recorded (j : nat) (r : PoseResult) (err : ApiError) (w : PoseWidget) : Prop :=
  let w' := fst (run_sync (settled_job j r (ApiRejected err)) w) in
  snd (run_sync (settled_job j r (ApiRejected err)) w) = Finished /\
  (exists r', js_get (results w') j = Some r' /\
              status r' = StatusError /\ errorMessage r' = VString (error_message err)) /\
  (forall i, i <> j -> js_get (results w') i = js_get (results w) i) /\
  isRunning w' = isRunning w.

(** The run ends normally whatever the requests and the user do; when
    the requests all reject, every entry of the final array of a run
    during which the generate button is not clicked again is a
    [StatusError] entry with the message of its job's error, and with
    no user event there is one for every job. *)
Definition failures_stay_local (w : PoseWidget) (ticks : list (Tick nat UserEvent)) : Prop :=
  exists s windows,
    generatePoses POSES oracle w ticks = Some (Completed s windows) /\
    (Forall no_user_event ticks ->
     List.length windows = ceil_div (List.length POSES) (concurrency w)) /\
    (always_rejects ->
     (Forall no_restart ticks ->
      forall i r, js_get (results s) i = Some r ->
        exists err, reply POSES oracle i = ApiRejected err /\
                    status r = StatusError /\ errorMessage r = VString (error_message err)) /\
     (Forall no_user_event ticks ->
      forall i, i < List.length POSES -> exists r, js_get (results s) i = Some r)).

Lemma failure_is_recorded_holds (j : nat) (r : PoseResult) (err : ApiError) (w : PoseWidget) :
  failure_is_recorded j r err w.
Proof.
  unfold failure_is_recorded. rewrite run_sync_settled_job. cbn [fst snd on_settle].
  unfold record_failure. cbn.
  split; [reflexivity|].
  destruct (isRunning w) eqn:Hrun; cbn; rewrite ?js_get_set_same.
  - split; [|split; [|exact Hrun]].
    + eexists. split; [reflexivity|]. destruct (js_get (results w) j); cbn; auto.
    + intros i Hne. apply js_get_set_other. auto.
  - split; [|split; [|exact Hrun]].
    + eexists. split; [reflexivity|]. destruct (js_get (results w) j); cbn; auto.
    + intros i Hne. apply js_get_set_other. auto.
Qed.

Lemma failures_stay_local_holds (w : PoseWidget) (ticks : list (Tick nat UserEvent)) :
  1 <= concurrency w -> failures_stay_local w ticks.
Proof.
  intros HC.
  destruct (generatePoses_ends POSES oracle w ticks HC) as (w' & n & Hrun & _ & Hstrong).
  exists (stop_running w'), (windows_from POSES (concurrency w) 0 n).
  split; [exact Hrun|]. cbn [stop_running results]. split.
  - intros Hall. destruct (Hstrong (no_user_event_no_restart Hall)) as (_ & Hend & Hlast & Hkeep).
    unfold windows_from. rewrite length_map, length_seq.
    apply ceil_div_unique; auto.
  - intros Hrej.
    assert (Hexp : forall i, exists err, reply POSES oracle i = ApiRejected err /\
               status (expected POSES oracle i) = StatusError /\
               errorMessage (expected POSES oracle i) = VString (error_message err)).
    { intros i. destruct (Hrej i 0 (request POSES i)) as [err He].
      exists err. unfold expected. fold (reply POSES oracle i) in He.
      rewrite He. cbn. auto. }
    split.
    + intros Hnr i r Hr. destruct (Hstrong Hnr) as (Inv & Hend & _).
      destruct (@final_entries _ _ w' i r Inv Hend Hr) as [Hi [[_ ->]|[_ (err & He & ->)]]].
      * apply Hexp.
      * exists err. cbn. auto.
    + intros Hall i Hi.
      destruct (Hstrong (no_user_event_no_restart Hall)) as (Inv & Hend & _ & Hkeep).
      specialize (Hkeep Hall). specialize (Hend Hkeep).
      destruct (wi_running Inv Hkeep) as [Hlen Hent].
      exists (expected POSES oracle i). apply (Hent i Hi); [lia|intros []].
Qed.
End PoseClaims.



(** Five jobs, concurrency 2, the requests of each window settling in
    reverse order, request 1 rejected: the final array lists the
    outcomes in the order of the jobs. *)
Example outcomes_in_job_order :
  exists s windows,
    Pose.generatePoses five_poses only_job1_rejected idle_widget
      [Resume 1; Resume 0; Resume 3; Resume 2; Resume 4]
    = Some (Completed s windows) /\
    Pose.results s
    = [Some {| Pose.prompt := VString "a"; Pose.status := StatusDone;
               Pose.imageUrl := VString "data:image/png;base64,AAAA";
               Pose.errorMessage := VUndefined |};
       Some {| Pose.prompt := VString "b"; Pose.status := StatusError;
               Pose.imageUrl := VNull; Pose.errorMessage := VString "quota exceeded" |};
       Some {| Pose.prompt := VString "c"; Pose.status := StatusDone;
               Pose.imageUrl := VString "data:image/png;base64,AAAA";
               Pose.errorMessage := VUndefined |};
       Some {| Pose.prompt := VString "d"; Pose.status := StatusDone;
               Pose.imageUrl := VString "data:image/png;base64,AAAA";
               Pose.errorMessage := VUndefined |};
       Some {| Pose.prompt := VString "e"; Pose.status := StatusDone;
               Pose.imageUrl := VString "data:image/png;base64,AAAA";
               Pose.errorMessage := VUndefined |}].
Proof. eexists. eexists. vm_compute. split; reflexivity. Qed.

(** C9. A job whose request rejects ends normally with a [StatusError]
    entry carrying the error's message at its index and touches nothing
    else; the run ends normally whatever the requests and the user do
    and, with no user event, still executes all its windows.  If every
    request rejects, every entry of the final array is such an error
    entry (in a run during which the generate button is not clicked
    again, which would put pending entries into the array). *)
Theorem job_failures_do_not_abort (POSES : list string) (oracle : Pose.Oracle)
  (w : Pose.PoseWidget) (ticks : list (Tick nat Pose.UserEvent)) :
  1 <= Pose.concurrency w ->
  (forall j r err w0, failure_is_recorded j r err w0) /\
  failures_stay_local POSES oracle w ticks.
Proof.
  intros HC. split; [exact failure_is_recorded_holds|].
  exact (@failures_stay_local_holds POSES oracle w ticks HC).
Qed.

Lemma job_failures_do_not_abort_witness :
  1 <= Pose.concurrency idle_widget /\
  (forall j r err w0, failure_is_recorded j r err w0) /\
  failures_stay_local five_poses all_rejected idle_widget [Resume 1; Resume 0].
Proof.
  split; [cbn; lia|].
  apply (@job_failures_do_not_abort five_poses all_rejected idle_widget [Resume 1; Resume 0]).
  cbn. lia.
Defined.

(** Every request rejecting, five jobs, concurrency 2: the run ends
    normally after three windows with five error entries. *)
Example all_requests_rejected :
  exists s,
    Pose.generatePoses five_poses all_rejected idle_widget [Resume 1; Resume 0]
    = Some (Completed s [[0; 1]; [2; 3]; [4]]) /\
    map (option_map Pose.status) (Pose.results s)
    = [Some StatusError; Some StatusError; Some StatusError;
       Some StatusError; Some StatusError].
Proof. eexists. vm_compute. repeat split. Qed.

(* ===================================================================== *)
(** ** Cancellation while a window is awaited *)
(* ===================================================================== *)

(** Job [j] is resumed by the schedule [ticks]: its request settles
    at one of these turns. *)
Definition resumed {U : Type} (ticks : list (Tick nat U)) (j : nat) : Prop :=
  In (Resume j) ticks.

Section PoseCancel.
Import Pose.
Variable POSES : list string.
Variable oracle : Oracle.

(** The widget after the start-over button was clicked while the
    requests of the jobs [fl] were in flight, those of [pool] still
    being so. *)
Record StoppedInv (fl : nat -> Prop) (pool : list (Task PoseE pose_ans PoseWidget nat))
  (w : PoseWidget) : Prop := {
  si_stopped : isRunning w = false;
  si_tasks : forall t, In t pool -> t = pose_task POSES (task_job t);
  si_nodup : NoDup (map (@task_job _ _ _ _) pool);
  si_in_flight : forall j, in_flight pool j -> fl j /\ js_get (results w) j = None;
  si_settled : forall j, ~ in_flight pool j -> fl j ->
     js_get (results w) j
     = match reply POSES oracle j with
       | ApiRejected err => Some (late_failure_entry err)
       | ApiFulfilled _ => None
       end;
  si_others : forall j, ~ fl j -> js_get (results w) j = None
}.

Lemma in_flight_after_step (j : nat) (pool pool' : list (Task PoseE pose_ans PoseWidget nat)) :
  (forall t, In t pool' <-> In t pool /\ task_job t <> j) ->
  forall i, in_flight pool' i <-> in_flight pool i /\ i <> j.
Proof.
  intros Hpool i. unfold in_flight. rewrite !in_map_iff. split.
  - intros (t & <- & Ht). apply Hpool in Ht. destruct Ht. split; eauto.
  - intros ((t & <- & Ht) & Hne). exists t. split; [reflexivity|]. apply Hpool. auto.
Qed.

Lemma settle_keeps_stopped (fl : nat -> Prop) (j : nat)
  (pool pool' : list (Task PoseE pose_ans PoseWidget nat)) (w : PoseWidget) :
  StoppedInv fl pool w ->
  in_flight pool j ->
  (forall t, In t pool' <-> In t pool /\ task_job t <> j) ->
  NoDup (map (@task_job _ _ _ _) pool') ->
  StoppedInv fl pool' (on_settle j (pending_result (pose POSES j)) (reply POSES oracle j) w).
Proof.
  intros Inv Hj Hpool Hnd.
  pose proof (@in_flight_after_step j pool pool' Hpool) as Hfl.
  destruct (si_in_flight Inv _ Hj) as [Hflj Hnone].
  pose proof (si_stopped Inv) as Hrun.
  unfold on_settle, record_failure.
  destruct (reply POSES oracle j) as [resp|err] eqn:Hrep; cbn; rewrite Hrun.
  - constructor.
    + exact Hrun.
    + intros t Ht. apply Hpool in Ht. apply (si_tasks Inv). tauto.
    + exact Hnd.
    + intros i Hi. apply Hfl in Hi. apply (si_in_flight Inv). tauto.
    + intros i Hi Hfli. destruct (Nat.eq_dec i j) as [->|Hne].
      * rewrite Hrep. exact Hnone.
      * apply (si_settled Inv); [|exact Hfli]. intros H. apply Hi, Hfl. auto.
    + apply (si_others Inv).
  - rewrite Hnone. constructor; cbn.
    + exact Hrun.
    + intros t Ht. apply Hpool in Ht. apply (si_tasks Inv). tauto.
    + exact Hnd.
    + intros i Hi. apply Hfl in Hi. destruct Hi as [Hi Hne].
      rewrite js_get_set_other by auto. apply (si_in_flight Inv). exact Hi.
    + intros i Hi Hfli. destruct (Nat.eq_dec i j) as [->|Hne].
      * rewrite Hrep, js_get_set_same. reflexivity.
      * rewrite js_get_set_other by auto.
        apply (si_settled Inv); [|exact Hfli]. intros H. apply Hi, Hfl. auto.
    + intros i Hi. destruct (Nat.eq_dec i j) as [->|Hne]; [contradiction|].
      rewrite js_get_set_other by auto. apply (si_others Inv). exact Hi.
Qed.

Lemma drain_pool_stopped (fl : nat -> Prop) (pool : list (Task PoseE pose_ans PoseWidget nat))
  (w : PoseWidget) :
  StoppedInv fl pool w ->
  exists w', drain_pool (U := UserEvent) oracle pool w = AllSettled w' [] /\ StoppedInv fl [] w'.
Proof.
  revert w. induction pool as [|t rest IH]; intros w Inv.
  - exists w. auto.
  - cbn [drain_pool].
    pose proof (si_tasks Inv t (or_introl eq_refl)) as Ht.
    assert (Hd : drain oracle (task_k t (oracle (task_job t) (task_awaits t) (task_ev t)))
                   (task_job t) (S (task_awaits t)) w
                 = (on_settle (task_job t) (pending_result (pose POSES (task_job t)))
                      (reply POSES oracle (task_job t)) w, None)).
    { apply drain_finished. rewrite Ht. cbn. apply run_sync_settled_job. }
    rewrite Hd.
    pose proof (si_nodup Inv) as Hnd. cbn in Hnd. apply NoDup_cons_iff in Hnd.
    destruct Hnd as [Hnotin Hnd].
    apply IH. apply (@settle_keeps_stopped fl (task_job t) (t :: rest) rest w Inv).
    + left. reflexivity.
    + intros t'. split.
      * intros H. split; [right; exact H|]. intros E. apply Hnotin. rewrite <- E.
        apply in_map. exact H.
      * intros [[<-|H] Hne]; [exfalso; apply Hne; reflexivity|exact H].
    + exact Hnd.
Qed.

Lemma settle_window_cons (tick : Tick nat UserEvent) (ticks : list (Tick nat UserEvent))
  (pool : list (Task PoseE pose_ans PoseWidget nat)) (w : PoseWidget) :
  pool <> [] ->
  settle_window Nat.eqb (handle POSES) oracle (tick :: ticks) pool w =
  match tick with
  | User u => settle_window Nat.eqb (handle POSES) oracle ticks pool (handle POSES u w)
  | Resume j =>
      match step_job Nat.eqb oracle j pool w with
      | (s', pool', None) => settle_window Nat.eqb (handle POSES) oracle ticks pool' s'
      | (s', _, Some e) => Rejection e s' ticks
      end
  end.
Proof. destruct pool as [|t rest]; [congruence|reflexivity]. Qed.

(** After the click, and with no further click, the window ends only
    when every request in flight has settled; the rejected ones have
    left their late failure, the fulfilled ones nothing. *)
Lemma settle_window_stopped (fl : nat -> Prop) (post : list (Tick nat UserEvent)) :
  forall (pool : list (Task PoseE pose_ans PoseWidget nat)) (w : PoseWidget),
  Forall no_user_event post ->
  StoppedInv fl pool w ->
  exists w' used rest,
    settle_window Nat.eqb (handle POSES) oracle post pool w = AllSettled w' rest /\
    post = (used ++ rest)%list /\
    (forall j, in_flight pool j -> resumed used j \/ rest = []) /\
    StoppedInv fl [] w'.
Proof.
  induction post as [|tick post IH]; intros pool w Hno Inv.
  - destruct pool as [|t rest].
    + exists w, [], []. cbn. split; [reflexivity|]. split; [reflexivity|]. split; [|exact Inv].
      intros j [].
    + destruct (drain_pool_stopped Inv) as (w' & Hw' & Inv').
      exists w', [], []. cbn [settle_window]. auto.
  - destruct pool as [|t rest] eqn:Hpool.
    + exists w, [], (tick :: post). cbn. split; [reflexivity|]. split; [reflexivity|].
      split; [|exact Inv]. intros j [].
    + rewrite <- Hpool in *.
      rewrite settle_window_cons by (rewrite Hpool; discriminate).
      pose proof (Forall_inv Hno) as Hno1. apply Forall_inv_tail in Hno.
      destruct tick as [j|u]; [|destruct Hno1].
      destruct (in_flight_dec pool j) as [Hj|Hj].
      * destruct (@step_job_in_flight POSES oracle j pool w (si_tasks Inv) (si_nodup Inv) Hj)
          as (pool' & Hstep & Hin & Hnd).
        rewrite Hstep.
        destruct (IH _ _ Hno (@settle_keeps_stopped fl j pool pool' w Inv Hj Hin Hnd))
          as (w' & used & rest' & Hw' & Hpost & Hawait & Inv').
        exists w', (Resume j :: used), rest'. split; [exact Hw'|].
        split; [cbn; rewrite Hpost; reflexivity|]. split; [|exact Inv'].
        intros i Hi. destruct (Nat.eq_dec i j) as [->|Hne]; [left; left; reflexivity|].
        destruct (Hawait i) as [H|H]; [apply (@in_flight_after_step j pool pool' Hin); auto| |right; exact H].
        left. right. exact H.
      * rewrite step_job_not_in_flight by exact Hj.
        destruct (IH _ _ Hno Inv) as (w' & used & rest' & Hw' & Hpost & Hawait & Inv').
        exists w', (Resume j :: used), rest'. split; [exact Hw'|].
        split; [cbn; rewrite Hpost; reflexivity|]. split; [|exact Inv'].
        intros i Hi. destruct (Hawait i Hi) as [H|H]; [left; right; exact H|right; exact H].
Qed.

(** Before the click: the requests the schedule resumes settle, the
    others are still in flight when the click comes. *)
Lemma settle_window_before_click (pre tail : list (Tick nat UserEvent)) :
  forall (pool : list (Task PoseE pose_ans PoseWidget nat)) (w : PoseWidget),
  Forall no_user_event pre ->
  (forall t, In t pool -> t = pose_task POSES (task_job t)) ->
  NoDup (map (@task_job _ _ _ _) pool) ->
  (exists j, in_flight pool j /\ ~ resumed pre j) ->
  exists pool1 w1,
    settle_window Nat.eqb (handle POSES) oracle (pre ++ tail) pool w
    = settle_window Nat.eqb (handle POSES) oracle tail pool1 w1 /\
    (forall t, In t pool1 -> t = pose_task POSES (task_job t)) /\
    NoDup (map (@task_job _ _ _ _) pool1) /\
    (forall j, in_flight pool1 j <-> in_flight pool j /\ ~ resumed pre j).
Proof.
  induction pre as [|tick pre IH]; intros pool w Hno Htasks Hnd Hex.
  - exists pool, w. split; [reflexivity|]. split; [exact Htasks|]. split; [exact Hnd|].
    intros j. unfold resumed. cbn. tauto.
  - assert (Hne : pool <> []).
    { destruct Hex as (j & Hj & _). intros ->. destruct Hj. }
    cbn [app]. rewrite settle_window_cons by exact Hne.
    pose proof (Forall_inv Hno) as Hno1. apply Forall_inv_tail in Hno.
    destruct tick as [i|u]; [|destruct Hno1].
    assert (Hres : forall j, resumed (Resume (U := UserEvent) i :: pre) j <-> i = j \/ resumed pre j).
    { intros j. unfold resumed. cbn. split.
      - intros [H|H]; [left; congruence|right; exact H].
      - intros [->|H]; [left; reflexivity|right; exact H]. }
    destruct (in_flight_dec pool i) as [Hi|Hi].
    + destruct (@step_job_in_flight POSES oracle i pool w Htasks Hnd Hi)
        as (pool' & Hstep & Hin & Hnd').
      rewrite Hstep.
      pose proof (@in_flight_after_step i pool pool' Hin) as Hfl.
      destruct (IH pool' (on_settle i (pending_result (pose POSES i)) (reply POSES oracle i) w) Hno)
        as (pool1 & w1 & Heq & Htasks1 & Hnd1 & Hfl1).
      * intros t Ht. apply Hin in Ht. apply Htasks. tauto.
      * exact Hnd'.
      * destruct Hex as (j & Hj & Hnr). exists j. split.
        -- apply Hfl. split; [exact Hj|]. intros ->. apply Hnr, Hres. left. reflexivity.
        -- intros H. apply Hnr, Hres. right. exact H.
      * exists pool1, w1. split; [exact Heq|]. split; [exact Htasks1|]. split; [exact Hnd1|].
        intros j. rewrite Hfl1, Hfl, Hres. split.
        -- intros [[H1 H2] H3]. split; [exact H1|]. intros [H|H]; [congruence|contradiction].
        -- intros [H1 H2]. split; [split; [exact H1|]|].
           ++ intros ->. apply H2. left. reflexivity.
           ++ intros H. apply H2. right. exact H.
    + rewrite step_job_not_in_flight by exact Hi.
      destruct (IH pool w Hno Htasks Hnd) as (pool1 & w1 & Heq & Htasks1 & Hnd1 & Hfl1).
      * destruct Hex as (j & Hj & Hnr). exists j. split; [exact Hj|].
        intros H. apply Hnr, Hres. right. exact H.
      * exists pool1, w1. split; [exact Heq|]. split; [exact Htasks1|]. split; [exact Hnd1|].
        intros j. rewrite Hfl1, Hres. split.
        -- intros [H1 H2]. split; [exact H1|]. intros [H|H]; [|contradiction].
           apply Hi. rewrite H. exact H1.
        -- intros [H1 H2]. split; [exact H1|]. intros H. apply H2. right. exact H.
Qed.

(** A window cancelled while it is awaited: the start-over button is
    clicked after the turns [pre], with requests of the window still
    in flight, and the turns [post] follow. *)
Definition cancelled_mid_window (w : PoseWidget) (i : nat)
  (pre post : list (Tick nat UserEvent)) : Prop :=
  let jobs := seq 0 (List.length POSES) in
  let chunk := slice i (i + concurrency w) jobs in
  let ticks := (pre ++ User ClickStartOver :: post)%list in
  exists w' used rest,
    promise_all Nat.eqb (handle POSES) oracle runJob chunk w ticks = AllSettled w' rest /\
    post = (used ++ rest)%list /\
    (forall j, In j chunk -> ~ resumed pre j -> resumed used j \/ rest = []) /\
    isRunning w' = false /\
    (forall j, In j chunk -> ~ resumed pre j ->
       js_get (results w') j
       = match reply POSES oracle j with
         | ApiRejected err => Some (late_failure_entry err)
         | ApiFulfilled _ => None
         end) /\
    (forall j, ~ (In j chunk /\ ~ resumed pre j) -> js_get (results w') j = None) /\
    (forall fuel windows,
       windows_loop Nat.eqb (handle POSES) oracle isRunning concurrency runJob jobs
         (S (S fuel)) i w ticks windows
       = Some (Completed w' (windows ++ [chunk]))).

Lemma cancelled_mid_window_holds (w : PoseWidget) (i : nat)
  (pre post : list (Tick nat UserEvent)) :
  isRunning w = true ->
  (forall j, In j (slice i (i + concurrency w) (seq 0 (List.length POSES))) ->
     js_get (results w) j = Some (pending_result (pose POSES j))) ->
  Forall no_user_event pre ->
  Forall no_user_event post ->
  (exists j, In j (slice i (i + concurrency w) (seq 0 (List.length POSES))) /\ ~ resumed pre j) ->
  cancelled_mid_window w i pre post.
Proof.
  intros Hrun Hent Hpre Hpost Hex. unfold cancelled_mid_window.
  set (chunk := slice i (i + concurrency w) (seq 0 (List.length POSES))) in *.
  assert (Hnd : NoDup chunk).
  { unfold chunk, slice. rewrite skipn_seq, firstn_of_seq. apply seq_NoDup. }
  assert (Hi : i < List.length POSES).
  { destruct Hex as (j & Hj & _). unfold chunk, slice in Hj.
    destruct (Nat.lt_ge_cases i (List.length POSES)) as [H|H]; [exact H|].
    rewrite skipn_all2 in Hj by (rewrite length_seq; exact H).
    rewrite firstn_nil in Hj. destruct Hj. }
  assert (Hwin : exists w' used rest,
            promise_all Nat.eqb (handle POSES) oracle runJob chunk w
              (pre ++ User ClickStartOver :: post)%list = AllSettled w' rest /\
            post = (used ++ rest)%list /\
            (forall j, In j chunk -> ~ resumed pre j -> resumed used j \/ rest = []) /\
            StoppedInv (fun j => In j chunk /\ ~ resumed pre j) [] w').
  { unfold promise_all. rewrite (@start_all_running POSES chunk w Hrun Hent).
    destruct (@settle_window_before_click pre (User ClickStartOver :: post)
                (map (pose_task POSES) chunk) w Hpre)
      as (pool1 & w1 & Heq & Htasks1 & Hnd1 & Hfl1).
    - intros t Ht. apply in_map_iff in Ht. destruct Ht as (j & <- & _). reflexivity.
    - rewrite map_map. cbn. rewrite map_id. exact Hnd.
    - destruct Hex as (j & Hj & Hnr). exists j. split; [|exact Hnr].
      apply in_flight_map_pose_task. exact Hj.
    - rewrite Heq.
      assert (Hne : pool1 <> []).
      { destruct Hex as (j & Hj & Hnr). intros ->.
        assert (H : in_flight (@nil (Task PoseE pose_ans PoseWidget nat)) j).
        { apply Hfl1. split; [apply in_flight_map_pose_task; exact Hj|exact Hnr]. }
        destruct H. }
      rewrite settle_window_cons by exact Hne. cbn [handle].
      assert (Inv : StoppedInv (fun j => In j chunk /\ ~ resumed pre j) pool1 (reset w1)).
      { constructor; cbn.
        - reflexivity.
        - exact Htasks1.
        - exact Hnd1.
        - intros j Hj. apply Hfl1 in Hj. rewrite in_flight_map_pose_task in Hj.
          split; [exact Hj|apply js_get_nil].
        - intros j Hj Hfl. exfalso. apply Hj, Hfl1. rewrite in_flight_map_pose_task. exact Hfl.
        - intros j _. apply js_get_nil. }
      destruct (settle_window_stopped Hpost Inv) as (w' & used & rest & Hw' & Hp & Haw & Inv').
      exists w', used, rest. split; [exact Hw'|]. split; [exact Hp|]. split; [|exact Inv'].
      intros j Hj Hnr. apply Haw, Hfl1. rewrite in_flight_map_pose_task. auto. }
  destruct Hwin as (w' & used & rest & Hw' & Hp & Haw & Inv').
  exists w', used, rest. split; [exact Hw'|]. split; [exact Hp|]. split; [exact Haw|].
  split; [exact (si_stopped Inv')|]. split; [|split].
  - intros j Hj Hnr. apply (si_settled Inv'); [intros []|auto].
  - intros j Hj. apply (si_others Inv'). exact Hj.
  - intros fuel windows. cbn [windows_loop]. rewrite length_seq.
    destruct (Nat.ltb_spec i (List.length POSES)) as [_|H]; [|lia].
    rewrite Hrun. cbn [negb]. fold chunk. rewrite Hw'.
    cbn [windows_loop]. rewrite (si_stopped Inv').
    destruct (i + concurrency w <? List.length POSES); reflexivity.
Qed.
End PoseCancel.

(** What a job in flight does when its request settles while the flag
    is cleared. *)
Definition after_cancellation (j : nat) (r : Pose.PoseResult) (w : Pose.PoseWidget) : Prop :=
  (forall resp, run_sync (settled_job j r (ApiFulfilled resp)) w = (w, Finished)) /\
  (forall err, failure_is_recorded j r err w).

Lemma after_cancellation_holds (j : nat) (r : Pose.PoseResult) (w : Pose.PoseWidget) :
  Pose.isRunning w = false -> after_cancellation j r w.
Proof.
  intros Hrun. split.
  - intros resp. rewrite run_sync_settled_job. cbn. rewrite Hrun. reflexivity.
  - intros err. apply failure_is_recorded_holds.
Qed.

(** C3 (amended). The start-over button is clicked while requests of
    the current window are in flight, and the user does nothing
    further while they are awaited.  Then the await of the window
    ends only once every request in flight has settled; a job whose
    request is then rejected writes its [StatusError] entry, with the
    message of the error, at its index; a job whose request is
    fulfilled returns without writing anything; nothing else is in the
    array; and the loop starts no further window.  (Each of the two
    steps does so in every state in which the flag is cleared.) *)
Theorem in_flight_jobs_after_cancellation (POSES : list string) (oracle : Pose.Oracle)
  (w : Pose.PoseWidget) (i : nat) (pre post : list (Tick nat Pose.UserEvent)) :
  Pose.isRunning w = true ->
  (forall j, In j (slice i (i + Pose.concurrency w) (seq 0 (List.length POSES))) ->
     js_get (Pose.results w) j = Some (Pose.pending_result (pose POSES j))) ->
  Forall no_user_event pre ->
  Forall no_user_event post ->
  (exists j, In j (slice i (i + Pose.concurrency w) (seq 0 (List.length POSES))) /\
             ~ resumed pre j) ->
  cancelled_mid_window POSES oracle w i pre post /\
  (forall j r w0, Pose.isRunning w0 = false -> after_cancellation j r w0).
Proof.
  intros Hrun Hent Hpre Hpost Hex. split.
  - exact (@cancelled_mid_window_holds POSES oracle w i pre post Hrun Hent Hpre Hpost Hex).
  - exact after_cancellation_holds.
Qed.

Lemma in_flight_jobs_after_cancellation_witness :
  Pose.isRunning (Pose.begin_run three_poses idle_widget) = true /\
  (forall j, In j (slice 0 (0 + Pose.concurrency (Pose.begin_run three_poses idle_widget))
                     (seq 0 (List.length three_poses))) ->
     js_get (Pose.results (Pose.begin_run three_poses idle_widget)) j
     = Some (Pose.pending_result (pose three_poses j))) /\
  Forall no_user_event ([] : list (Tick nat Pose.UserEvent)) /\
  Forall no_user_event [Resume 0; Resume 1 : Tick nat Pose.UserEvent] /\
  (exists j, In j (slice 0 (0 + Pose.concurrency (Pose.begin_run three_poses idle_widget))
                     (seq 0 (List.length three_poses))) /\
             ~ resumed ([] : list (Tick nat Pose.UserEvent)) j) /\
  cancelled_mid_window three_poses only_job1_rejected (Pose.begin_run three_poses idle_widget) 0
    [] [Resume 0; Resume 1] /\
  (forall j r w0, Pose.isRunning w0 = false -> after_cancellation j r w0).
Proof.
  assert (H1 : forall j,
             In j (slice 0 (0 + Pose.concurrency (Pose.begin_run three_poses idle_widget))
                     (seq 0 (List.length three_poses))) ->
             js_get (Pose.results (Pose.begin_run three_poses idle_widget)) j
             = Some (Pose.pending_result (pose three_poses j))).
  { intros j [<-|[<-|[]]]; reflexivity. }
  assert (H2 : Forall no_user_event [Resume 0; Resume 1 : Tick nat Pose.UserEvent]).
  { repeat constructor. }
  assert (H3 : exists j,
             In j (slice 0 (0 + Pose.concurrency (Pose.begin_run three_poses idle_widget))
                     (seq 0 (List.length three_poses))) /\
             ~ resumed ([] : list (Tick nat Pose.UserEvent)) j).
  { exists 0. split; [left; reflexivity|intros []]. }
  split; [reflexivity|]. split; [exact H1|]. split; [constructor|]. split; [exact H2|].
  split; [exact H3|].
  exact (@in_flight_jobs_after_cancellation three_poses only_job1_rejected
           (Pose.begin_run three_poses idle_widget) 0 [] [Resume 0; Resume 1]
           eq_refl H1 (Forall_nil _) H2 H3).
Defined.

(** Three poses, concurrency 2; the start-over button is clicked while
    both requests of the first window are in flight; request 0 is then
    fulfilled and request 1 rejected.  The window is awaited to its
    end, job 1 leaves its late failure, job 0 nothing, and the second
    window is not started. *)
Example first_window_cancelled :
  Pose.generatePoses three_poses only_job1_rejected idle_widget
    [User Pose.ClickStartOver; Resume 0; Resume 1]
  = Some (Completed
            {| Pose.isRunning := false; Pose.concurrency := 2;
               Pose.results := [None; Some (late_failure_entry quota_error)];
               Pose.completedJobs := 0 |}
            [[0; 1]]).
Proof. vm_compute. reflexivity. Qed.

(** C3, as stated, fails.  Two jobs in one window; the start-over
    button is clicked while both requests are in flight; then request 0
    is fulfilled with an image and request 1 is rejected.  Job 1 leaves
    its error entry, job 0 leaves nothing: slot 0 of the array is empty
    although its operation succeeded. *)
Lemma fulfilled_after_cancellation_not_recorded :
  outcome_of (reply ["a"; "b"]%string only_job1_rejected 0)
  = Succeeded "data:image/png;base64,AAAA" /\
  exists s,
    Pose.generatePoses ["a"; "b"]%string only_job1_rejected idle_widget
      [User Pose.ClickStartOver; Resume 0; Resume 1]
    = Some (Completed s [[0; 1]]) /\
    js_get (Pose.results s) 0 = None /\
    option_map Pose.status (js_get (Pose.results s) 1) = Some StatusError.
Proof. split; [reflexivity|]. eexists. vm_compute. repeat split. Qed.

(* ===================================================================== *)
(** ** Procedures whose writes stay within a relation *)
(* ===================================================================== *)

Section Confinement.
Context {E : Type} {ans : E -> Type} {St : Type}.
Variable Rel : St -> St -> Prop.

(** Every write of the procedure, on every path, relates the state
    before to the state after. *)
Inductive Confined {R : Type} : Proc E ans St R -> Prop :=
| Confined_Ret (r : R) : Confined (Ret r)
| Confined_Throw (e : JsValue) : Confined (Throw e)
| Confined_Read (k : St -> Proc E ans St R) :
    (forall s, Confined (k s)) -> Confined (Read k)
| Confined_Write (f : St -> St) (k : Proc E ans St R) :
    (forall s, Rel s (f s)) -> Confined k -> Confined (Write f k)
| Confined_Await (ev : E) (k : ans ev -> Proc E ans St R) :
    (forall a, Confined (k a)) -> Confined (Await ev k).

Lemma confined_bind {A B : Type} (p : Proc E ans St A) (f : A -> Proc E ans St B) :
  Confined p -> (forall a, Confined (f a)) -> Confined (bind p f).
Proof.
  intros Hp Hf. induction Hp; cbn; try constructor; auto.
Qed.

Lemma confined_try_catch {A : Type} (p : Proc E ans St A) (h : JsValue -> Proc E ans St A) :
  Confined p -> (forall e, Confined (h e)) -> Confined (try_catch p h).
Proof.
  intros Hp Hh. induction Hp; cbn; try constructor; auto.
Qed.

Lemma confined_try_finally {A : Type} (p : Proc E ans St A) (c : Proc E ans St unit) :
  Confined p -> Confined c -> Confined (try_finally p c).
Proof.
  intros Hp Hc. induction Hp; cbn; try (constructor; auto; fail).
  - apply confined_bind; [exact Hc|]. intros _. constructor.
  - apply confined_bind; [exact Hc|]. intros _. constructor.
Qed.

Lemma confined_lift {A : Type} (c : Completion A) : Confined (lift (E := E) (ans := ans) (St := St) c).
Proof. destruct c; constructor. Qed.

Lemma confined_settle {A : Type} (r : Settled A) :
  Confined (settle (E := E) (ans := ans) (St := St) r).
Proof. destruct r; constructor. Qed.

Hypothesis Rel_refl : forall s, Rel s s.
Hypothesis Rel_trans : forall s1 s2 s3, Rel s1 s2 -> Rel s2 s3 -> Rel s1 s3.

Lemma run_sync_confined (p : Proc E ans St unit) :
  Confined p ->
  forall s, Rel s (fst (run_sync p s)) /\
            match snd (run_sync p s) with
            | Blocked ev k => forall a, Confined (k a)
            | _ => True
            end.
Proof.
  induction 1 as [r|e|k Hk IH|f k Hf Hk IH|ev k Hk IH]; intros s; cbn; auto.
  destruct (IH (f s)) as [H1 H2]. split; [|exact H2].
  eapply Rel_trans; [apply Hf|exact H1].
Qed.

Lemma drain_confined {J : Type} (oracle : J -> nat -> forall ev : E, ans ev)
  (p : Proc E ans St unit) :
  Confined p -> forall j n s, Rel s (fst (drain oracle p j n s)).
Proof.
  induction 1 as [r|e|k Hk IH|f k Hf Hk IH|ev k Hk IH]; intros j n s; cbn; auto.
  eapply Rel_trans; [apply Hf|apply IH].
Qed.
End Confinement.

Lemma confined_mono {E : Type} {ans : E -> Type} {St R : Type}
  (Rel1 Rel2 : St -> St -> Prop) (p : Proc E ans St R) :
  (forall s s', Rel1 s s' -> Rel2 s s') -> Confined Rel1 p -> Confined Rel2 p.
Proof. intros Hsub Hp. induction Hp; constructor; auto. Qed.

(** [withGenericRetry] adds no write of its own. *)
Lemma confined_withGenericRetry {E : Type} {ans : E -> Type} {St T : Type}
  (Rel : St -> St -> Prop) (fn : Proc E ans St T) (retries delayMs : Z)
  (onRetry : Z -> JsValue -> Proc E ans St unit) (delay : Z -> Proc E ans St unit) :
  Confined Rel fn ->
  (forall a e, Confined Rel (onRetry a e)) ->
  (forall ms, Confined Rel (delay ms)) ->
  Confined Rel (withGenericRetry fn retries delayMs onRetry delay).
Proof.
  intros Hfn Hobs Hdelay. unfold withGenericRetry.
  apply confined_bind; [|intros [v|le]; constructor].
  assert (H : forall m attempt le, Z.to_nat (retries + 2 - attempt) = m ->
            Confined Rel (withGenericRetry_loop fn retries delayMs onRetry delay attempt le)).
  { induction m as [|m IH]; intros attempt le Hm; simp withGenericRetry_loop;
      destruct (Z_le_dec attempt (retries + 1)) as [Hle|Hgt]; cbn; try constructor; try lia.
    apply confined_try_catch.
    - apply confined_bind; [exact Hfn|]. intros v. constructor.
    - intros e. destruct (attempt <=? retries)%Z; [|constructor].
      apply confined_bind; [apply Hobs|]. intros _.
      apply confined_bind; [apply Hdelay|]. intros _.
      apply IH. lia. }
  apply (H _ 1%Z VUndefined eq_refl).
Qed.

(* ===================================================================== *)
(** ** What a batch loop can change *)
(* ===================================================================== *)

Definition end_state {St J U : Type} (we : WindowEnd St J U) : St :=
  match we with
  | AllSettled s _ => s
  | Rejection _ s _ => s
  end.

Definition loop_state {St J : Type} (le : LoopEnd St J) : St :=
  match le with
  | Completed s _ => s
  | Aborted _ s _ => s
  end.

Definition loop_windows {St J : Type} (le : LoopEnd St J) : list (list J) :=
  match le with
  | Completed _ windows => windows
  | Aborted _ _ windows => windows
  end.

Section LoopFrame.
Context {E : Type} {ans : E -> Type} {St J U : Type}.
Variable job_eqb : J -> J -> bool.
Variable handle : U -> St -> St.
Variable oracle : J -> nat -> forall ev : E, ans ev.
Variable isRunning : St -> bool.
Variable concurrency : St -> nat.
Variable runJob : J -> Proc E ans St unit.
Variable jobs : list J.

(** [Rel X s s']: from [s] to [s'] only what belongs to the jobs of [X]
    has changed. *)
Variable Rel : (J -> Prop) -> St -> St -> Prop.
Hypothesis Rel_refl : forall X s, Rel X s s.
Hypothesis Rel_trans : forall X s1 s2 s3, Rel X s1 s2 -> Rel X s2 s3 -> Rel X s1 s3.
Hypothesis Rel_mono : forall (X Y : J -> Prop) s s',
  (forall j, X j -> Y j) -> Rel X s s' -> Rel Y s s'.
Hypothesis Rel_concurrency : forall X s s', Rel X s s' -> concurrency s' = concurrency s.
Hypothesis handle_rel : forall X u s, Rel X s (handle u s).
Hypothesis runJob_confined : forall j, Confined (Rel (eq j)) (runJob j).

Definition PoolOk (X : J -> Prop) (pool : list (Task E ans St J)) : Prop :=
  forall t, In t pool ->
    X (task_job t) /\ forall a, Confined (Rel (eq (task_job t))) (task_k t a).

Lemma run_sync_within (X : J -> Prop) (j : J) (p : Proc E ans St unit) (s : St) :
  X j -> Confined (Rel (eq j)) p ->
  Rel X s (fst (run_sync p s)) /\
  match snd (run_sync p s) with
  | Blocked ev k => forall a, Confined (Rel (eq j)) (k a)
  | _ => True
  end.
Proof.
  intros HX Hp.
  destruct (run_sync_confined (Rel_refl (eq j)) (@Rel_trans (eq j)) Hp s) as [H1 H2].
  split; [|exact H2]. apply (Rel_mono (X := eq j)); [intros ? <-; exact HX|exact H1].
Qed.

Lemma start_all_frame (X : J -> Prop) (chunk : list J) :
  (forall j, In j chunk -> X j) ->
  forall s, Rel X s (fst (fst (start_all runJob chunk s))) /\
            PoolOk X (snd (fst (start_all runJob chunk s))).
Proof.
  induction chunk as [|j chunk IH]; intros HX s; cbn [start_all].
  - split; [apply Rel_refl|intros t []].
  - destruct (@run_sync_within X j (runJob j) s (HX j (or_introl eq_refl)) (runJob_confined j))
      as [H1 H2].
    destruct (run_sync (runJob j) s) as [s1 r]. cbn [fst snd] in H1, H2.
    destruct (IH (fun j' Hj' => HX j' (or_intror Hj')) s1) as [H3 H4].
    destruct (start_all runJob chunk s1) as [[s2 pool] rejected]. cbn [fst snd] in H3, H4.
    assert (H13 : Rel X s s2) by (eapply Rel_trans; eauto).
    destruct r as [|e|ev k]; cbn [fst snd]; split; auto.
    intros t [<-|Ht]; [|apply H4; exact Ht].
    cbn. split; [apply HX; left; reflexivity|exact H2].
Qed.

Lemma step_job_frame (X : J -> Prop) (j : J) (pool : list (Task E ans St J)) :
  PoolOk X pool ->
  forall s, Rel X s (fst (fst (step_job job_eqb oracle j pool s))) /\
            PoolOk X (snd (fst (step_job job_eqb oracle j pool s))).
Proof.
  induction pool as [|t pool IH]; intros Hok s; cbn [step_job].
  - split; [apply Rel_refl|exact Hok].
  - destruct (job_eqb (task_job t) j).
    + destruct (Hok t (or_introl eq_refl)) as [HX Hk].
      unfold resume.
      destruct (@run_sync_within X (task_job t) _ s HX
                  (Hk (oracle (task_job t) (task_awaits t) (task_ev t))))
        as [H1 H2].
      destruct (run_sync _ s) as [s' r]. cbn [fst snd] in H1, H2.
      assert (Hrest : PoolOk X pool) by (intros t' Ht'; apply Hok; right; exact Ht').
      destruct r as [|e|ev k]; cbn [fst snd]; split; auto.
      intros t' [<-|Ht']; [|apply Hrest; exact Ht']. cbn. split; [exact HX|exact H2].
    + destruct (IH (fun t' Ht' => Hok t' (or_intror Ht')) s) as [H1 H2].
      destruct (step_job job_eqb oracle j pool s) as [[s' pool'] rejected].
      cbn [fst snd] in *. split; [exact H1|].
      intros t' [<-|Ht']; [apply Hok; left; reflexivity|apply H2; exact Ht'].
Qed.

Lemma drain_pool_frame (X : J -> Prop) (pool : list (Task E ans St J)) :
  PoolOk X pool -> forall s, Rel X s (end_state (drain_pool (U := U) oracle pool s)).
Proof.
  induction pool as [|t pool IH]; intros Hok s; cbn [drain_pool].
  - apply Rel_refl.
  - destruct (Hok t (or_introl eq_refl)) as [HX Hk].
    pose proof (drain_confined (Rel_refl (eq (task_job t))) (@Rel_trans (eq (task_job t))) oracle
                  (Hk (oracle (task_job t) (task_awaits t) (task_ev t)))
                  (task_job t) (S (task_awaits t)) s) as H1.
    assert (H1' : Rel X s (fst (drain oracle
                     (task_k t (oracle (task_job t) (task_awaits t) (task_ev t)))
                     (task_job t) (S (task_awaits t)) s)))
      by (eapply Rel_mono; [|exact H1]; intros ? <-; exact HX).
    clear H1. rename H1' into H1.
    destruct (drain oracle _ (task_job t) (S (task_awaits t)) s) as [s' [e|]]; cbn [fst] in H1.
    + exact H1.
    + eapply Rel_trans; [exact H1|]. apply IH. intros t' Ht'. apply Hok. right. exact Ht'.
Qed.

Lemma settle_window_frame (X : J -> Prop) (ticks : list (Tick J U)) :
  forall pool s, PoolOk X pool ->
  Rel X s (end_state (settle_window job_eqb handle oracle ticks pool s)).
Proof.
  induction ticks as [|tick ticks IH]; intros pool s Hok.
  - destruct pool as [|t rest]; [apply Rel_refl|]. apply drain_pool_frame. exact Hok.
  - destruct pool as [|t rest] eqn:Hpool; [apply Rel_refl|].
    rewrite <- Hpool in *. replace (settle_window job_eqb handle oracle (tick :: ticks) pool s)
      with (match tick with
            | User u => settle_window job_eqb handle oracle ticks pool (handle u s)
            | Resume j =>
                match step_job job_eqb oracle j pool s with
                | (s', pool', None) => settle_window job_eqb handle oracle ticks pool' s'
                | (s', _, Some e) => Rejection e s' ticks
                end
            end) by (rewrite Hpool; reflexivity).
    destruct tick as [j|u].
    + destruct (@step_job_frame X j pool Hok s) as [H1 H2].
      destruct (step_job job_eqb oracle j pool s) as [[s' pool'] [e|]]; cbn [fst snd] in *.
      * exact H1.
      * eapply Rel_trans; [exact H1|]. apply IH. exact H2.
    + eapply Rel_trans; [apply handle_rel|]. apply IH. exact Hok.
Qed.

Lemma promise_all_frame (X : J -> Prop) (chunk : list J) (s : St) (ticks : list (Tick J U)) :
  (forall j, In j chunk -> X j) ->
  Rel X s (end_state (promise_all job_eqb handle oracle runJob chunk s ticks)).
Proof.
  intros HX. unfold promise_all. destruct (@start_all_frame X chunk HX s) as [H1 H2].
  destruct (start_all runJob chunk s) as [[s' pool] [e|]]; cbn [fst snd] in *.
  - exact H1.
  - eapply Rel_trans; [exact H1|]. apply settle_window_frame. exact H2.
Qed.

(** The windows run by [n] iterations from index [i] with concurrency [c]. *)
Definition windows_run (c i n : nat) : list (list J) :=
  map (fun k => slice (i + k * c) (i + k * c + c) jobs) (seq 0 n).

Lemma windows_run_S (c i n : nat) :
  windows_run c i (S n) = slice i (i + c) jobs :: windows_run c (i + c) n.
Proof.
  unfold windows_run. cbn [seq map]. f_equal.
  - f_equal; lia.
  - rewrite <- seq_shift, map_map. apply map_ext. intros k. f_equal; lia.
Qed.

(** With a concurrency of at least 1 the loop ends; it has run the
    first [n] windows after [i], for some [n], and has changed only
    what belongs to their jobs; it runs none when it finds the flag
    cleared. *)
Lemma windows_loop_frame (fuel : nat) :
  forall (i : nat) (s : St) (ticks : list (Tick J U)) (windows : list (list J)),
  1 <= concurrency s -> 0 < fuel -> List.length jobs < i + fuel ->
  exists le n,
    windows_loop job_eqb handle oracle isRunning concurrency runJob jobs fuel i s ticks windows
    = Some le /\
    loop_windows le = windows ++ windows_run (concurrency s) i n /\
    Rel (fun j => In j (List.concat (windows_run (concurrency s) i n))) s (loop_state le) /\
    (isRunning s = false -> le = Completed s windows).
Proof.
  induction fuel as [|fuel IH]; intros i s ticks windows HC Hpos Hfuel; [lia|].
  cbn [windows_loop].
  destruct (Nat.ltb_spec i (List.length jobs)) as [Hlt|Hge].
  - destruct (isRunning s) eqn:Hrun; cbn [negb].
    + pose proof (@promise_all_frame (fun j => In j (slice i (i + concurrency s) jobs))
                    (slice i (i + concurrency s) jobs) s ticks (fun j Hj => Hj)) as Hw.
      destruct (promise_all job_eqb handle oracle runJob (slice i (i + concurrency s) jobs) s ticks)
        as [s1 rest|e s1 rest]; cbn [end_state] in Hw.
      * pose proof (Rel_concurrency Hw) as Hc.
        destruct (IH (i + concurrency s) s1 rest (windows ++ [slice i (i + concurrency s) jobs]))
          as (le & n & Hloop & Hwin & Hrel & _); [lia|lia|lia|].
        exists le, (S n). rewrite Hloop, Hwin, windows_run_S, Hc, <- app_assoc. cbn [app].
        split; [reflexivity|]. split; [reflexivity|]. split; [|discriminate].
        cbn [List.concat]. eapply Rel_trans.
        -- eapply Rel_mono; [|exact Hw]. intros j Hj. apply in_or_app. left. exact Hj.
        -- eapply Rel_mono; [|exact Hrel]. intros j Hj. apply in_or_app. right.
           rewrite Hc in Hj. exact Hj.
      * exists (Aborted e s1 (windows ++ [slice i (i + concurrency s) jobs])), 1.
        rewrite windows_run_S. unfold windows_run. cbn [seq map loop_windows loop_state List.concat].
        rewrite app_nil_r. split; [reflexivity|]. split; [reflexivity|].
        split; [exact Hw|discriminate].
    + exists (Completed s windows), 0. unfold windows_run. cbn. rewrite app_nil_r.
      split; [reflexivity|]. split; [reflexivity|]. split; [apply Rel_refl|reflexivity].
  - exists (Completed s windows), 0. unfold windows_run. cbn. rewrite app_nil_r.
    split; [reflexivity|]. split; [reflexivity|]. split; [apply Rel_refl|reflexivity].
Qed.
End LoopFrame.

(* ===================================================================== *)
(** ** The batch loop of BatchEditor *)
(* ===================================================================== *)

Lemma nth_error_replace_nth {A : Type} (xs : list A) (i j : nat) (x : A) :
  nth_error (replace_nth xs i x) j
  = if Nat.eqb i j then option_map (fun _ => x) (nth_error xs j) else nth_error xs j.
Proof.
  revert i j. induction xs as [|y xs IH]; intros [|i] [|j]; cbn; try reflexivity.
  - destruct (i =? j); reflexivity.
  - apply IH.
Qed.

Section BatchFrame.
Import Batch.

(** From [s] to [s'] only the cells of the jobs of [X] have changed. *)
Definition only_cells_of (X : nat * nat -> Prop) (s s' : BatchWidget) : Prop :=
  (forall job, ~ X job -> cell (results s') job = cell (results s) job) /\
  concurrency s' = concurrency s.

Lemma only_cells_refl (X : nat * nat -> Prop) (s : BatchWidget) : only_cells_of X s s.
Proof. split; auto. Qed.

Lemma only_cells_trans (X : nat * nat -> Prop) (s1 s2 s3 : BatchWidget) :
  only_cells_of X s1 s2 -> only_cells_of X s2 s3 -> only_cells_of X s1 s3.
Proof.
  intros [H1 C1] [H2 C2]. split; [|congruence].
  intros job Hj. rewrite H2, H1; auto.
Qed.

Lemma only_cells_mono (X Y : nat * nat -> Prop) (s s' : BatchWidget) :
  (forall j, X j -> Y j) -> only_cells_of X s s' -> only_cells_of Y s s'.
Proof. intros Hsub [H1 C1]. split; [|exact C1]. intros job Hj. apply H1. auto. Qed.

Lemma put_cell_only (job : nat * nat) (r : EditResult) (w : BatchWidget) :
  only_cells_of (eq job) w (put_cell job r w).
Proof.
  unfold put_cell, set_cell.
  destruct (nth_error (results w) (fst job)) as [row|] eqn:Hrow; [|apply only_cells_refl].
  split; [|reflexivity]. intros [f p] Hne. unfold cell. cbn [results fst snd].
  rewrite nth_error_replace_nth.
  destruct (Nat.eqb_spec (fst job) f) as [Hf|Hf]; [|reflexivity].
  subst f. rewrite Hrow. cbn. apply js_get_set_other.
  intros Hp. apply Hne. destruct job. cbn in *. congruence.
Qed.

Lemma write_cell_confined (job : nat * nat) (r : EditResult) :
  Confined (only_cells_of (eq job)) (write_cell job r).
Proof.
  unfold write_cell. constructor. intros w.
  destruct (set_cell job r w); constructor; [apply put_cell_only|constructor].
Qed.

Lemma replace_placeholder_confined (job : nat * nat) :
  Confined (only_cells_of (eq job)) (Write (replace_placeholder job) (Ret tt) : BatchProc unit).
Proof. constructor; [intros s; split; auto|constructor]. Qed.

Lemma runJob_confined (job : nat * nat) : Confined (only_cells_of (eq job)) (runJob job).
Proof.
  unfold runJob. constructor. intros w.
  destruct (negb (isRunning w)); [constructor|].
  destruct (negb (existsb (job_eqb job) (placeholders w))); [constructor|].
  apply confined_try_finally; [apply confined_try_catch|].
  - unfold try_block. constructor. intros w1.
    apply confined_bind.
    { constructor. intros [dataUrl|]; constructor. }
    intros dataUrl. apply confined_bind.
    + apply confined_withGenericRetry.
      * unfold generateFn.
        destruct (match nth_error (split_on ","%char dataUrl) 1 with
                  | Some b => VString b
                  | None => VUndefined
                  end) as [| | | |[|a rest]| |]; try constructor.
        intros [resp|err]; constructor.
      * intros a e. constructor.
      * intros ms. constructor. intros _. constructor.
    + intros response. unfold after_generate. constructor. intros w2.
      destruct (negb (isRunning w2)); [constructor|].
      apply confined_bind; [apply confined_lift|]. intros url.
      apply confined_bind; [apply write_cell_confined|]. intros _.
      apply replace_placeholder_confined.
  - intros e. unfold catch_block.
    apply confined_bind; [apply confined_lift|]. intros msg.
    apply confined_bind; [apply write_cell_confined|]. intros _.
    apply replace_placeholder_confined.
  - unfold finally_block. constructor. intros w1.
    destruct (isRunning w1); constructor; [intros s; split; auto|constructor].
Qed.

Lemma handle_only_cells (X : nat * nat -> Prop) (u : UserEvent) (s : BatchWidget) :
  only_cells_of X s (handle u s).
Proof. destruct u. split; auto. Qed.

Lemma in_job_list (F P : nat) (job : nat * nat) :
  In job (job_list F P) <-> fst job < F /\ snd job < P.
Proof.
  destruct job as [f p]. unfold job_list. rewrite in_prod_iff, !in_seq. cbn. lia.
Qed.

Lemma cell_begin_run (lines : list string) (w : BatchWidget) (job : nat * nat) :
  In job (job_list (List.length (files w)) (List.length (firstn 20 lines))) ->
  cell (results (begin_run lines w)) job = Some pending_result.
Proof.
  intros Hj. apply in_job_list in Hj. destruct Hj as [Hf Hp].
  unfold cell, begin_run. cbn [results].
  rewrite nth_error_repeat by exact Hf.
  unfold js_get. rewrite nth_error_repeat by exact Hp. reflexivity.
Qed.

(** The windows of a run of [generateEdits] are the first windows of
    the job list, and a job of no window still has its pending cell. *)
Definition unstarted_stay_pending (lines : list string) (oracle : Oracle)
  (w : BatchWidget) (ticks : list (Tick (nat * nat) UserEvent)) : Prop :=
  let jobs := job_list (List.length (files w)) (List.length (firstn 20 lines)) in
  exists le n,
    generateEdits lines oracle w ticks = Some le /\
    loop_windows le = windows_run jobs (concurrency w) 0 n /\
    forall job, In job jobs -> ~ In job (List.concat (loop_windows le)) ->
      cell (results (loop_state le)) job = Some pending_result.

Lemma job_list_empty (F P : nat) : P = 0 \/ F = 0 -> job_list F P = [].
Proof.
  intros [-> | ->]; unfold job_list; [|reflexivity].
  induction (seq 0 F) as [|x xs IH]; [reflexivity|exact IH].
Qed.

Lemma unstarted_stay_pending_holds (lines : list string) (oracle : Oracle)
  (w : BatchWidget) (ticks : list (Tick (nat * nat) UserEvent)) :
  1 <= concurrency w -> unstarted_stay_pending lines oracle w ticks.
Proof.
  intros HC. unfold unstarted_stay_pending, generateEdits. cbn [set_prompts prompts files].
  destruct ((List.length (firstn 20 lines) =? 0) || (List.length (files w) =? 0))%bool eqn:Hempty.
  - exists (Completed (set_prompts (firstn 20 lines) w) []), 0.
    split; [reflexivity|]. split; [reflexivity|].
    intros job Hj. rewrite job_list_empty in Hj; [destruct Hj|].
    apply orb_true_iff in Hempty. destruct Hempty as [H|H]; apply Nat.eqb_eq in H; auto.
  - cbn [begin_run files prompts].
    set (jobs := job_list (List.length (files w)) (List.length (firstn 20 lines))).
    destruct (@windows_loop_frame _ _ _ _ _ job_eqb handle oracle isRunning concurrency runJob jobs
                only_cells_of only_cells_refl only_cells_trans only_cells_mono
                (fun X s s' H => proj2 H) handle_only_cells runJob_confined
                (S (List.length jobs)) 0 (begin_run lines w) ticks [])
      as (le & n & Hloop & Hwin & Hrel & _); [exact HC|lia|lia|].
    fold (begin_run lines w). rewrite Hloop. cbn [app begin_run concurrency] in Hwin, Hrel.
    assert (Hcells : forall job, In job jobs -> ~ In job (List.concat (loop_windows le)) ->
                     cell (results (loop_state le)) job = Some pending_result).
    { intros job Hj Hnot. destruct Hrel as [Hrel _]. rewrite Hrel.
      - apply cell_begin_run. exact Hj.
      - rewrite <- Hwin. exact Hnot. }
    destruct le as [s windows|e s windows].
    + exists (Completed (set_running false s) windows), n. auto.
    + exists (Aborted e s windows), n. auto.
Qed.
End BatchFrame.

(* ===================================================================== *)
(** ** Cancellation before a window: claims *)
(* ===================================================================== *)

(** A pose widget: the windows of a run are the first windows of the
    job list and, when the generate button is not clicked again during
    the run, a job of no window has no entry in the final array. *)
Definition unstarted_are_absent (POSES : list string) (oracle : Pose.Oracle)
  (w : Pose.PoseWidget) (ticks : list (Tick nat Pose.UserEvent)) : Prop :=
  exists s n,
    Pose.generatePoses POSES oracle w ticks
    = Some (Completed s (windows_from POSES (Pose.concurrency w) 0 n)) /\
    (Forall no_restart ticks ->
     forall j, j < List.length POSES ->
       ~ In j (List.concat (windows_from POSES (Pose.concurrency w) 0 n)) ->
       js_get (Pose.results s) j = None).

Lemma unstarted_are_absent_holds (POSES : list string) (oracle : Pose.Oracle)
  (w : Pose.PoseWidget) (ticks : list (Tick nat Pose.UserEvent)) :
  1 <= Pose.concurrency w -> unstarted_are_absent POSES oracle w ticks.
Proof.
  intros HC.
  destruct (generatePoses_ends POSES oracle w ticks HC) as (w' & n & Hrun & _ & Hstrong).
  exists (Pose.stop_running w'), n. split; [exact Hrun|].
  intros Hnr j Hj Hnot. destruct (Hstrong Hnr) as (Inv & Hend & _).
  rewrite concat_windows_from, in_seq in Hnot.
  cbn [Pose.stop_running Pose.results].
  destruct (Pose.isRunning w') eqn:Hrun'.
  - specialize (Hend eq_refl). lia.
  - apply (wi_stopped Inv Hrun' j). left. lia.
Qed.

(** C8 (amended). When the loop of either widget finds the flag
    cleared at its check it starts no further window.  The jobs of the
    windows not run are never started and nothing is written for them:
    in BatchEditor, whose stop button only clears the flag, their cells
    are still pending at the end of the run; in the pose widgets, where
    the flag is cleared by [reset()], which also empties the array,
    they have no entry, provided the generate button is not clicked
    again during the run. *)
Theorem cancelled_windows_are_not_started
  (POSES : list string) (pose_oracle : Pose.Oracle) (pw : Pose.PoseWidget)
  (pose_ticks : list (Tick nat Pose.UserEvent))
  (lines : list string) (batch_oracle : Batch.Oracle) (bw : Batch.BatchWidget)
  (batch_ticks : list (Tick (nat * nat) Batch.UserEvent)) :
  1 <= Pose.concurrency pw ->
  1 <= Batch.concurrency bw ->
  (forall jobs fuel i w ticks windows,
     Pose.isRunning w = false ->
     windows_loop Nat.eqb (Pose.handle POSES) pose_oracle Pose.isRunning Pose.concurrency Pose.runJob
       jobs (S fuel) i w ticks windows = Some (Completed w windows)) /\
  (forall jobs fuel i w ticks windows,
     Batch.isRunning w = false ->
     windows_loop Batch.job_eqb Batch.handle batch_oracle Batch.isRunning Batch.concurrency
       Batch.runJob jobs (S fuel) i w ticks windows = Some (Completed w windows)) /\
  unstarted_are_absent POSES pose_oracle pw pose_ticks /\
  unstarted_stay_pending lines batch_oracle bw batch_ticks.
Proof.
  intros HP HB. split; [|split; [|split]].
  - intros. apply loop_breaks_when_cleared. assumption.
  - intros. apply loop_breaks_when_cleared. assumption.
  - exact (@unstarted_are_absent_holds POSES pose_oracle pw pose_ticks HP).
  - exact (@unstarted_stay_pending_holds lines batch_oracle bw batch_ticks HB).
Qed.

Definition two_files : Batch.BatchWidget :=
  {| Batch.files := ["one.png"; "two.png"]%string; Batch.prompts := [];
     Batch.isRunning := false; Batch.concurrency := 2; Batch.results := [];
     Batch.placeholders := []; Batch.completedJobs := 0 |}.

Definition batch_all_fulfilled : Batch.Oracle :=
  fun _ _ ev =>
    match ev with
    | Batch.BlobToDataUrl _ => Batch.BlobLoaded "data:image/png;base64,AAAA"
    | Batch.GenerateImageEdit _ _ => ApiFulfilled ok_response
    | Batch.Sleep _ => tt
    end.

(** Two files and two prompts, concurrency 2; the stop button is
    clicked once the first job of the first window is done. *)
Example stop_during_first_window :
  exists s,
    Batch.generateEdits ["p"; "q"]%string batch_all_fulfilled two_files
      [Resume (0, 0); Resume (0, 0); User Batch.ClickStop; Resume (0, 1); Resume (0, 1)]
    = Some (Completed s [[(0, 0); (0, 1)]]) /\
    map (map (option_map Batch.status)) (Batch.results s)
    = [[Some StatusDone; Some StatusPending]; [Some StatusPending; Some StatusPending]].
Proof. eexists. vm_compute. repeat split. Qed.

Lemma cancelled_windows_are_not_started_witness :
  1 <= Pose.concurrency idle_widget /\
  1 <= Batch.concurrency two_files /\
  (forall jobs fuel i w ticks windows,
     Pose.isRunning w = false ->
     windows_loop Nat.eqb (Pose.handle three_poses) all_fulfilled Pose.isRunning Pose.concurrency Pose.runJob
       jobs (S fuel) i w ticks windows = Some (Completed w windows)) /\
  (forall jobs fuel i w ticks windows,
     Batch.isRunning w = false ->
     windows_loop Batch.job_eqb Batch.handle batch_all_fulfilled Batch.isRunning Batch.concurrency
       Batch.runJob jobs (S fuel) i w ticks windows = Some (Completed w windows)) /\
  unstarted_are_absent three_poses all_fulfilled idle_widget [User Pose.ClickStartOver] /\
  unstarted_stay_pending ["p"; "q"]%string batch_all_fulfilled two_files
    [Resume (0, 0); Resume (0, 0); User Batch.ClickStop].
Proof.
  split; [cbn; lia|]. split; [cbn; lia|].
  apply (@cancelled_windows_are_not_started three_poses all_fulfilled idle_widget
           [User Pose.ClickStartOver] ["p"; "q"]%string batch_all_fulfilled two_files
           [Resume (0, 0); Resume (0, 0); User Batch.ClickStop]); cbn; lia.
Defined.

(** C8, as stated, fails for the pose widgets.  Three poses,
    concurrency 2: the entry of job 2 (the second window) is pending
    when the run begins; the start-over button is clicked during the
    first window; job 2 is never started, and at the end of the run its
    entry is not pending but gone. *)
Lemma unstarted_entry_is_gone_after_reset :
  js_get (Pose.results (Pose.begin_run three_poses idle_widget)) 2
  = Some (Pose.pending_result "c") /\
  exists s,
    Pose.generatePoses three_poses all_fulfilled idle_widget [User Pose.ClickStartOver]
    = Some (Completed s [[0; 1]]) /\
    js_get (Pose.results s) 2 = None.
Proof. split; [reflexivity|]. eexists. vm_compute. repeat split. Qed.

(** What the amended claim leaves out.  Three poses, concurrency 2:
    the start-over button is clicked while the first window is
    awaited and then, before its requests have settled, the generate
    button is clicked again.  The second call sets the flag again, so
    the loop of the cancelled run passes its check and starts the
    second window, and its jobs write into the array of the second
    run. *)
Example second_click_revives_cancelled_loop :
  exists s,
    Pose.generatePoses three_poses all_fulfilled idle_widget
      [User Pose.ClickStartOver; User Pose.ClickGenerate; Resume 0; Resume 1; Resume 2]
    = Some (Completed s [[0; 1]; [2]]) /\
    map (option_map Pose.status) (Pose.results s)
    = [Some StatusDone; Some StatusDone; Some StatusDone].
Proof. eexists. vm_compute. repeat split. Qed.

(* ===================================================================== *)
(** ** The retry helpers: the shape and the extent of a run *)
(* ===================================================================== *)

(** The trace of a run that retries after the errors [errs], from
    attempt [a] on: every invocation but the last is followed by one
    call of the observer, with the attempt number and the error just
    caught, and by one wait of [d] milliseconds. *)
Fixpoint retries_trace (d a : Z) (errs : list JsValue) : list RetryE :=
  match errs with
  | [] => [CallFn]
  | e :: errs' => CallFn :: OnRetry a e :: Delay d :: retries_trace d (a + 1) errs'
  end.

(** The time spent waiting, in milliseconds. *)
Fixpoint total_delay (t : list RetryE) : Z :=
  match t with
  | [] => 0
  | Delay ms :: t' => ms + total_delay t'
  | _ :: t' => total_delay t'
  end.

(** Invocation [k] is rejected with an error the policy retries. *)
Definition retryable_at {T : Type} (script : Script T) (cls : JsValue -> Completion bool)
  (k : nat) : Prop :=
  exists e, script k = Rejected e /\ cls e = Normal true.

Lemma total_delay_retries_trace (d a : Z) (errs : list JsValue) :
  total_delay (retries_trace d a errs) = (Z.of_nat (List.length errs) * d)%Z.
Proof.
  revert a. induction errs as [|e errs IH]; intros a; [reflexivity|].
  cbn [retries_trace total_delay List.length]. rewrite IH. lia.
Qed.

Lemma calls_retries_trace (d a : Z) (errs : list JsValue) :
  calls (retries_trace d a errs) = S (List.length errs).
Proof.
  revert a. induction errs as [|e errs IH]; intros a; [reflexivity|].
  cbn [retries_trace List.length]. change (calls (CallFn :: OnRetry a e :: Delay d :: ?t))
    with (S (calls t)). rewrite IH. reflexivity.
Qed.

Section LoopShape.
Context {T : Type}.
Variables (R d : Z) (script : Script T).
Variable cls : JsValue -> Completion bool.
Variable run : Z -> JsValue -> nat -> list RetryE * Completion (LoopExit T).
Hypothesis run_unfold : forall a le n, run a le n = loop_step R d script cls run a le n.
Local Open Scope Z_scope.

(** The trace of an attempt loop that is entered. *)
Lemma run_shape_aux : forall (m : nat) (a : Z) (le : JsValue) (n : nat),
  Z.to_nat (R + 2 - a) = m -> a <= R + 1 ->
  exists errs,
    fst (run a le n) = retries_trace d a errs /\
    a + Z.of_nat (List.length errs) <= R + 1 /\
    forall i e, nth_error errs i = Some e -> script (n + i)%nat = Rejected e.
Proof.
  induction m as [|m IH]; intros a le n Hm Hle; [lia|].
  rewrite run_unfold. unfold loop_step.
  destruct (Z.leb_spec a (R + 1)) as [_|Hgt]; [|lia].
  assert (Hnone : exists errs : list JsValue,
            [CallFn] = retries_trace d a errs /\
            a + Z.of_nat (List.length errs) <= R + 1 /\
            forall i e, nth_error errs i = Some e -> script (n + i)%nat = Rejected e).
  { exists []. split; [reflexivity|]. split; [cbn; lia|]. intros [|i] e; discriminate. }
  destruct (script n) as [v|e] eqn:Hs; [exact Hnone|].
  destruct (cls e) as [b|err]; [|exact Hnone].
  destruct (b && (a <=? R))%bool eqn:Hb; [|exact Hnone].
  apply andb_true_iff in Hb. destruct Hb as [_ Hb]. apply Z.leb_le in Hb.
  destruct (IH (a + 1) e (S n)) as (errs & Ht & Hlen & Herrs); [lia|lia|].
  destruct (run (a + 1) e (S n)) as [t o]. cbn [fst] in *.
  exists (e :: errs). split; [cbn [retries_trace]; rewrite Ht; reflexivity|].
  split; [cbn [List.length]; lia|].
  intros [|i] e' Hi; cbn in Hi.
  - injection Hi as <-. rewrite Nat.add_0_r. exact Hs.
  - replace (n + S i)%nat with (S n + i)%nat by lia. apply Herrs. exact Hi.
Qed.

(** Invocation [k] is the last one of a run with bound [R]: the bound
    allows it, every invocation before it was rejected with an error
    the policy retries, and either the bound allows no other or it was
    not rejected with such an error. *)
Definition last_invocation (k : nat) : Prop :=
  Z.of_nat k <= R /\
  (forall i, (i < k)%nat -> retryable_at script cls i) /\
  (Z.of_nat k = R \/ ~ retryable_at script cls k).

Lemma last_invocation_unique (k k' : nat) :
  last_invocation k -> last_invocation k' -> k = k'.
Proof.
  intros (Hk & Hbefore & Hlast) (Hk' & Hbefore' & Hlast').
  destruct (Nat.lt_trichotomy k k') as [Hlt|[Heq|Hgt]]; [|exact Heq|].
  - destruct Hlast as [H|H]; [lia|]. exfalso. apply H, Hbefore'. exact Hlt.
  - destruct Hlast' as [H|H]; [lia|]. exfalso. apply H, Hbefore. exact Hgt.
Qed.

(** How long an attempt loop goes on: as long as the invocations are
    rejected with an error the policy retries and the bound allows. *)
Lemma run_extent (le : JsValue) :
  0 <= R ->
  exists k, calls (fst (run 1 le 0)) = S k /\ last_invocation k.
Proof.
  intros HR.
  pose proof (@run_summary T R d script cls run run_unfold 1 le 0) as Sm.
  pose proof (ls_last Sm ltac:(lia)) as HL. pose proof (ls_bound Sm) as HB.
  pose proof (ls_entered Sm ltac:(lia)) as HE. cbn [Nat.add] in HL.
  destruct (calls (fst (run 1 le 0))) as [|k] eqn:Hcalls; [lia|].
  exists k. split; [reflexivity|]. split; [lia|]. split.
  - intros i Hi. destruct (ls_earlier Sm (j := i)) as (e & He & Hc & _); [lia|lia|].
    exists e. auto.
  - destruct (Z.eq_dec (Z.of_nat k) R) as [Heq|Hne]; [left; exact Heq|right].
    replace (S k - 1)%nat with k in HL by lia.
    intros (e & He & Hc).
    destruct (snd (run 1 le 0)) as [[v|le']|x].
    + congruence.
    + exact HL.
    + destruct HL as (e' & He' & [Hthrow|(_ & [Hfalse|Hex])]).
      * congruence.
      * congruence.
      * lia.
Qed.
(** An error thrown out of the attempt loop was classified first: it
    is a rejection the policy accepted, or what the policy threw. *)
Lemma run_thrown_classified : forall (m : nat) (a : Z) (le : JsValue) (n : nat),
  Z.to_nat (R + 2 - a) = m ->
  (forall x, snd (run a le n) = Thrown x ->
     exists e, cls e = Thrown x \/ (x = e /\ exists b, cls e = Normal b)) /\
  (forall le', snd (run a le n) = Normal (FellThrough le') -> R + 1 < a).
Proof.
  induction m as [|m IH]; intros a le n Hm; rewrite run_unfold; unfold loop_step.
  - destruct (Z.leb_spec a (R + 1)); [lia|]. cbn [snd]. split; [discriminate|]. intros; lia.
  - destruct (Z.leb_spec a (R + 1)) as [Hle|Hgt]; [|cbn [snd]; split; [discriminate|intros; lia]].
    destruct (script n) as [v|e]; [cbn [snd]; split; discriminate|].
    destruct (cls e) as [b|err] eqn:Hc.
    + destruct (b && (a <=? R))%bool eqn:Hb.
      * apply andb_true_iff in Hb. destruct Hb as [_ Hb]. apply Z.leb_le in Hb.
        destruct (IH (a + 1) e (S n)) as [H1 H2]; [lia|].
        destruct (run (a + 1) e (S n)) as [t o]. cbn [snd] in *. split.
        -- exact H1.
        -- intros le' Hle'. specialize (H2 le' Hle'). lia.
      * cbn [snd]. split; [|discriminate]. intros x Hx. injection Hx as <-.
        exists e. right. split; [reflexivity|]. exists b. exact Hc.
    + cbn [snd]. split; [|discriminate]. intros x Hx. injection Hx as <-.
      exists e. left. exact Hc.
Qed.
End LoopShape.

(** A run retried in order: its trace is [retries_trace] for the errors
    of its failed invocations, at most [R] of them, and it has waited
    [d] milliseconds after each of them. *)
Definition retried_in_order {T : Type} (R d : Z) (script : Script T)
  (run : list RetryE * Completion T) : Prop :=
  exists errs : list JsValue,
    fst run = retries_trace d 1 errs /\
    (Z.of_nat (List.length errs) <= R)%Z /\
    (forall i e, nth_error errs i = Some e -> script i = Rejected e) /\
    total_delay (fst run) = (Z.of_nat (List.length errs) * d)%Z.

Lemma shape_retried_in_order {T : Type} (R d : Z) (script : Script T)
  (cls : JsValue -> Completion bool)
  (run : Z -> JsValue -> nat -> list RetryE * Completion (LoopExit T)) :
  (forall a le n, run a le n = loop_step R d script cls run a le n) ->
  (0 <= R)%Z ->
  retried_in_order R d script (fst (run 1%Z VUndefined 0%nat), finish (snd (run 1%Z VUndefined 0%nat))).
Proof.
  intros Hun HR.
  destruct (@run_shape_aux T R d script cls run Hun (Z.to_nat (R + 2 - 1)) 1%Z VUndefined 0%nat)
    as (errs & Ht & Hlen & Herrs); [reflexivity|lia|].
  exists errs. cbn [fst]. split; [exact Ht|]. split; [lia|]. split.
  - intros i e Hi. apply (Herrs i e Hi).
  - rewrite Ht. apply total_delay_retries_trace.
Qed.

(** X1. With a bound [0 <= R], a run of either helper is a sequence of
    invocations in which every invocation but the last is followed by
    exactly one call of [onRetry], with the attempt number and the
    error that invocation was rejected with, and then by exactly one
    wait of [delayMs]; there are at most [R] such retries, so the run
    waits (number of retries) * [delayMs] milliseconds in all. *)
Theorem retries_are_observed_then_delayed (T : Type) (JSON_parse : string -> option JsValue)
  (R d : Z) (script : Script T) :
  (0 <= R)%Z ->
  retried_in_order R d script (runWithRetry JSON_parse R d script) /\
  retried_in_order R d script (runWithGenericRetry R d script).
Proof.
  intros HR. rewrite runWithRetry_eq, runWithGenericRetry_eq. split.
  - exact (@shape_retried_in_order T R d script _ _ (withRetry_run_unfold JSON_parse R d script) HR).
  - exact (@shape_retried_in_order T R d script _ _ (withGenericRetry_run_unfold R d script) HR).
Qed.

Lemma retries_are_observed_then_delayed_witness :
  (0 <= 3)%Z /\
  retried_in_order 3 2000 script_two_429_then_ok
    (runWithRetry sample_JSON_parse 3 2000 script_two_429_then_ok) /\
  retried_in_order 3 2000 script_two_429_then_ok
    (runWithGenericRetry 3 2000 script_two_429_then_ok).
Proof.
  split; [lia|].
  apply (@retries_are_observed_then_delayed nat sample_JSON_parse 3 2000 script_two_429_then_ok).
  lia.
Defined.

(** X2. With a negative bound neither helper invokes the operation,
    calls the observer or waits: the loop is not entered and the
    helper throws the initial value of [lastError], [undefined]. *)
Theorem negative_bound_throws_undefined (T : Type) (JSON_parse : string -> option JsValue)
  (R d : Z) (script : Script T) :
  (R < 0)%Z ->
  runWithRetry JSON_parse R d script = ([], Thrown VUndefined) /\
  runWithGenericRetry R d script = ([], Thrown VUndefined).
Proof.
  intros HR. rewrite runWithRetry_eq, runWithGenericRetry_eq.
  rewrite withRetry_run_unfold, withGenericRetry_run_unfold. unfold loop_step.
  destruct (Z.leb_spec 1 (R + 1)); [lia|]. split; reflexivity.
Qed.

Lemma negative_bound_throws_undefined_witness :
  (-1 < 0)%Z /\
  runWithRetry sample_JSON_parse (-1) 2000 script_always_ok = ([], Thrown VUndefined) /\
  runWithGenericRetry (-1) 2000 script_always_ok = ([], Thrown VUndefined).
Proof.
  split; [lia|].
  apply (@negative_bound_throws_undefined nat sample_JSON_parse (-1) 2000 script_always_ok).
  lia.
Defined.

Lemma helper_runs_agree {T : Type} (JSON_parse : string -> option JsValue)
  (R d : Z) (script : Script T) :
  (forall k e, script k = Rejected e -> is429 JSON_parse e = Normal true) ->
  forall (m : nat) (a : Z) (le : JsValue) (n : nat),
  Z.to_nat (R + 2 - a) = m ->
  withRetry_run JSON_parse R d script a le n = withGenericRetry_run R d script a le n.
Proof.
  intros Hall. induction m as [|m IH]; intros a le n Hm;
    rewrite withRetry_run_unfold, withGenericRetry_run_unfold; unfold loop_step, always_retryable.
  - destruct (Z.leb_spec a (R + 1)); [lia|reflexivity].
  - destruct (Z.leb_spec a (R + 1)); [|reflexivity].
    destruct (script n) as [v|e] eqn:Hs; [reflexivity|].
    rewrite (Hall n e Hs).
    destruct (true && (a <=? R)%Z)%bool; [|reflexivity].
    rewrite (IH (a + 1)%Z e (S n)); [reflexivity|lia].
Qed.

(** X3. On an operation that is only ever rejected with rate-limit
    errors (errors [withRetry] classifies as code 429), [withRetry] and
    [withGenericRetry] behave alike: same invocations, same observer
    calls, same waits, same result or thrown error. *)
Theorem helpers_agree_on_rate_limits (T : Type) (JSON_parse : string -> option JsValue)
  (R d : Z) (script : Script T) :
  (forall k e, script k = Rejected e -> is429 JSON_parse e = Normal true) ->
  runWithRetry JSON_parse R d script = runWithGenericRetry R d script.
Proof.
  intros Hall. rewrite runWithRetry_eq, runWithGenericRetry_eq.
  rewrite (@helper_runs_agree T JSON_parse R d script Hall (Z.to_nat (R + 2 - 1)) 1%Z VUndefined 0%nat
             eq_refl).
  reflexivity.
Qed.

Lemma is429_rate_limit_error : is429 sample_JSON_parse rate_limit_error = Normal true.
Proof. vm_compute. reflexivity. Qed.

Lemma helpers_agree_on_rate_limits_witness :
  (forall k e, script_two_429_then_ok k = Rejected e -> is429 sample_JSON_parse e = Normal true) /\
  runWithRetry sample_JSON_parse 3 2000 script_two_429_then_ok
  = runWithGenericRetry 3 2000 script_two_429_then_ok.
Proof.
  assert (H : forall k e, script_two_429_then_ok k = Rejected e ->
                          is429 sample_JSON_parse e = Normal true).
  { intros k e. unfold script_two_429_then_ok. destruct (k <? 2)%nat; [|discriminate].
    intros He. injection He as <-. exact is429_rate_limit_error. }
  split; [exact H|].
  exact (@helpers_agree_on_rate_limits nat sample_JSON_parse 3 2000 script_two_429_then_ok H).
Defined.

(** A run that went on exactly as long as it had to: its number of
    invocations is one more than the index of the last invocation, the
    one index [k] with [k <= R] before which every invocation was
    rejected with an error the policy retries and at which the bound
    was used up or the invocation was not. *)
Definition retried_while_retryable {T : Type} (R : Z) (script : Script T)
  (cls : JsValue -> Completion bool) (run : list RetryE * Completion T) : Prop :=
  (exists k, calls (fst run) = S k /\ last_invocation R script cls k) /\
  (forall k, last_invocation R script cls k -> calls (fst run) = S k).

Lemma extent_retried_while_retryable {T : Type} (R d : Z) (script : Script T)
  (cls : JsValue -> Completion bool)
  (run : Z -> JsValue -> nat -> list RetryE * Completion (LoopExit T)) :
  (forall a le n, run a le n = loop_step R d script cls run a le n) ->
  (0 <= R)%Z ->
  retried_while_retryable R script cls
    (fst (run 1%Z VUndefined 0%nat), finish (snd (run 1%Z VUndefined 0%nat))).
Proof.
  intros Hun HR.
  destruct (@run_extent T R d script cls run Hun VUndefined HR) as (k & Hcalls & Hlast).
  split; cbn [fst].
  - exists k. split; [exact Hcalls|exact Hlast].
  - intros k' Hlast'. rewrite Hcalls. f_equal.
    exact (last_invocation_unique Hlast Hlast').
Qed.

(** X4. With a bound [0 <= R], the number of invocations a helper
    makes is determined by the operation and the bound: it is at least
    1 and at most [R + 1], and the helper invokes again exactly while
    the invocation just made was rejected with a retryable error (a 429
    error for [withRetry], any error for [withGenericRetry]) and fewer
    than [R + 1] invocations were made. *)
Theorem retries_last_while_retryable (T : Type) (JSON_parse : string -> option JsValue)
  (R d : Z) (script : Script T) :
  (0 <= R)%Z ->
  retried_while_retryable R script (is429 JSON_parse) (runWithRetry JSON_parse R d script) /\
  retried_while_retryable R script always_retryable (runWithGenericRetry R d script).
Proof.
  intros HR. rewrite runWithRetry_eq, runWithGenericRetry_eq. split.
  - exact (@extent_retried_while_retryable T R d script _ _
             (withRetry_run_unfold JSON_parse R d script) HR).
  - exact (@extent_retried_while_retryable T R d script _ _
             (withGenericRetry_run_unfold R d script) HR).
Qed.

Lemma retries_last_while_retryable_witness :
  (0 <= 3)%Z /\
  retried_while_retryable 3 script_two_429_then_ok (is429 sample_JSON_parse)
    (runWithRetry sample_JSON_parse 3 2000 script_two_429_then_ok) /\
  retried_while_retryable 3 script_two_429_then_ok always_retryable
    (runWithGenericRetry 3 2000 script_two_429_then_ok).
Proof.
  split; [lia|].
  apply (@retries_last_while_retryable nat sample_JSON_parse 3 2000 script_two_429_then_ok).
  lia.
Defined.

(** Two rate-limit errors, then success, with three retries allowed:
    three invocations. *)
Example three_invocations :
  calls (fst (runWithRetry sample_JSON_parse 3 2000 script_two_429_then_ok)) = 3%nat /\
  calls (fst (runWithRetry sample_JSON_parse 1 2000 script_two_429_then_ok)) = 2%nat.
Proof. vm_compute. split; reflexivity. Qed.

(* ===================================================================== *)
(** ** [parseAndFormatErrorMessage]: the texts it returns *)
(* ===================================================================== *)

Lemma append_cancel_l (a b c : string) : (a ++ b = a ++ c)%string -> b = c.
Proof.
  induction a as [|ch a IH]; cbn; intros H; [exact H|].
  injection H as H. exact (IH H).
Qed.

Lemma get_member_non_nullish (v : JsValue) (name : string) :
  nullish v = false -> exists x, get_member v name = Normal x.
Proof. destruct v; cbn; intros H; try discriminate; eexists; reflexivity. Qed.

Lemma truthy_non_nullish (v : JsValue) : truthy v = true -> nullish v = false.
Proof. destruct v; cbn; intros H; try discriminate; reflexivity. Qed.

Lemma or_else_non_nullish (v d : JsValue) : nullish d = false -> nullish (or_else v d) = false.
Proof.
  intros Hd. unfold or_else. destruct (truthy v) eqn:Hv; [|exact Hd].
  apply truthy_non_nullish. exact Hv.
Qed.

(** [errBody?.error?.code] read the way the formatter reads it. *)
Lemma code_read_alike (errBody : JsValue) :
  match get_member errBody "error" with
  | Thrown _ => opt_member (opt_member errBody "error") "code" = VUndefined
  | Normal v => get_member (or_else v (VObject [])) "code"
                = Normal (opt_member (opt_member errBody "error") "code")
  end.
Proof.
  destruct errBody as [| |b|x|s|l|props]; cbn; try reflexivity.
  unfold or_else. destruct (own_property props "error") as [| |b|x|s|l|ps]; cbn; try reflexivity.
  - destruct b; reflexivity.
  - destruct (negb (PrimFloat.eqb x 0) && PrimFloat.eqb x x)%bool; reflexivity.
  - destruct (negb (String.eqb s EmptyString)); reflexivity.
Qed.

Section FormatterFacts.
Variable JSON_parse : string -> option JsValue.
Variable to_string : JsValue -> option string.
Local Open Scope string_scope.

Lemma format_parsed_quota (base m : string) :
  format_parsed JSON_parse to_string base m
    = Normal (base ++ " Quota limit reached after multiple retries.")%string
  <-> exists errBody, JSON_parse m = Some errBody /\
        strict_eq_number (opt_member (opt_member errBody "error") "code") 429 = true.
Proof.
  unfold format_parsed. destruct (JSON_parse m) as [errBody|].
  2:{ split; [discriminate|]. intros (b & Hb & _). discriminate. }
  pose proof (code_read_alike errBody) as Hcode.
  destruct (get_member errBody "error") as [v|x].
  2:{ split; [discriminate|]. intros (b & Hb & H). injection Hb as <-.
      rewrite Hcode in H. discriminate. }
  rewrite Hcode.
  destruct (get_member_non_nullish (or_else v (VObject [])) "message"
              (or_else_non_nullish v (VObject []) eq_refl)) as (m' & ->).
  set (code := opt_member (opt_member errBody "error") "code").
  destruct (strict_eq_number code 429) eqn:H429.
  { split; [|reflexivity]. intros _. exists errBody. split; [reflexivity|exact H429]. }
  assert (Hno : ~ exists b, Some errBody = Some b /\
                  strict_eq_number (opt_member (opt_member b "error") "code") 429 = true).
  { intros (b & Hb & H). injection Hb as <-. fold code in H. congruence. }
  split; [|intros H; destruct (Hno H)].
  intros H. exfalso.
  destruct (strict_eq_number code 400 || strict_eq_number code 403)%bool.
  { injection H as H. apply append_cancel_l in H. discriminate. }
  destruct (strict_eq_number code 500).
  { injection H as H. apply append_cancel_l in H. discriminate. }
  destruct (to_string _); [|discriminate].
  injection H as H. apply append_cancel_l in H. discriminate.
Qed.

Lemma parseAndFormat_quota_iff (e : JsValue) (context : string) :
  parseAndFormatErrorMessage JSON_parse to_string e context = Normal (quota_message context)
  <-> is429 JSON_parse e = Normal true.
Proof.
  unfold parseAndFormatErrorMessage, is429, quota_message.
  destruct (get_member e "message") as [v|x]; [|split; discriminate].
  assert (Hother : forall s : string,
            Normal ((context ++ " failed.") ++ " An unexpected error occurred.")%string
              = Normal ((context ++ " failed.") ++ " Quota limit reached after multiple retries.")%string
            <-> @Normal bool false = Normal true).
  { intros _. split; [|discriminate]. intros H. injection H as H.
    apply append_cancel_l in H. discriminate. }
  destruct v as [| |b|x|m|l|props]; try exact (Hother EmptyString).
  pose proof (format_parsed_quota (context ++ " failed.") m) as Hq.
  destruct (format_parsed JSON_parse to_string (context ++ " failed.") m) as [s|err].
  - rewrite Hq. destruct (JSON_parse m) as [errBody|].
    + split.
      * intros (b & Hb & H). injection Hb as <-. rewrite H. reflexivity.
      * intros H. exists errBody. split; [reflexivity|]. injection H as H. exact H.
    + split; [intros (b & Hb & _); discriminate|discriminate].
  - split.
    + intros H. injection H as H. apply append_cancel_l in H. discriminate.
    + intros H. exfalso. destruct (JSON_parse m) as [errBody|]; [|discriminate].
      injection H as H.
      assert (Hex : exists b, Some errBody = Some b /\
                strict_eq_number (opt_member (opt_member b "error") "code") 429 = true).
      { exists errBody. split; [reflexivity|exact H]. }
      apply Hq in Hex. discriminate.
Qed.

Lemma parseAndFormat_non_nullish (e : JsValue) (context : string) :
  nullish e = false ->
  exists detail : string,
    parseAndFormatErrorMessage JSON_parse to_string e context
    = Normal ((context ++ " failed.") ++ detail)%string.
Proof.
  intros He. unfold parseAndFormatErrorMessage.
  destruct (get_member_non_nullish e "message" He) as (v & ->).
  assert (Hother : exists detail : string,
            Normal ((context ++ " failed.") ++ " An unexpected error occurred.")%string
            = Normal ((context ++ " failed.") ++ detail)%string).
  { eexists. reflexivity. }
  destruct v as [| |b|x|m|l|props]; try exact Hother.
  destruct (format_parsed JSON_parse to_string (context ++ " failed.") m) as [s|err] eqn:Hf;
    [|eexists; reflexivity].
  unfold format_parsed in Hf.
  destruct (JSON_parse m) as [errBody|]; [|discriminate].
  destruct (get_member errBody "error") as [v|x]; [|discriminate].
  destruct (get_member (or_else v (VObject [])) "code") as [code|x]; [|discriminate].
  destruct (get_member (or_else v (VObject [])) "message") as [m'|x]; [|discriminate].
  destruct (strict_eq_number code 429); [injection Hf as <-; eexists; reflexivity|].
  destruct (strict_eq_number code 400 || strict_eq_number code 403)%bool;
    [injection Hf as <-; eexists; reflexivity|].
  destruct (strict_eq_number code 500); [injection Hf as <-; eexists; reflexivity|].
  destruct (to_string _); [|discriminate].
  injection Hf as <-. eexists. reflexivity.
Qed.

Lemma is429_non_nullish (e : JsValue) :
  nullish e = false -> exists b, is429 JSON_parse e = Normal b.
Proof.
  intros He. unfold is429. destruct (get_member_non_nullish e "message" He) as (v & ->).
  destruct v; try (eexists; reflexivity).
  destruct (JSON_parse _); eexists; reflexivity.
Qed.

Lemma is429_nullish (e : JsValue) :
  nullish e = true -> is429 JSON_parse e = Thrown (TypeError_read "message").
Proof. destruct e; cbn; intros H; try discriminate; reflexivity. Qed.

(** What [withRetry] throws, with a bound [0 <= R], is never [null] or
    [undefined]: it is an error the classification accepted, or the
    [TypeError] the classification threw. *)
Lemma withRetry_throws_non_nullish {T : Type} (R d : Z) (script : Script T) (x : JsValue) :
  (0 <= R)%Z ->
  snd (runWithRetry JSON_parse R d script) = Thrown x ->
  nullish x = false.
Proof.
  intros HR. rewrite runWithRetry_eq. cbn [snd].
  pose proof (withRetry_summary JSON_parse R d script) as S.
  pose proof (ls_last S ltac:(lia)) as HL.
  destruct (@run_thrown_classified T R d script _ _ (withRetry_run_unfold JSON_parse R d script)
              (Z.to_nat (R + 2 - 1)) 1%Z VUndefined 0%nat eq_refl) as [Hc _].
  destruct (snd (withRetry_run JSON_parse R d script 1 VUndefined 0)) as [[v|le]|y];
    cbn [finish]; [discriminate|destruct HL|].
  intros Hx. injection Hx as ->. destruct (Hc x eq_refl) as (e & [Hthrow|(-> & b & Hb)]).
  - destruct (nullish e) eqn:Hn.
    + rewrite (is429_nullish e Hn) in Hthrow. injection Hthrow as <-. reflexivity.
    + destruct (is429_non_nullish e Hn) as (b & Hb). congruence.
  - destruct (nullish e) eqn:Hn; [|reflexivity].
    rewrite (is429_nullish e Hn) in Hb. discriminate.
Qed.
End FormatterFacts.

(** X5. [parseAndFormatErrorMessage] returns, for every error value
    other than [null] and [undefined], a text that starts with
    [<context> failed.]: neither unparseable message text, nor a parsed
    body without an [error] member, nor a failing string conversion
    makes it throw.  On [null] and [undefined] it throws the
    [TypeError] of reading [message]. *)
Theorem formatted_message_starts_with_context (JSON_parse : string -> option JsValue)
  (to_string : JsValue -> option string) (e : JsValue) (context : string) :
  (nullish e = false ->
   exists detail : string,
     parseAndFormatErrorMessage JSON_parse to_string e context
     = Normal ((context ++ " failed.") ++ detail)%string) /\
  (nullish e = true ->
   parseAndFormatErrorMessage JSON_parse to_string e context = Thrown (TypeError_read "message")).
Proof.
  split.
  - apply parseAndFormat_non_nullish.
  - destruct e; cbn; intros H; try discriminate; reflexivity.
Qed.

(** X6. The formatter and [withRetry] classify alike: the text
    [<context> failed. Quota limit reached after multiple retries.] is
    returned for exactly the errors that [withRetry] treats as
    rate-limit errors (code 429) and retries. *)
Theorem quota_message_iff_rate_limited (JSON_parse : string -> option JsValue)
  (to_string : JsValue -> option string) (e : JsValue) (context : string) :
  parseAndFormatErrorMessage JSON_parse to_string e context = Normal (quota_message context)
  <-> is429 JSON_parse e = Normal true.
Proof. apply parseAndFormat_quota_iff. Qed.

(** X7. [parseAndFormatErrorMessage] never throws on what [withRetry]
    threw (the way ImageGenerator and VideoGenerator use it in their
    [catch] blocks): with a bound [0 <= R], whatever the operation was
    rejected with, even [null], the value [withRetry] throws is
    formatted as a text starting with [<context> failed.]. *)
Theorem formatter_accepts_what_withRetry_throws (T : Type)
  (JSON_parse : string -> option JsValue) (to_string : JsValue -> option string)
  (R d : Z) (script : Script T) (x : JsValue) (context : string) :
  (0 <= R)%Z ->
  snd (runWithRetry JSON_parse R d script) = Thrown x ->
  exists detail : string,
    parseAndFormatErrorMessage JSON_parse to_string x context
    = Normal ((context ++ " failed.") ++ detail)%string.
Proof.
  intros HR Hx. apply parseAndFormat_non_nullish.
  exact (@withRetry_throws_non_nullish JSON_parse T R d script x HR Hx).
Qed.

Lemma formatter_accepts_what_withRetry_throws_witness :
  (0 <= 3)%Z /\
  snd (runWithRetry sample_JSON_parse 3 2000 script_rejects_null)
    = Thrown (TypeError_read "message") /\
  exists detail : string,
    parseAndFormatErrorMessage sample_JSON_parse (fun _ => None) (TypeError_read "message")
      "Image generation"
    = Normal (("Image generation" ++ " failed.") ++ detail)%string.
Proof.
  split; [lia|]. split; [vm_compute; reflexivity|].
  apply (@formatter_accepts_what_withRetry_throws nat sample_JSON_parse (fun _ => None) 3 2000
           script_rejects_null (TypeError_read "message") "Image generation").
  - lia.
  - vm_compute. reflexivity.
Defined.

(** X8. When the operation is never rejected with [null] or
    [undefined] and the bound is [0 <= R]: if the error [withRetry]
    throws is formatted as the quota message, then all [R + 1]
    invocations were made and every one of them was rejected with a
    rate-limit error, the last of them being the error thrown. *)
Theorem quota_message_after_all_retries (T : Type)
  (JSON_parse : string -> option JsValue) (to_string : JsValue -> option string)
  (R d : Z) (script : Script T) (x : JsValue) (context : string) :
  (0 <= R)%Z ->
  (forall k e, script k = Rejected e -> nullish e = false) ->
  snd (runWithRetry JSON_parse R d script) = Thrown x ->
  parseAndFormatErrorMessage JSON_parse to_string x context = Normal (quota_message context) ->
  Z.of_nat (calls (fst (runWithRetry JSON_parse R d script))) = (R + 1)%Z /\
  script (Z.to_nat R) = Rejected x /\
  forall k, (Z.of_nat k <= R)%Z -> retryable_at script (is429 JSON_parse) k.
Proof.
  intros HR Hnn. rewrite runWithRetry_eq. cbn [fst snd]. intros Hx Hq.
  apply parseAndFormat_quota_iff in Hq.
  pose proof (withRetry_summary JSON_parse R d script) as S.
  pose proof (ls_last S ltac:(lia)) as HL. pose proof (ls_bound S) as HB.
  pose proof (ls_entered S ltac:(lia)) as HE. cbn [Nat.add] in HL.
  destruct (snd (withRetry_run JSON_parse R d script 1 VUndefined 0)) as [[v|le]|y];
    cbn [finish] in Hx; [discriminate|destruct HL|].
  injection Hx as ->. destruct HL as (e & He & [Hthrow|(-> & Hwhy)]).
  { destruct (is429_non_nullish JSON_parse e (Hnn _ e He)) as (b & Hb). congruence. }
  destruct Hwhy as [Hf|Hex]; [congruence|].
  assert (Hc : Z.of_nat (calls (fst (withRetry_run JSON_parse R d script 1 VUndefined 0))) = (R + 1)%Z)
    by lia.
  split; [exact Hc|]. split.
  - replace (Z.to_nat R) with
      (calls (fst (withRetry_run JSON_parse R d script 1 VUndefined 0)) - 1)%nat by lia.
    exact He.
  - intros k Hk. destruct (Z.eq_dec (Z.of_nat k) R) as [Heq|Hne].
    + exists e. split; [|exact Hq].
      replace k with (calls (fst (withRetry_run JSON_parse R d script 1 VUndefined 0)) - 1)%nat by lia.
      exact He.
    + destruct (ls_earlier S (j := k)) as (e' & He' & Hc' & _); [lia|lia|].
      exists e'. split; [exact He'|exact Hc'].
Qed.

Lemma quota_message_after_all_retries_witness :
  (0 <= 3)%Z /\
  (forall k e, script_always_429 k = Rejected e -> nullish e = false) /\
  snd (runWithRetry sample_JSON_parse 3 2000 script_always_429) = Thrown rate_limit_error /\
  parseAndFormatErrorMessage sample_JSON_parse (fun _ => None) rate_limit_error "Image generation"
    = Normal (quota_message "Image generation") /\
  Z.of_nat (calls (fst (runWithRetry sample_JSON_parse 3 2000 script_always_429))) = (3 + 1)%Z /\
  script_always_429 (Z.to_nat 3) = Rejected rate_limit_error /\
  forall k, (Z.of_nat k <= 3)%Z -> retryable_at script_always_429 (is429 sample_JSON_parse) k.
Proof.
  assert (H : forall k e, script_always_429 k = Rejected e -> nullish e = false).
  { intros k e He. injection He as <-. reflexivity. }
  split; [lia|]. split; [exact H|]. split; [vm_compute; reflexivity|].
  split; [vm_compute; reflexivity|].
  apply (@quota_message_after_all_retries nat sample_JSON_parse (fun _ => None) 3 2000
           script_always_429 rate_limit_error "Image generation").
  - lia.
  - exact H.
  - vm_compute. reflexivity.
  - vm_compute. reflexivity.
Defined.

(* ===================================================================== *)
(** ** The counter of completed jobs of the pose widgets *)
(* ===================================================================== *)

Section PoseCounter.
Import Pose.
Variable POSES : list string.
Variable oracle : Oracle.
Variable C : nat.

(** While the jobs below [hi] have been started: the counter counts
    the started jobs that are no longer waiting. *)
Definition CountInv (hi : nat) (pool : list (Task PoseE pose_ans PoseWidget nat))
  (w : PoseWidget) : Prop :=
  completedJobs w <= Nat.min hi (List.length POSES) /\
  (isRunning w = true ->
   completedJobs w + List.length pool = Nat.min hi (List.length POSES)).

Lemma settle_keeps_count (hi j : nat) (pool pool' : list (Task PoseE pose_ans PoseWidget nat))
  (w : PoseWidget) :
  CountInv hi pool w ->
  S (List.length pool') = List.length pool ->
  CountInv hi pool' (on_settle j (pending_result (pose POSES j)) (reply POSES oracle j) w) /\
  isRunning (on_settle j (pending_result (pose POSES j)) (reply POSES oracle j) w) = isRunning w.
Proof.
  intros [Hle Heq] Hlen.
  assert (Hrun : isRunning (on_settle j (pending_result (pose POSES j)) (reply POSES oracle j) w)
                 = isRunning w).
  { unfold on_settle, record_failure. destruct (reply POSES oracle j) as [resp|err].
    - destruct (isRunning w) eqn:Hr; [|exact Hr].
      destruct (image_url_of resp); cbn; [exact Hr|]. rewrite Hr. exact Hr.
    - cbn. destruct (isRunning w) eqn:Hr; cbn; exact Hr. }
  split; [|exact Hrun]. unfold CountInv. rewrite on_settle_counts, Hrun.
  destruct (isRunning w).
  - specialize (Heq eq_refl). split; [lia|]. intros _. lia.
  - split; [lia|discriminate].
Qed.

Lemma drain_pool_counts (hi : nat) (pool : list (Task PoseE pose_ans PoseWidget nat))
  (w : PoseWidget) :
  WindowInv POSES oracle C hi pool w -> CountInv hi pool w ->
  exists w', drain_pool (U := UserEvent) oracle pool w = AllSettled w' [] /\
             CountInv hi [] w'.
Proof.
  revert w. induction pool as [|t rest IH]; intros w Inv Cnt.
  - exists w. auto.
  - cbn [drain_pool].
    destruct (wi_tasks Inv t (or_introl eq_refl)) as (Ht & _).
    assert (Hd : drain oracle (task_k t (oracle (task_job t) (task_awaits t) (task_ev t)))
                   (task_job t) (S (task_awaits t)) w
                 = (on_settle (task_job t) (pending_result (pose POSES (task_job t)))
                      (reply POSES oracle (task_job t)) w, None)).
    { apply drain_finished. rewrite Ht. cbn. apply run_sync_settled_job. }
    rewrite Hd.
    pose proof (wi_nodup Inv) as Hnd. cbn in Hnd. apply NoDup_cons_iff in Hnd.
    destruct Hnd as [Hnotin Hnd].
    destruct (@settle_keeps_inv POSES oracle C hi (task_job t) (t :: rest) rest w Inv) as [Inv' _].
    + left. reflexivity.
    + intros t'. split.
      * intros H. split; [right; exact H|]. intros E. apply Hnotin. rewrite <- E.
        apply in_map. exact H.
      * intros [[<-|H] Hne]; [exfalso; apply Hne; reflexivity|exact H].
    + exact Hnd.
    + destruct (@settle_keeps_count hi (task_job t) (t :: rest) rest w Cnt eq_refl) as [Cnt' _].
      exact (IH _ Inv' Cnt').
Qed.

Lemma reset_keeps_count (hi : nat) (pool : list (Task PoseE pose_ans PoseWidget nat))
  (w : PoseWidget) :
  CountInv hi pool w -> CountInv hi pool (reset w).
Proof. intros [Hle _]. split; [exact Hle|discriminate]. Qed.

Lemma settle_window_counts (hi : nat) (ticks : list (Tick nat UserEvent)) :
  forall (pool : list (Task PoseE pose_ans PoseWidget nat)) (w : PoseWidget),
  Forall no_restart ticks ->
  WindowInv POSES oracle C hi pool w -> CountInv hi pool w ->
  exists w' rest,
    settle_window Nat.eqb (handle POSES) oracle ticks pool w = AllSettled w' rest /\
    CountInv hi [] w'.
Proof.
  induction ticks as [|tick ticks IH]; intros pool w Hnr Inv Cnt.
  - destruct pool as [|t rest].
    + exists w, []. cbn. auto.
    + destruct (drain_pool_counts Inv Cnt) as (w' & Hw' & Cnt').
      exists w', []. cbn [settle_window]. auto.
  - destruct pool as [|t rest] eqn:Hpool.
    + exists w, (tick :: ticks). cbn. auto.
    + rewrite <- Hpool in *.
      assert (Hsw : forall tk, settle_window Nat.eqb (handle POSES) oracle (tk :: ticks) pool w =
                match tk with
                | User u => settle_window Nat.eqb (handle POSES) oracle ticks pool (handle POSES u w)
                | Resume j =>
                    match step_job Nat.eqb oracle j pool w with
                    | (s', pool', None) => settle_window Nat.eqb (handle POSES) oracle ticks pool' s'
                    | (s', _, Some e) => Rejection e s' ticks
                    end
                end).
      { intros tk. rewrite Hpool. reflexivity. }
      rewrite Hsw. clear Hsw.
      pose proof (Forall_inv Hnr) as Hnr1. apply Forall_inv_tail in Hnr.
      destruct tick as [j|u].
      * destruct (in_flight_dec pool j) as [Hj|Hj].
        -- pose proof (@step_job_pool_length POSES oracle j pool w
                         (fun t Ht => proj1 (wi_tasks Inv t Ht)) Hj) as Hlen.
           destruct (@step_job_in_flight POSES oracle j pool w
                       (fun t Ht => proj1 (wi_tasks Inv t Ht)) (wi_nodup Inv) Hj)
             as (pool' & Hstep & Hin & Hnd).
           rewrite Hstep in *. cbn [fst snd] in Hlen.
           destruct (@settle_keeps_inv POSES oracle C hi j pool pool' w Inv Hj Hin Hnd) as [Inv' _].
           destruct (@settle_keeps_count hi j pool pool' w Cnt Hlen) as [Cnt' _].
           exact (IH _ _ Hnr Inv' Cnt').
        -- rewrite step_job_not_in_flight by exact Hj.
           exact (IH _ _ Hnr Inv Cnt).
      * destruct u; [|destruct Hnr1]. cbn [handle].
        exact (IH _ _ Hnr (reset_keeps_inv Inv) (reset_keeps_count Cnt)).
Qed.

Lemma window_counts (i : nat) (w : PoseWidget) (ticks : list (Tick nat UserEvent)) :
  Forall no_restart ticks ->
  WindowInv POSES oracle C i [] w -> CountInv i [] w -> isRunning w = true ->
  i < List.length POSES ->
  exists w' rest,
    promise_all Nat.eqb (handle POSES) oracle runJob (slice i (i + C) (jobs POSES)) w ticks
    = AllSettled w' rest /\
    CountInv (i + C) [] w'.
Proof.
  intros Hnr Inv Cnt Hrun Hi. unfold promise_all. rewrite slice_jobs.
  set (chunk := seq i (Nat.min C (List.length POSES - i))).
  destruct (wi_running Inv Hrun) as [Hlen Hent].
  assert (Hchunk : forall j, In j chunk <-> i <= j /\ j < i + C /\ j < List.length POSES).
  { intros j. unfold chunk. rewrite in_seq. lia. }
  rewrite (@start_all_running POSES chunk w Hrun).
  2:{ intros j Hj. apply Hchunk in Hj. apply Hent; [lia|]. left. lia. }
  assert (Inv' : WindowInv POSES oracle C (i + C) (map (pose_task POSES) chunk) w).
  { constructor.
    - apply (wi_conc Inv).
    - intros t Ht. apply in_map_iff in Ht. destruct Ht as (j & <- & Hj).
      apply Hchunk in Hj. cbn. split; [reflexivity|lia].
    - rewrite map_map. cbn. rewrite map_id. apply seq_NoDup.
    - intros _. split; [exact Hlen|]. intros j Hj. destruct (Hent j Hj) as [H1 H2]. split.
      + intros [H|H]; [apply H1; left; lia|].
        apply in_flight_map_pose_task, Hchunk in H. apply H1. left. lia.
      + intros H3 H4. apply H2; [|intros H; destruct H].
        destruct (Nat.lt_ge_cases j i) as [Hlt|Hge]; [exact Hlt|].
        exfalso. apply H4, in_flight_map_pose_task, Hchunk. lia.
    - rewrite Hrun. discriminate. }
  assert (Cnt' : CountInv (i + C) (map (pose_task POSES) chunk) w).
  { destruct Cnt as [Hle Heq]. specialize (Heq Hrun). cbn [List.length] in Heq.
    unfold CountInv. rewrite length_map. unfold chunk. rewrite length_seq. split; lia. }
  exact (settle_window_counts Hnr Inv' Cnt').
Qed.

Lemma windows_loop_counts (fuel : nat) :
  forall (i : nat) (w : PoseWidget) (ticks : list (Tick nat UserEvent)) (windows : list (list nat)),
  1 <= C -> 0 < fuel -> List.length POSES < i + fuel ->
  Forall no_restart ticks ->
  WindowInv POSES oracle C i [] w -> CountInv i [] w ->
  exists w' wins,
    windows_loop Nat.eqb (handle POSES) oracle isRunning concurrency runJob (jobs POSES) fuel i w
      ticks windows
    = Some (Completed w' wins) /\
    completedJobs w' <= List.length POSES /\
    (isRunning w' = true -> completedJobs w' = List.length POSES).
Proof.
  induction fuel as [|fuel IH]; intros i w ticks windows HC Hpos Hfuel Hnr Inv Cnt; [lia|].
  cbn [windows_loop]. unfold jobs at 1. rewrite length_seq.
  destruct (Nat.ltb_spec i (List.length POSES)) as [Hlt|Hge].
  - destruct (isRunning w) eqn:Hrun; cbn [negb].
    + rewrite (wi_conc Inv).
      destruct (window_settles Hnr Inv Hrun) as (w1 & rest & Hw & Inv1 & Hnr1 & _).
      destruct (window_counts Hnr Inv Cnt Hrun Hlt) as (w2 & rest2 & Hw2 & Cnt1).
      fold (jobs POSES). rewrite Hw in Hw2. injection Hw2 as <- <-. rewrite Hw.
      assert (Hfuel' : List.length POSES < i + C + fuel) by lia.
      assert (Hpos' : 0 < fuel) by lia.
      exact (IH (i + C) w1 rest (windows ++ [slice i (i + C) (jobs POSES)]) HC Hpos' Hfuel'
               Hnr1 Inv1 Cnt1).
    + exists w, windows. split; [reflexivity|]. destruct Cnt as [Hle _].
      split; [lia|congruence].
  - exists w, windows. split; [reflexivity|]. destruct Cnt as [Hle Heq].
    split; [lia|]. intros Hrun. specialize (Heq Hrun). cbn [List.length] in Heq. lia.
Qed.
End PoseCounter.

(* ===================================================================== *)
(** ** The pose widgets after a run: entries, counter and downloads *)
(* ===================================================================== *)

Section PoseAfterRun.
Import Pose PoseAlbum.
Variable POSES : list string.
Variable oracle : Oracle.

Lemma image_url_of_truthy (resp : GenerateContentResponse) (url : string) :
  image_url_of resp = Normal url -> truthy (VString url) = true.
Proof.
  unfold image_url_of. destruct (find_image_part resp) as [imagePart|e]; [|discriminate].
  destruct (match imagePart with Some p => inlineData p | None => None end); [|discriminate].
  intros H. injection H as <-. reflexivity.
Qed.

(** An entry has an image exactly when it is [done]. *)
Definition image_iff_done (r : PoseResult) : Prop :=
  is_done r = true <-> truthy (imageUrl r) = true.

Lemma expected_image_iff_done (j : nat) :
  image_iff_done (expected POSES oracle j) /\
  match outcome_of (reply POSES oracle j) with
  | Succeeded url => is_done (expected POSES oracle j) = true /\
                     imageUrl (expected POSES oracle j) = VString url
  | FailedWith _ => is_done (expected POSES oracle j) = false
  end.
Proof.
  unfold image_iff_done, expected, outcome_of.
  destruct (reply POSES oracle j) as [resp|err]; cbn -[truthy].
  - destruct (image_url_of resp) as [url|e] eqn:Hu; cbn -[truthy].
    + rewrite (image_url_of_truthy resp Hu). tauto.
    + split; [split; discriminate|reflexivity].
  - split; [split; discriminate|reflexivity].
Qed.



(** The files of a job: its image under the name of its index, when
    its request yielded one. *)
Definition files_of_job (file_prefix : string) (j : nat) : list (JsValue * string) :=
  match outcome_of (reply POSES oracle j) with
  | Succeeded url => [(VString url, (file_prefix ++ decimal (j + 1) ++ ".png")%string)]
  | FailedWith _ => []
  end.

Lemma download_from_expected (file_prefix : string) (total : nat) :
  forall (n i d : nat),
  snd (download_from file_prefix total i d
         (map (fun j => Some (expected POSES oracle j)) (seq i n))) = Normal tt /\
  files (fst (download_from file_prefix total i d
                (map (fun j => Some (expected POSES oracle j)) (seq i n))))
  = flat_map (files_of_job file_prefix) (seq i n) /\
  successfulCount (map (fun j => Some (expected POSES oracle j)) (seq i n))
  = List.length (flat_map (files_of_job file_prefix) (seq i n)).
Proof.
  induction n as [|n IH]; intros i d; [cbn; auto|].
  cbn [seq map download_from flat_map successfulCount].
  destruct (expected_image_iff_done i) as [Hiff Hout]. unfold files_of_job at 1 3.
  destruct (outcome_of (reply POSES oracle i)) as [url|msg].
  - destruct Hout as [Hd Hu]. rewrite Hd. rewrite (proj1 Hiff Hd). cbn [andb].
    destruct (IH (S i) (S d)) as (H1 & H2 & H3).
    destruct (download_from file_prefix total (S i) (S d)
                (map (fun j => Some (expected POSES oracle j)) (seq (S i) n))) as [t c].
    cbn [fst snd files] in *. rewrite Hu, H2, H3. auto.
  - rewrite Hout. cbn [andb]. destruct (IH (S i) d) as (H1 & H2 & H3).
    rewrite H3. auto.
Qed.

Lemma download_from_hole (file_prefix : string) (total : nat) :
  forall (rs : list (option PoseResult)) (i d : nat),
  In None rs ->
  snd (download_from file_prefix total i d rs) = Thrown (TypeError_read "status") /\
  forall b, disabled_after (fst (download_from file_prefix total i d rs)) b = b.
Proof.
  induction rs as [|[r|] rs IH]; intros i d Hin.
  - destruct Hin.
  - destruct Hin as [Hin|Hin]; [discriminate|]. cbn [download_from].
    destruct (is_done r && truthy (imageUrl r))%bool.
    + destruct (IH (S i) (S d) Hin) as [H1 H2].
      destruct (download_from file_prefix total (S i) (S d) rs) as [t c].
      cbn [fst snd disabled_after] in *. auto.
    + apply IH. exact Hin.
  - cbn. auto.
Qed.

Lemma disabled_after_app (t1 t2 : list AlbumEvent) (b : bool) :
  disabled_after (t1 ++ t2) b = disabled_after t2 (disabled_after t1 b).
Proof.
  revert b. induction t1 as [|ev t1 IH]; intros b; [reflexivity|].
  destruct ev; cbn; apply IH.
Qed.

Lemma files_app (t1 t2 : list AlbumEvent) : files (t1 ++ t2) = (files t1 ++ files t2)%list.
Proof.
  induction t1 as [|ev t1 IH]; [reflexivity|].
  destruct ev; cbn; rewrite ?IH; reflexivity.
Qed.
End PoseAfterRun.



(** X10. The counter of completed jobs of a pose run never exceeds the
    number of poses, and when the run is not cancelled it ends at
    exactly that number: the progress shown reaches 100%, whether the
    requests succeed or fail. *)
Theorem completed_jobs_reach_total (POSES : list string) (oracle : Pose.Oracle)
  (w : Pose.PoseWidget) (ticks : list (Tick nat Pose.UserEvent)) :
  1 <= Pose.concurrency w ->
  exists s windows,
    Pose.generatePoses POSES oracle w ticks = Some (Completed s windows) /\
    Pose.completedJobs s <= List.length POSES /\
    (Forall no_user_event ticks -> Pose.completedJobs s = List.length POSES).
Proof.
  intros HC. unfold Pose.generatePoses, Pose.job_indices.
  cbn [Pose.begin_run Pose.results]. rewrite length_map.
  fold (Pose.begin_run POSES w). fold (jobs POSES).
  assert (Hfuel : List.length POSES < 0 + S (List.length (jobs POSES))).
  { unfold jobs. rewrite length_seq. lia. }
  assert (Cnt : CountInv POSES 0 [] (Pose.begin_run POSES w)).
  { split; cbn; [lia|]. intros _. lia. }
  destruct (@windows_loop_run POSES oracle (Pose.concurrency w) (S (List.length (jobs POSES)))
              0 (Pose.begin_run POSES w) ticks [] HC ltac:(lia) Hfuel
              (begin_run_run_inv POSES w))
    as (w' & n & Hloop & Hle).
  cbn [Pose.concurrency Pose.begin_run] in Hloop. rewrite Hloop.
  exists (Pose.stop_running w'), ([] ++ windows_from POSES (Pose.concurrency w) 0 n)%list.
  split; [reflexivity|].
  cbn [Pose.stop_running Pose.completedJobs]. split; [exact Hle|].
  intros Hall. pose proof (no_user_event_no_restart Hall) as Hnr.
  destruct (@windows_loop_ends POSES oracle (Pose.concurrency w) (S (List.length (jobs POSES)))
              0 (Pose.begin_run POSES w) ticks [] HC ltac:(lia) Hfuel Hnr
              (begin_run_inv POSES oracle w))
    as (w1 & n1 & Hloop1 & _ & _ & _ & Hkeep & _).
  destruct (@windows_loop_counts POSES oracle (Pose.concurrency w) (S (List.length (jobs POSES)))
              0 (Pose.begin_run POSES w) ticks [] HC ltac:(lia) Hfuel Hnr
              (begin_run_inv POSES oracle w) Cnt)
    as (w2 & wins & Hloop2 & _ & Heq).
  cbn [Pose.concurrency Pose.begin_run] in Hloop1, Hloop2.
  rewrite Hloop in Hloop1, Hloop2. injection Hloop1 as <- _. injection Hloop2 as <- _.
  apply Heq. apply Hkeep; [exact Hall|reflexivity].
Qed.

Lemma completed_jobs_reach_total_witness :
  1 <= Pose.concurrency idle_widget /\
  exists s windows,
    Pose.generatePoses five_poses only_job1_rejected idle_widget [Resume 1; Resume 0]
      = Some (Completed s windows) /\
    Pose.completedJobs s <= List.length five_poses /\
    (Forall no_user_event [Resume 1; Resume 0 : Tick nat Pose.UserEvent] ->
     Pose.completedJobs s = List.length five_poses).
Proof.
  split; [cbn; lia|].
  apply (@completed_jobs_reach_total five_poses only_job1_rejected idle_widget [Resume 1; Resume 0]).
  cbn. lia.
Defined.

(** The trace of [downloadAll] ends with the button enabled and its
    text restored. *)
Definition button_restored (originalText : string) (t : list PoseAlbum.AlbumEvent) : Prop :=
  exists t0, t = (t0 ++ [PoseAlbum.SetLabel originalText; PoseAlbum.SetDisabled false])%list.

(** X11. After a run that was not cancelled, [downloadAll] ends
    normally and downloads exactly the images of the jobs whose request
    yielded one, in the order of the jobs, the image of job [j] as
    [<prefix><j + 1>.png]; the total it announces
    ([successfulCount]) is the number of files it downloads, and it
    leaves the button enabled with its text restored. *)
Theorem download_all_after_run (POSES : list string) (oracle : Pose.Oracle)
  (w : Pose.PoseWidget) (ticks : list (Tick nat Pose.UserEvent))
  (file_prefix originalText : string) :
  1 <= Pose.concurrency w ->
  Forall no_user_event ticks ->
  exists s windows,
    Pose.generatePoses POSES oracle w ticks = Some (Completed s windows) /\
    snd (PoseAlbum.downloadAll file_prefix originalText (Pose.results s)) = Normal tt /\
    PoseAlbum.files (fst (PoseAlbum.downloadAll file_prefix originalText (Pose.results s)))
    = flat_map (files_of_job POSES oracle file_prefix) (seq 0 (List.length POSES)) /\
    PoseAlbum.successfulCount (Pose.results s)
    = List.length (PoseAlbum.files
                     (fst (PoseAlbum.downloadAll file_prefix originalText (Pose.results s)))) /\
    button_restored originalText
      (fst (PoseAlbum.downloadAll file_prefix originalText (Pose.results s))).
Proof.
  intros HC Hall.
  destruct (@outcomes_mirror_jobs_holds POSES oracle w ticks HC) as (s & windows & Hrun & _ & Hres).
  exists s, windows. split; [exact Hrun|]. rewrite (Hres Hall).
  rewrite (map_ext _ (fun i => Some (expected POSES oracle i)))
    by (intros i; rewrite expected_outcome_entry; reflexivity).
  unfold PoseAlbum.downloadAll.
  set (rs := map (fun i => Some (expected POSES oracle i)) (seq 0 (List.length POSES))).
  destruct (@download_from_expected POSES oracle file_prefix (PoseAlbum.successfulCount rs)
              (List.length POSES) 0 0) as (H1 & H2 & H3).
  fold rs in H1, H2, H3.
  destruct (PoseAlbum.download_from file_prefix (PoseAlbum.successfulCount rs) 0 0 rs) as [t c].
  cbn [fst snd] in *. subst c. cbn [fst snd PoseAlbum.files].
  rewrite files_app, H2. cbn [PoseAlbum.files]. rewrite app_nil_r.
  split; [reflexivity|]. split; [reflexivity|]. split; [exact H3|].
  exists (PoseAlbum.SetDisabled true :: t). reflexivity.
Qed.

Lemma download_all_after_run_witness :
  1 <= Pose.concurrency idle_widget /\
  Forall no_user_event [Resume 1; Resume 0 : Tick nat Pose.UserEvent] /\
  exists s windows,
    Pose.generatePoses five_poses only_job1_rejected idle_widget [Resume 1; Resume 0]
      = Some (Completed s windows) /\
    snd (PoseAlbum.downloadAll "pose_ganci_" "Download All" (Pose.results s)) = Normal tt /\
    PoseAlbum.files (fst (PoseAlbum.downloadAll "pose_ganci_" "Download All" (Pose.results s)))
    = flat_map (files_of_job five_poses only_job1_rejected "pose_ganci_")
        (seq 0 (List.length five_poses)) /\
    PoseAlbum.successfulCount (Pose.results s)
    = List.length (PoseAlbum.files
                     (fst (PoseAlbum.downloadAll "pose_ganci_" "Download All" (Pose.results s)))) /\
    button_restored "Download All"
      (fst (PoseAlbum.downloadAll "pose_ganci_" "Download All" (Pose.results s))).
Proof.
  assert (H : Forall no_user_event [Resume 1; Resume 0 : Tick nat Pose.UserEvent]).
  { repeat constructor. }
  split; [cbn; lia|]. split; [exact H|].
  apply (@download_all_after_run five_poses only_job1_rejected idle_widget [Resume 1; Resume 0]
           "pose_ganci_" "Download All"); [cbn; lia|exact H].
Defined.

(** X12. On an array with a hole [downloadAll] does not finish: after
    the downloads of the entries before the hole it throws the
    [TypeError] of reading [status] of [undefined], and the button it
    disabled at the start stays disabled. *)
Theorem download_all_stops_at_hole (file_prefix originalText : string)
  (rs : list (option Pose.PoseResult)) :
  In None rs ->
  snd (PoseAlbum.downloadAll file_prefix originalText rs) = Thrown (TypeError_read "status") /\
  PoseAlbum.disabled_after (fst (PoseAlbum.downloadAll file_prefix originalText rs)) false = true.
Proof.
  intros Hin. unfold PoseAlbum.downloadAll.
  destruct (@download_from_hole file_prefix (PoseAlbum.successfulCount rs) rs 0 0 Hin) as [H1 H2].
  destruct (PoseAlbum.download_from file_prefix (PoseAlbum.successfulCount rs) 0 0 rs) as [t c].
  cbn [fst snd] in *. subst c. cbn [fst snd PoseAlbum.disabled_after]. split; [reflexivity|apply H2].
Qed.

(** The array left by a run that is cancelled while the requests of its
    first window are awaited, the request of job 0 being fulfilled and
    that of job 1 rejected afterwards: a hole at index 0. *)
Definition sparse_results : list (option Pose.PoseResult) :=
  [None; Some (Pose.error_result None (VString "quota exceeded"))].

Example cancelled_run_leaves_hole :
  exists windows,
    Pose.generatePoses three_poses only_job1_rejected idle_widget
      [User Pose.ClickStartOver; Resume 1]
    = Some (Completed {| Pose.isRunning := false; Pose.concurrency := 2;
                         Pose.results := sparse_results; Pose.completedJobs := 0 |} windows).
Proof. eexists. vm_compute. reflexivity. Qed.

Lemma download_all_stops_at_hole_witness :
  In None sparse_results /\
  snd (PoseAlbum.downloadAll "pose_ganci_" "Download All" sparse_results)
    = Thrown (TypeError_read "status") /\
  PoseAlbum.disabled_after
    (fst (PoseAlbum.downloadAll "pose_ganci_" "Download All" sparse_results)) false = true.
Proof.
  assert (H : In None sparse_results) by (left; reflexivity).
  split; [exact H|].
  exact (@download_all_stops_at_hole "pose_ganci_" "Download All" sparse_results H).
Defined.

(* ===================================================================== *)
(** ** Jobs that run side by side: guarantees and what they rely on *)
(* ===================================================================== *)

Section Guarantee.
Context {E : Type} {ans : E -> Type} {St : Type}.
(** [G]: what a write of the procedure may do to the state.  [Rely]:
    what may have happened to the state when the procedure is resumed
    after an [await].  [answer n ev]: what the [n]-th [await] of the
    procedure, on the operation [ev], is resumed with. *)
Variable G : St -> St -> Prop.
Variable Rely : St -> St -> Prop.
Variable answer : nat -> forall ev : E, ans ev.

(** Started in state [s] with [n] operations awaited so far, the
    procedure only makes writes allowed by [G], and ends in a state
    and after a number of operations with [Q] (on return) or [P] (on
    throw). *)
Fixpoint wp {R : Type} (p : Proc E ans St R) (Q : St -> nat -> R -> Prop)
  (P : St -> nat -> JsValue -> Prop) (n : nat) (s : St) : Prop :=
  match p with
  | Ret r => Q s n r
  | Throw e => P s n e
  | Read k => wp (k s) Q P n s
  | Write f k => G s (f s) /\ wp k Q P n (f s)
  | Await ev k => forall s', Rely s s' -> wp (k (answer n ev)) Q P (S n) s'
  end.

Lemma wp_mono {R : Type} (p : Proc E ans St R) (Q Q' : St -> nat -> R -> Prop)
  (P P' : St -> nat -> JsValue -> Prop) :
  (forall s n r, Q s n r -> Q' s n r) -> (forall s n e, P s n e -> P' s n e) ->
  forall n s, wp p Q P n s -> wp p Q' P' n s.
Proof.
  intros HQ HP. induction p as [r|e|k IH|f k IH|ev k IH]; intros n s; cbn.
  - apply HQ.
  - apply HP.
  - apply IH.
  - intros [H1 H2]. split; [exact H1|apply IH; exact H2].
  - intros H s' Hr. apply IH. apply H. exact Hr.
Qed.

Lemma wp_bind {A B : Type} (p : Proc E ans St A) (f : A -> Proc E ans St B)
  (Q : St -> nat -> B -> Prop) (P : St -> nat -> JsValue -> Prop) :
  forall n s, wp p (fun s' n' a => wp (f a) Q P n' s') P n s -> wp (bind p f) Q P n s.
Proof.
  induction p as [r|e|k IH|g k IH|ev k IH]; intros n s; cbn.
  - auto.
  - auto.
  - apply IH.
  - intros [H1 H2]. split; [exact H1|apply IH; exact H2].
  - intros H s' Hr. apply IH. apply H. exact Hr.
Qed.

Lemma wp_try_catch {A : Type} (p : Proc E ans St A) (h : JsValue -> Proc E ans St A)
  (Q : St -> nat -> A -> Prop) (P : St -> nat -> JsValue -> Prop) :
  forall n s, wp p Q (fun s' n' e => wp (h e) Q P n' s') n s -> wp (try_catch p h) Q P n s.
Proof.
  induction p as [r|e|k IH|g k IH|ev k IH]; intros n s; cbn.
  - auto.
  - auto.
  - apply IH.
  - intros [H1 H2]. split; [exact H1|apply IH; exact H2].
  - intros H s' Hr. apply IH. apply H. exact Hr.
Qed.

Lemma wp_try_finally {A : Type} (p : Proc E ans St A) (c : Proc E ans St unit)
  (Q : St -> nat -> A -> Prop) (P : St -> nat -> JsValue -> Prop) :
  forall n s,
  wp p (fun s' n' a => wp c (fun s'' n'' _ => Q s'' n'' a) P n' s')
       (fun s' n' e => wp c (fun s'' n'' _ => P s'' n'' e) P n' s') n s ->
  wp (try_finally p c) Q P n s.
Proof.
  induction p as [r|e|k IH|g k IH|ev k IH]; intros n s; cbn.
  - intros H. apply wp_bind. exact H.
  - intros H. apply wp_bind. exact H.
  - apply IH.
  - intros [H1 H2]. split; [exact H1|apply IH; exact H2].
  - intros H s' Hr. apply IH. apply H. exact Hr.
Qed.

Lemma wp_lift {A : Type} (c : Completion A) (Q : St -> nat -> A -> Prop)
  (P : St -> nat -> JsValue -> Prop) (n : nat) (s : St) :
  match c with Normal a => Q s n a | Thrown e => P s n e end -> wp (lift c) Q P n s.
Proof. destruct c; cbn; auto. Qed.

Hypothesis G_refl : forall s, G s s.
Hypothesis G_trans : forall s1 s2 s3, G s1 s2 -> G s2 s3 -> G s1 s3.

Lemma run_sync_wp (p : Proc E ans St unit) (Q : St -> nat -> unit -> Prop)
  (P : St -> nat -> JsValue -> Prop) (n : nat) :
  forall s, wp p Q P n s ->
  G s (fst (run_sync p s)) /\
  match snd (run_sync p s) with
  | Finished => Q (fst (run_sync p s)) n tt
  | Failed e => P (fst (run_sync p s)) n e
  | Blocked ev k =>
      forall s', Rely (fst (run_sync p s)) s' -> wp (k (answer n ev)) Q P (S n) s'
  end.
Proof.
  induction p as [r|e|k IH|f k IH|ev k IH]; intros s; cbn.
  - destruct r. auto.
  - auto.
  - apply IH.
  - intros [H1 H2]. destruct (IH _ H2) as [H3 H4]. split; [|exact H4].
    eapply G_trans; [exact H1|exact H3].
  - auto.
Qed.

Hypothesis Rely_refl : forall s, Rely s s.

Lemma drain_wp {J : Type} (oracle : J -> nat -> forall ev : E, ans ev) (j : J)
  (p : Proc E ans St unit) (Q : St -> nat -> unit -> Prop) (P : St -> nat -> JsValue -> Prop) :
  (forall n ev, oracle j n ev = answer n ev) ->
  forall n s, wp p Q P n s ->
  G s (fst (drain oracle p j n s)) /\
  match snd (drain oracle p j n s) with
  | None => exists n', Q (fst (drain oracle p j n s)) n' tt
  | Some e => exists n', P (fst (drain oracle p j n s)) n' e
  end.
Proof.
  intros Hans. induction p as [r|e|k IH|f k IH|ev k IH]; intros n s; cbn.
  - destruct r. eauto.
  - eauto.
  - apply IH.
  - intros [H1 H2]. destruct (IH n _ H2) as [H3 H4]. split; [|exact H4].
    eapply G_trans; [exact H1|exact H3].
  - intros H. rewrite Hans. apply IH. apply H. apply Rely_refl.
Qed.
End Guarantee.

Lemma in_firstn_add {A : Type} (c : nat) (x : A) :
  forall (i : nat) (l : list A),
  In x (firstn (i + c) l) <-> In x (firstn i l) \/ In x (firstn c (skipn i l)).
Proof.
  induction i as [|i IH]; intros l.
  - cbn. tauto.
  - destruct l as [|y l]; cbn [Nat.add firstn skipn In].
    + rewrite firstn_nil. cbn. tauto.
    + rewrite IH. tauto.
Qed.

Lemma in_skipn_add {A : Type} (c : nat) (x : A) :
  forall (i : nat) (l : list A),
  In x (skipn i l) <-> In x (firstn c (skipn i l)) \/ In x (skipn (i + c) l).
Proof.
  induction i as [|i IH]; intros l.
  - cbn [skipn Nat.add]. rewrite <- (firstn_skipn c l) at 1. apply in_app_iff.
  - destruct l as [|y l]; cbn [Nat.add skipn].
    + rewrite firstn_nil. cbn. tauto.
    + apply IH.
Qed.

Lemma NoDup_app_disjoint {A : Type} (l1 l2 : list A) (x : A) :
  NoDup (l1 ++ l2) -> In x l1 -> In x l2 -> False.
Proof.
  induction l1 as [|y l1 IH]; cbn; intros Hnd H1 H2; [exact H1|].
  apply NoDup_cons_iff in Hnd. destruct Hnd as [Hy Hnd]. destruct H1 as [->|H1].
  - apply Hy. apply in_or_app. right. exact H2.
  - exact (IH Hnd H1 H2).
Qed.

Lemma NoDup_window {A : Type} (c i : nat) (l : list A) :
  NoDup l ->
  NoDup (firstn c (skipn i l)) /\
  (forall x, In x (firstn c (skipn i l)) -> ~ In x (firstn i l)) /\
  (forall x, In x (firstn c (skipn i l)) -> ~ In x (skipn (i + c) l)).
Proof.
  intros Hnd.
  assert (H1 : NoDup (firstn i l ++ skipn i l)) by (rewrite firstn_skipn; exact Hnd).
  assert (H2 : NoDup (skipn i l)) by (exact (NoDup_app_remove_l _ _ H1)).
  assert (H3 : NoDup (firstn c (skipn i l) ++ skipn c (skipn i l)))
    by (rewrite firstn_skipn; exact H2).
  split; [exact (NoDup_app_remove_r _ _ H3)|]. split.
  - intros x Hx Hx'. apply (NoDup_app_disjoint _ _ x H1 Hx').
    rewrite <- (firstn_skipn c (skipn i l)). apply in_or_app. left. exact Hx.
  - intros x Hx Hx'. apply (NoDup_app_disjoint _ _ x H3 Hx).
    rewrite skipn_skipn. replace (c + i) with (i + c) by lia. exact Hx'.
Qed.

Section LoopGuarantee.
Context {E : Type} {ans : E -> Type} {St J U : Type}.
Variable job_eqb : J -> J -> bool.
Variable handle : U -> St -> St.
Variable oracle : J -> nat -> forall ev : E, ans ev.
Variable isRunning : St -> bool.
Variable concurrency : St -> nat.
Variable runJob : J -> Proc E ans St unit.
Variable jobs : list J.
Hypothesis job_eqb_spec : forall a b, job_eqb a b = true <-> a = b.

(** [G j]: what the steps of job [j] may do.  [Rely j]: what job [j]
    tolerates from the others and from the user.  [Pre j] holds until
    job [j] is started, [Post j] once it has ended.  [Keep] is kept by
    every step and [Quiet] by every step of a job. *)
Variables G Rely : J -> St -> St -> Prop.
Variables Pre Post : J -> St -> Prop.
Variables Keep Quiet : St -> St -> Prop.
Hypothesis G_refl : forall j s, G j s s.
Hypothesis G_trans : forall j s1 s2 s3, G j s1 s2 -> G j s2 s3 -> G j s1 s3.
Hypothesis Rely_refl : forall j s, Rely j s s.
Hypothesis Rely_trans : forall j s1 s2 s3, Rely j s1 s2 -> Rely j s2 s3 -> Rely j s1 s3.
Hypothesis G_Rely : forall i j s s', i <> j -> G i s s' -> Rely j s s'.
Hypothesis handle_Rely : forall j u s, Rely j s (handle u s).
Hypothesis Pre_stable : forall j s s', Pre j s -> Rely j s s' -> Pre j s'.
Hypothesis Post_stable : forall j s s', Post j s -> Rely j s s' -> Post j s'.
Hypothesis Keep_refl : forall s, Keep s s.
Hypothesis Keep_trans : forall s1 s2 s3, Keep s1 s2 -> Keep s2 s3 -> Keep s1 s3.
Hypothesis G_Keep : forall j s s', G j s s' -> Keep s s'.
Hypothesis handle_Keep : forall u s, Keep s (handle u s).
Hypothesis Keep_concurrency : forall s s', Keep s s' -> concurrency s' = concurrency s.
Hypothesis Quiet_refl : forall s, Quiet s s.
Hypothesis Quiet_trans : forall s1 s2 s3, Quiet s1 s2 -> Quiet s2 s3 -> Quiet s1 s3.
Hypothesis G_Quiet : forall j s s', G j s s' -> Quiet s s'.
Hypothesis runJob_wp : forall j s, In j jobs -> Pre j s ->
  wp (G j) (Rely j) (oracle j) (runJob j) (fun s' _ _ => Post j s') (fun _ _ _ => False) 0 s.

(** What is left of job [j] after [n] awaited operations ends well,
    from any state the others may have led to. *)
Definition ends_well (j : J) (n : nat) (k : Proc E ans St unit) (s : St) : Prop :=
  forall s', Rely j s s' ->
    wp (G j) (Rely j) (oracle j) k (fun s'' _ _ => Post j s'') (fun _ _ _ => False) n s'.

Definition Obligation (t : Task E ans St J) (s : St) : Prop :=
  ends_well (task_job t) (S (task_awaits t))
    (task_k t (oracle (task_job t) (task_awaits t) (task_ev t))) s.

(** The jobs outside [X] see a step they tolerate. *)
Definition Others (X : list J) (s s' : St) : Prop :=
  forall j, ~ In j X -> Rely j s s'.

Definition Effect (X : list J) (s s' : St) : Prop :=
  Others X s s' /\ Keep s s' /\ Quiet s s'.

(** The window of the jobs [X], those of [pool] still waiting. *)
Record WaitInv (X : list J) (pool : list (Task E ans St J)) (s : St) : Prop := {
  wt_nodup : NoDup (map (@task_job _ _ _ _) pool);
  wt_tasks : forall t, In t pool -> In (task_job t) X /\ Obligation t s;
  wt_done : forall j, In j X -> ~ In j (map (@task_job _ _ _ _) pool) -> Post j s
}.

Lemma Effect_refl (X : list J) (s : St) : Effect X s s.
Proof. split; [intros j _; apply Rely_refl|]. split; [apply Keep_refl|apply Quiet_refl]. Qed.

Lemma Effect_trans (X : list J) (s1 s2 s3 : St) :
  Effect X s1 s2 -> Effect X s2 s3 -> Effect X s1 s3.
Proof.
  intros (A1 & B1 & C1) (A2 & B2 & C2). split; [|split].
  - intros j Hj. eapply Rely_trans; [apply A1|apply A2]; exact Hj.
  - eapply Keep_trans; eassumption.
  - eapply Quiet_trans; eassumption.
Qed.

Lemma Effect_of_step (X : list J) (j : J) (s s' : St) :
  In j X -> G j s s' -> Effect X s s'.
Proof.
  intros Hj HG. split; [|split].
  - intros i Hi. apply (@G_Rely j i); [|exact HG]. intros ->. exact (Hi Hj).
  - exact (@G_Keep _ _ _ HG).
  - exact (@G_Quiet _ _ _ HG).
Qed.

Lemma ends_well_later (j : J) (n : nat) (k : Proc E ans St unit) (s s' : St) :
  ends_well j n k s -> Rely j s s' -> ends_well j n k s'.
Proof. intros H Hr s'' Hr'. apply H. eapply Rely_trans; eassumption. Qed.

(** The task [t] of the pool takes a step that ends its job. *)
Lemma task_finishes (X : list J) (l1 l2 : list (Task E ans St J)) (t : Task E ans St J)
  (s s' : St) :
  WaitInv X (l1 ++ t :: l2) s -> G (task_job t) s s' -> Post (task_job t) s' ->
  WaitInv X (l1 ++ l2) s' /\ Effect X s s'.
Proof.
  intros Inv HG HP.
  pose proof (wt_nodup Inv) as Hnd. rewrite map_app in Hnd. cbn [map] in Hnd.
  pose proof (NoDup_remove_1 _ _ _ Hnd) as Hnd1.
  pose proof (NoDup_remove_2 _ _ _ Hnd) as Hnotin.
  destruct (wt_tasks Inv t) as [HtX _]; [apply in_or_app; right; left; reflexivity|].
  split; [|exact (@Effect_of_step X (task_job t) s s' HtX HG)].
  constructor.
  - rewrite map_app. exact Hnd1.
  - intros t' Ht'.
    assert (Hin : In t' (l1 ++ t :: l2)).
    { apply in_app_or in Ht'. apply in_or_app. destruct Ht'; [left|right; right]; assumption. }
    destruct (wt_tasks Inv t' Hin) as [HX Hob]. split; [exact HX|].
    apply (@ends_well_later _ _ _ _ _ Hob).
    apply (@G_Rely (task_job t) (task_job t')); [|exact HG].
    intros Heq. apply Hnotin. rewrite Heq, <- map_app. apply in_map. exact Ht'.
  - intros j Hj Hnot.
    destruct (job_eqb j (task_job t)) eqn:Heq.
    + apply job_eqb_spec in Heq. subst j. exact HP.
    + assert (Hne : task_job t <> j).
      { intros <-. rewrite (proj2 (job_eqb_spec _ _) eq_refl) in Heq. discriminate. }
      apply (@Post_stable j s s'); [|exact (@G_Rely _ _ _ _ Hne HG)].
      apply (wt_done Inv j Hj). rewrite map_app. cbn [map]. rewrite map_app in Hnot.
      intros Hin. apply in_app_or in Hin. destruct Hin as [Hin|[Hin|Hin]].
      * apply Hnot. apply in_or_app. left. exact Hin.
      * exact (Hne Hin).
      * apply Hnot. apply in_or_app. right. exact Hin.
Qed.

(** The task [t] of the pool takes a step and waits again, as [t']. *)
Lemma task_blocks (X : list J) (l1 l2 : list (Task E ans St J)) (t t' : Task E ans St J)
  (s s' : St) :
  WaitInv X (l1 ++ t :: l2) s -> G (task_job t) s s' ->
  task_job t' = task_job t -> Obligation t' s' ->
  WaitInv X (l1 ++ t' :: l2) s' /\ Effect X s s'.
Proof.
  intros Inv HG Hjob Hob'.
  pose proof (wt_nodup Inv) as Hnd. rewrite map_app in Hnd. cbn [map] in Hnd.
  pose proof (NoDup_remove_2 _ _ _ Hnd) as Hnotin.
  destruct (wt_tasks Inv t) as [HtX _]; [apply in_or_app; right; left; reflexivity|].
  split; [|exact (@Effect_of_step X (task_job t) s s' HtX HG)].
  assert (Hmap : map (@task_job _ _ _ _) (l1 ++ t' :: l2)
                 = map (@task_job _ _ _ _) (l1 ++ t :: l2)).
  { rewrite !map_app. cbn [map]. rewrite Hjob. reflexivity. }
  constructor.
  - rewrite Hmap. exact (wt_nodup Inv).
  - intros t0 Ht0. apply in_app_or in Ht0. destruct Ht0 as [Ht0|[<-|Ht0]].
    + destruct (wt_tasks Inv t0) as [HX Hob]; [apply in_or_app; left; exact Ht0|].
      split; [exact HX|]. apply (@ends_well_later _ _ _ _ _ Hob).
      apply (@G_Rely (task_job t) (task_job t0)); [|exact HG].
      intros Heq. apply Hnotin. rewrite Heq. apply in_or_app. left. apply in_map. exact Ht0.
    + split; [rewrite Hjob; exact HtX|exact Hob'].
    + destruct (wt_tasks Inv t0) as [HX Hob]; [apply in_or_app; right; right; exact Ht0|].
      split; [exact HX|]. apply (@ends_well_later _ _ _ _ _ Hob).
      apply (@G_Rely (task_job t) (task_job t0)); [|exact HG].
      intros Heq. apply Hnotin. rewrite Heq. apply in_or_app. right. apply in_map. exact Ht0.
  - intros j Hj Hnot. rewrite Hmap in Hnot.
    assert (Hne : task_job t <> j).
    { intros <-. apply Hnot. rewrite map_app. apply in_or_app. right. left. reflexivity. }
    apply (@Post_stable j s s'); [|exact (@G_Rely _ _ _ _ Hne HG)].
    exact (wt_done Inv j Hj Hnot).
Qed.

(** [step_job] resumes the first task of the job, if there is one. *)
Lemma step_job_spec (j : J) (pool : list (Task E ans St J)) (s : St) :
  step_job job_eqb oracle j pool s = (s, pool, None) \/
  exists l1 t l2,
    pool = l1 ++ t :: l2 /\
    step_job job_eqb oracle j pool s
    = match resume oracle t s with
      | (s', Finished) => (s', l1 ++ l2, None)
      | (s', Failed e) => (s', l1 ++ l2, Some e)
      | (s', Blocked ev k) =>
          (s', l1 ++ {| task_job := task_job t; task_awaits := S (task_awaits t);
                        task_ev := ev; task_k := k |} :: l2, None)
      end.
Proof.
  induction pool as [|t pool IH]; [left; reflexivity|].
  cbn [step_job]. destruct (job_eqb (task_job t) j).
  - right. exists [], t, pool. split; [reflexivity|].
    destruct (resume oracle t s) as [s' [|e|ev k]]; reflexivity.
  - destruct IH as [IH|(l1 & t0 & l2 & Hpool & IH)].
    + left. rewrite IH. reflexivity.
    + right. exists (t :: l1), t0, l2. split; [rewrite Hpool; reflexivity|].
      rewrite IH. destruct (resume oracle t0 s) as [s' [|e|ev k]]; reflexivity.
Qed.

Lemma resume_wp (X : list J) (l1 l2 : list (Task E ans St J)) (t : Task E ans St J) (s : St) :
  WaitInv X (l1 ++ t :: l2) s ->
  match resume oracle t s with
  | (s', Finished) => WaitInv X (l1 ++ l2) s' /\ Effect X s s'
  | (s', Failed e) => False
  | (s', Blocked ev k) =>
      WaitInv X (l1 ++ {| task_job := task_job t; task_awaits := S (task_awaits t);
                          task_ev := ev; task_k := k |} :: l2) s' /\ Effect X s s'
  end.
Proof.
  intros Inv.
  destruct (wt_tasks Inv t) as [_ Hob]; [apply in_or_app; right; left; reflexivity|].
  pose proof (@run_sync_wp E ans St (G (task_job t)) (Rely (task_job t)) (oracle (task_job t))
                (G_refl (task_job t)) (@G_trans (task_job t))
                (task_k t (oracle (task_job t) (task_awaits t) (task_ev t)))
                (fun s'' _ _ => Post (task_job t) s'') (fun _ _ _ => False)
                (S (task_awaits t)) s (Hob s (Rely_refl _ s))) as [HG Hres].
  unfold resume.
  destruct (run_sync (task_k t (oracle (task_job t) (task_awaits t) (task_ev t))) s)
    as [s' [|e|ev k]]; cbn [fst snd] in *.
  - exact (@task_finishes X l1 l2 t s s' Inv HG Hres).
  - exact Hres.
  - apply (@task_blocks X l1 l2 t _ s s' Inv HG); [reflexivity|].
    intros s'' Hr. apply Hres. exact Hr.
Qed.

Lemma step_job_rg (X : list J) (j : J) (pool : list (Task E ans St J)) (s : St) :
  WaitInv X pool s ->
  snd (step_job job_eqb oracle j pool s) = None /\
  WaitInv X (snd (fst (step_job job_eqb oracle j pool s)))
    (fst (fst (step_job job_eqb oracle j pool s))) /\
  Effect X s (fst (fst (step_job job_eqb oracle j pool s))).
Proof.
  intros Inv. destruct (step_job_spec j pool s) as [->|(l1 & t & l2 & -> & ->)].
  - cbn. split; [reflexivity|]. split; [exact Inv|apply Effect_refl].
  - pose proof (@resume_wp X l1 l2 t s Inv) as H.
    destruct (resume oracle t s) as [s' [|e|ev k]]; cbn [fst snd].
    + split; [reflexivity|exact H].
    + destruct H.
    + split; [reflexivity|exact H].
Qed.

Lemma drain_pool_rg (X : list J) (pool : list (Task E ans St J)) :
  forall s, WaitInv X pool s ->
  exists s', drain_pool (U := U) oracle pool s = AllSettled s' [] /\
             WaitInv X [] s' /\ Effect X s s'.
Proof.
  induction pool as [|t rest IH]; intros s Inv.
  - exists s. split; [reflexivity|]. split; [exact Inv|apply Effect_refl].
  - cbn [drain_pool].
    destruct (wt_tasks Inv t (or_introl eq_refl)) as [_ Hob].
    pose proof (@drain_wp E ans St (G (task_job t)) (Rely (task_job t)) (oracle (task_job t))
                  (G_refl (task_job t)) (@G_trans (task_job t)) (Rely_refl (task_job t))
                  J oracle (task_job t)
                  (task_k t (oracle (task_job t) (task_awaits t) (task_ev t)))
                  (fun s'' _ _ => Post (task_job t) s'') (fun _ _ _ => False)
                  (fun _ _ => eq_refl) (S (task_awaits t)) s
                  (Hob s (Rely_refl _ s))) as [HG Hres].
    destruct (drain oracle (task_k t (oracle (task_job t) (task_awaits t) (task_ev t)))
                (task_job t) (S (task_awaits t)) s) as [s1 [e|]]; cbn [fst snd] in *;
      [destruct Hres as [_ []]|].
    destruct Hres as [_ Hres].
    destruct (@task_finishes X [] rest t s s1 Inv HG Hres) as [Inv1 Eff1].
    destruct (IH s1 Inv1) as (s' & Hd & Inv' & Eff').
    exists s'. split; [exact Hd|]. split; [exact Inv'|].
    exact (@Effect_trans X s s1 s' Eff1 Eff').
Qed.

Lemma handle_WaitInv (X : list J) (pool : list (Task E ans St J)) (u : U) (s : St) :
  WaitInv X pool s -> WaitInv X pool (handle u s).
Proof.
  intros Inv. constructor.
  - exact (wt_nodup Inv).
  - intros t Ht. destruct (wt_tasks Inv t Ht) as [HX Hob]. split; [exact HX|].
    apply (@ends_well_later _ _ _ _ _ Hob). apply handle_Rely.
  - intros j Hj Hnot. apply (@Post_stable j s); [|apply handle_Rely].
    exact (wt_done Inv j Hj Hnot).
Qed.

Lemma settle_window_rg (X : list J) (ticks : list (Tick J U)) :
  forall (pool : list (Task E ans St J)) (s : St),
  WaitInv X pool s ->
  exists s' rest,
    settle_window job_eqb handle oracle ticks pool s = AllSettled s' rest /\
    WaitInv X [] s' /\ Others X s s' /\ Keep s s' /\
    (Forall no_user_event ticks -> Quiet s s' /\ Forall no_user_event rest).
Proof.
  induction ticks as [|tick ticks IH]; intros pool s Inv.
  - destruct pool as [|t rest].
    + exists s, []. cbn. split; [reflexivity|]. split; [exact Inv|].
      split; [intros j _; apply Rely_refl|]. split; [apply Keep_refl|].
      intros H. split; [apply Quiet_refl|exact H].
    + destruct (@drain_pool_rg X (t :: rest) s Inv) as (s' & Hd & Inv' & (A & B & C)).
      exists s', []. cbn [settle_window]. split; [exact Hd|]. split; [exact Inv'|].
      split; [exact A|]. split; [exact B|]. intros H. split; [exact C|exact H].
  - destruct pool as [|t rest] eqn:Hpool.
    + exists s, (tick :: ticks). cbn. split; [reflexivity|]. split; [exact Inv|].
      split; [intros j _; apply Rely_refl|]. split; [apply Keep_refl|].
      intros H. split; [apply Quiet_refl|exact H].
    + rewrite <- Hpool in *.
      assert (Hsw : settle_window job_eqb handle oracle (tick :: ticks) pool s =
                match tick with
                | User u => settle_window job_eqb handle oracle ticks pool (handle u s)
                | Resume j =>
                    match step_job job_eqb oracle j pool s with
                    | (s', pool', None) => settle_window job_eqb handle oracle ticks pool' s'
                    | (s', _, Some e) => Rejection e s' ticks
                    end
                end).
      { rewrite Hpool. reflexivity. }
      rewrite Hsw. clear Hsw. destruct tick as [j|u].
      * destruct (@step_job_rg X j pool s Inv) as (Hnone & Inv1 & (A1 & B1 & C1)).
        destruct (step_job job_eqb oracle j pool s) as [[s1 pool1] rej]. cbn [fst snd] in *.
        subst rej.
        destruct (IH pool1 s1 Inv1) as (s' & rest' & Hw & Inv' & A & B & C).
        exists s', rest'. split; [exact Hw|]. split; [exact Inv'|].
        split; [intros i Hi; eapply Rely_trans; [apply A1|apply A]; exact Hi|].
        split; [eapply Keep_trans; eassumption|].
        intros Hall. apply Forall_inv_tail in Hall. destruct (C Hall) as [C2 C3].
        split; [eapply Quiet_trans; eassumption|exact C3].
      * destruct (IH pool (handle u s) (@handle_WaitInv X pool u s Inv))
          as (s' & rest' & Hw & Inv' & A & B & C).
        exists s', rest'. split; [exact Hw|]. split; [exact Inv'|].
        split; [intros i Hi; eapply Rely_trans; [apply handle_Rely|apply A; exact Hi]|].
        split; [eapply Keep_trans; [apply handle_Keep|exact B]|].
        intros Hall. apply Forall_inv in Hall. destruct Hall.
Qed.

Lemma start_all_rg (chunk : list J) :
  forall s, NoDup chunk -> (forall j, In j chunk -> In j jobs /\ Pre j s) ->
  snd (start_all runJob chunk s) = None /\
  WaitInv chunk (snd (fst (start_all runJob chunk s))) (fst (fst (start_all runJob chunk s))) /\
  Effect chunk s (fst (fst (start_all runJob chunk s))).
Proof.
  induction chunk as [|j chunk IH]; intros s Hnd Hpre.
  - cbn. split; [reflexivity|]. split; [|apply Effect_refl].
    constructor; [constructor|intros t []|intros j []].
  - cbn [start_all].
    apply NoDup_cons_iff in Hnd. destruct Hnd as [Hj Hnd].
    destruct (Hpre j (or_introl eq_refl)) as [Hjobs HPre].
    pose proof (@run_sync_wp E ans St (G j) (Rely j) (oracle j) (G_refl j) (@G_trans j)
                  (runJob j) (fun s'' _ _ => Post j s'') (fun _ _ _ => False) 0 s
                  (@runJob_wp j s Hjobs HPre))
      as [HG Hres].
    destruct (run_sync (runJob j) s) as [s1 r]. cbn [fst snd] in *.
    assert (Hpre1 : forall i, In i chunk -> In i jobs /\ Pre i s1).
    { intros i Hi. destruct (Hpre i (or_intror Hi)) as [H1 H2]. split; [exact H1|].
      apply (@Pre_stable i s s1 H2). apply (@G_Rely j i); [|exact HG].
      intros ->. exact (Hj Hi). }
    destruct (IH s1 Hnd Hpre1) as (Hnone & Inv & Eff).
    destruct (start_all runJob chunk s1) as [[s2 pool] rej]. cbn [fst snd] in *. subst rej.
    assert (Hrj : Rely j s1 s2) by (apply (proj1 Eff); exact Hj).
    assert (Heff : Effect (j :: chunk) s s2).
    { apply (@Effect_trans _ s s1 s2).
      - apply (@Effect_of_step (j :: chunk) j); [left; reflexivity|exact HG].
      - destruct Eff as (A & B & C). split; [|split; assumption].
        intros i Hi. apply A. intros Hin. apply Hi. right. exact Hin. }
    assert (Hpool : forall t, In t pool -> In (task_job t) chunk).
    { intros t Ht. apply (wt_tasks Inv t Ht). }
    assert (Hjpool : ~ In j (map (@task_job _ _ _ _) pool)).
    { intros Hin. apply in_map_iff in Hin. destruct Hin as (t & <- & Ht).
      exact (Hj (Hpool t Ht)). }
    destruct r as [|e|ev k]; cbn [fst snd].
    + split; [reflexivity|]. split; [|exact Heff]. constructor.
      * exact (wt_nodup Inv).
      * intros t Ht. destruct (wt_tasks Inv t Ht) as [H1 H2]. split; [right; exact H1|exact H2].
      * intros i [<-|Hi] Hnot.
        -- exact (@Post_stable _ _ _ Hres Hrj).
        -- exact (wt_done Inv i Hi Hnot).
    + destruct Hres.
    + split; [reflexivity|]. split; [|exact Heff]. constructor.
      * cbn [map task_job]. apply NoDup_cons; [exact Hjpool|exact (wt_nodup Inv)].
      * intros t [<-|Ht].
        -- cbn [task_job]. split; [left; reflexivity|].
           intros s' Hr. cbn [task_job task_k task_awaits task_ev]. apply Hres.
           eapply Rely_trans; [exact Hrj|exact Hr].
        -- destruct (wt_tasks Inv t Ht) as [H1 H2]. split; [right; exact H1|exact H2].
      * intros i [<-|Hi] Hnot.
        -- exfalso. apply Hnot. left. reflexivity.
        -- apply (wt_done Inv i Hi). intros Hin. apply Hnot. right. exact Hin.
Qed.

Lemma promise_all_rg (chunk : list J) (s : St) (ticks : list (Tick J U)) :
  NoDup chunk -> (forall j, In j chunk -> In j jobs /\ Pre j s) ->
  exists s' rest,
    promise_all job_eqb handle oracle runJob chunk s ticks = AllSettled s' rest /\
    (forall j, In j chunk -> Post j s') /\ Others chunk s s' /\ Keep s s' /\
    (Forall no_user_event ticks -> Quiet s s' /\ Forall no_user_event rest).
Proof.
  intros Hnd Hpre. unfold promise_all.
  destruct (@start_all_rg chunk s Hnd Hpre) as (Hnone & Inv & (A1 & B1 & C1)).
  destruct (start_all runJob chunk s) as [[s1 pool] rej]. cbn [fst snd] in *. subst rej.
  destruct (@settle_window_rg chunk ticks pool s1 Inv) as (s' & rest & Hw & Inv' & A & B & C).
  exists s', rest. split; [exact Hw|]. split.
  - intros j Hj. apply (wt_done Inv' j Hj). intros [].
  - split; [intros i Hi; eapply Rely_trans; [apply A1|apply A]; exact Hi|].
    split; [eapply Keep_trans; eassumption|].
    intros Hall. destruct (C Hall) as [C2 C3].
    split; [eapply Quiet_trans; eassumption|exact C3].
Qed.

(** The loop at index [i]: the jobs before [i] have ended, the jobs
    from [i] on have not been started. *)
Definition LoopInv (i : nat) (s : St) : Prop :=
  (forall j, In j (firstn i jobs) -> Post j s) /\
  (forall j, In j (skipn i jobs) -> Pre j s).

Hypothesis jobs_NoDup : NoDup jobs.

Lemma windows_loop_rg (fuel : nat) :
  forall (i : nat) (s : St) (ticks : list (Tick J U)) (windows : list (list J)),
  1 <= concurrency s -> 0 < fuel -> List.length jobs < i + fuel ->
  LoopInv i s ->
  exists s' n,
    windows_loop job_eqb handle oracle isRunning concurrency runJob jobs fuel i s ticks windows
    = Some (Completed s' (windows ++ windows_run jobs (concurrency s) i n)) /\
    LoopInv (i + n * concurrency s) s' /\
    Keep s s' /\
    (isRunning s' = true -> List.length jobs <= i + n * concurrency s) /\
    (0 < n -> i + (n - 1) * concurrency s < List.length jobs) /\
    (Forall no_user_event ticks -> Quiet s s').
Proof.
  induction fuel as [|fuel IH]; intros i s ticks windows HC Hpos Hfuel Inv; [lia|].
  cbn [windows_loop].
  assert (Hstop : exists s' n,
            Some (Completed s windows)
            = Some (Completed s' (windows ++ windows_run jobs (concurrency s) i n)) /\
            LoopInv (i + n * concurrency s) s' /\ Keep s s' /\
            (isRunning s = false \/ List.length jobs <= i ->
             isRunning s' = true -> List.length jobs <= i + n * concurrency s) /\
            (0 < n -> i + (n - 1) * concurrency s < List.length jobs) /\
            (Forall no_user_event ticks -> Quiet s s')).
  { exists s, 0. unfold windows_run. cbn [seq map]. rewrite app_nil_r, Nat.add_0_r.
    split; [reflexivity|]. split; [exact Inv|]. split; [apply Keep_refl|].
    split; [intros [H|H] H'; [congruence|lia]|]. split; [lia|]. intros _. apply Quiet_refl. }
  destruct (Nat.ltb_spec i (List.length jobs)) as [Hlt|Hge].
  - destruct (isRunning s) eqn:Hrun; cbn [negb].
    + set (c := concurrency s) in *.
      assert (Hslice : slice i (i + c) jobs = firstn c (skipn i jobs)).
      { unfold slice. replace (i + c - i) with c by lia. reflexivity. }
      destruct (@NoDup_window J c i jobs jobs_NoDup) as (Hnd & Hbefore & Hafter).
      assert (Hpre : forall j, In j (slice i (i + c) jobs) -> In j jobs /\ Pre j s).
      { intros j Hj. rewrite Hslice in Hj. split.
        - rewrite <- (firstn_skipn i jobs). apply in_or_app. right.
          rewrite <- (firstn_skipn c (skipn i jobs)). apply in_or_app. left. exact Hj.
        - apply (proj2 Inv). apply (in_skipn_add c). left. exact Hj. }
      rewrite <- Hslice in Hnd.
      destruct (@promise_all_rg (slice i (i + c) jobs) s ticks Hnd Hpre)
        as (s1 & rest & Hw & Hpost & Hoth & Hkeep & Hq).
      rewrite Hw. pose proof (@Keep_concurrency _ _ Hkeep) as Hc. fold c in Hc.
      assert (Inv1 : LoopInv (i + c) s1).
      { split.
        - intros j Hj. apply in_firstn_add in Hj. destruct Hj as [Hj|Hj].
          + apply (@Post_stable j s s1); [exact (proj1 Inv j Hj)|].
            apply Hoth. rewrite Hslice. intros Hin. exact (Hbefore j Hin Hj).
          + apply Hpost. rewrite Hslice. exact Hj.
        - intros j Hj. apply (@Pre_stable j s s1).
          + apply (proj2 Inv). apply (in_skipn_add c). right. exact Hj.
          + apply Hoth. rewrite Hslice. intros Hin. exact (Hafter j Hin Hj). }
      destruct (IH (i + c) s1 rest (windows ++ [slice i (i + c) jobs]))
        as (s' & n & Hloop & Inv' & Hkeep' & Hend & Hlast & Hq'); [lia|lia|lia|exact Inv1|].
      exists s', (S n). rewrite Hloop, Hc, windows_run_S, <- app_assoc. cbn [app].
      split; [reflexivity|].
      replace (i + S n * c) with (i + c + n * c) by lia. rewrite Hc in Inv', Hend, Hlast.
      split; [exact Inv'|]. split; [eapply Keep_trans; eassumption|].
      split; [exact Hend|]. split.
      * intros _. destruct n as [|n]; [cbn; lia|].
        replace (S (S n) - 1) with (S n) by lia.
        specialize (Hlast ltac:(lia)). replace (S n - 1) with n in Hlast by lia.
        cbn [Nat.mul]. lia.
      * intros Hall. destruct (Hq Hall) as [Hq1 Hq2].
        eapply Quiet_trans; [exact Hq1|exact (Hq' Hq2)].
    + destruct Hstop as (s' & n & H1 & H2 & H3 & H4 & H5 & H6).
      exists s', n. split; [exact H1|]. split; [exact H2|]. split; [exact H3|].
      split; [apply H4; left; reflexivity|]. split; [exact H5|exact H6].
  - destruct Hstop as (s' & n & H1 & H2 & H3 & H4 & H5 & H6).
    exists s', n. split; [exact H1|]. split; [exact H2|]. split; [exact H3|].
    split; [apply H4; right; exact Hge|]. split; [exact H5|exact H6].
Qed.
End LoopGuarantee.

Section RetryGuarantee.
Context {E : Type} {ans : E -> Type} {St T : Type}.
Variables G Rely : St -> St -> Prop.
Variable answer : nat -> forall ev : E, ans ev.
(** [I] is kept by the waiting.  [RV n n' v]: an invocation of the
    operation made after [n] awaited operations returns [v] after
    [n']; [RE n n' e]: it throws [e] after [n']. *)
Variable I : St -> Prop.
Variable RV : nat -> nat -> T -> Prop.
Variable RE : nat -> nat -> JsValue -> Prop.

(** [Retried n left n' r]: invocations made from [n] awaited operations
    on, with [left] retries allowed, end after [n'] operations with the
    value of the first invocation that returned, or with the error of
    the last one when they all threw; one operation (the delay) is
    awaited between two invocations. *)
Inductive Retried : nat -> nat -> nat -> Settled T -> Prop :=
| retried_returned (n n' left : nat) (v : T) :
    RV n n' v -> Retried n left n' (Fulfilled v)
| retried_exhausted (n n' : nat) (e : JsValue) :
    RE n n' e -> Retried n 0 n' (Rejected e)
| retried_again (n n' left n'' : nat) (e : JsValue) (r : Settled T) :
    RE n n' e -> Retried (S n') left n'' r -> Retried n (S left) n'' r.

Variable fn : Proc E ans St T.
Variables retries delayMs : Z.
Variable onRetry : Z -> JsValue -> Proc E ans St unit.
Variable delay : Z -> Proc E ans St unit.

(** [withGenericRetry] with a bound [0 <= retries]: it returns the
    value of the first invocation that succeeds, or throws the error of
    invocation [retries + 1] when none does, never the initial
    [lastError]. *)
Lemma wp_withGenericRetry :
  (0 <= retries)%Z ->
  (forall n s, I s ->
     wp G Rely answer fn (fun s' n' v => I s' /\ RV n n' v) (fun s' n' e => I s' /\ RE n n' e) n s) ->
  (forall a e n s, I s ->
     wp G Rely answer (onRetry a e) (fun s' n' _ => I s' /\ n' = n) (fun _ _ _ => False) n s) ->
  (forall ms n s, I s ->
     wp G Rely answer (delay ms) (fun s' n' _ => I s' /\ n' = S n) (fun _ _ _ => False) n s) ->
  forall n s, I s ->
  wp G Rely answer (withGenericRetry fn retries delayMs onRetry delay)
     (fun s' n' v => I s' /\ Retried n (Z.to_nat retries) n' (Fulfilled v))
     (fun s' n' e => I s' /\ Retried n (Z.to_nat retries) n' (Rejected e)) n s.
Proof.
  intros HR Hfn Hobs Hdelay.
  assert (H : forall m attempt le n s,
            Z.to_nat (retries + 2 - attempt) = m ->
            (1 <= attempt)%Z -> (attempt <= retries + 1)%Z -> I s ->
            wp G Rely answer (withGenericRetry_loop fn retries delayMs onRetry delay attempt le)
               (fun s' n' x => I s' /\ exists v, x = Returned v /\
                  Retried n (Z.to_nat (retries + 1 - attempt)) n' (Fulfilled v))
               (fun s' n' e => I s' /\
                  Retried n (Z.to_nat (retries + 1 - attempt)) n' (Rejected e)) n s).
  { induction m as [|m IH]; intros attempt le n s Hm H1 Hle Hs; [lia|].
    simp withGenericRetry_loop.
    destruct (Z_le_dec attempt (retries + 1)) as [Hle'|Hgt]; [|lia]. cbn.
    apply wp_try_catch. apply wp_bind.
    apply (@wp_mono E ans St G Rely answer T fn (fun s' n' v => I s' /\ RV n n' v) _
             (fun s' n' e => I s' /\ RE n n' e) _); [| |exact (Hfn n s Hs)].
    - intros s1 n1 v [Hs1 Hv]. cbn. split; [exact Hs1|]. exists v.
      split; [reflexivity|]. apply retried_returned. exact Hv.
    - intros s1 n1 e [Hs1 He]. destruct (Z.leb_spec attempt retries) as [Hlt|Hge].
      + apply wp_bind.
        apply (@wp_mono E ans St G Rely answer unit (onRetry attempt e)
                 (fun s' n' _ => I s' /\ n' = n1) _ (fun _ _ _ => False) _);
          [|intros ? ? ? []|exact (Hobs attempt e n1 s1 Hs1)].
        intros s2 n2 _ [Hs2 ->]. apply wp_bind.
        apply (@wp_mono E ans St G Rely answer unit (delay delayMs)
                 (fun s' n' _ => I s' /\ n' = S n1) _ (fun _ _ _ => False) _);
          [|intros ? ? ? []|exact (Hdelay delayMs n1 s2 Hs2)].
        intros s3 n3 _ [Hs3 ->].
        replace (Z.to_nat (retries + 1 - attempt))
          with (S (Z.to_nat (retries + 1 - (attempt + 1)))) by lia.
        apply (@wp_mono E ans St G Rely answer _
                 (withGenericRetry_loop fn retries delayMs onRetry delay (attempt + 1) e)
                 (fun s' n' x => I s' /\ exists v, x = Returned v /\
                    Retried (S n1) (Z.to_nat (retries + 1 - (attempt + 1))) n' (Fulfilled v)) _
                 (fun s' n' e' => I s' /\
                    Retried (S n1) (Z.to_nat (retries + 1 - (attempt + 1))) n' (Rejected e')) _);
          [| |apply IH; [lia|lia|lia|exact Hs3]].
        * intros s4 n4 x [Hs4 (v & -> & Hv)]. split; [exact Hs4|]. exists v.
          split; [reflexivity|]. exact (retried_again He Hv).
        * intros s4 n4 e' [Hs4 He']. split; [exact Hs4|]. exact (retried_again He He').
      + cbn. split; [exact Hs1|].
        replace (Z.to_nat (retries + 1 - attempt)) with 0 by lia.
        apply retried_exhausted. exact He. }
  intros n s Hs. unfold withGenericRetry. apply wp_bind.
  apply (@wp_mono E ans St G Rely answer _ _
           (fun s' n' x => I s' /\ exists v, x = Returned v /\
              Retried n (Z.to_nat (retries + 1 - 1)) n' (Fulfilled v)) _
           (fun s' n' e => I s' /\ Retried n (Z.to_nat (retries + 1 - 1)) n' (Rejected e)) _);
    [| |exact (H _ 1%Z VUndefined n s eq_refl ltac:(lia) ltac:(lia) Hs)].
  - intros s1 n1 x [H1 (v & -> & Hv)]. cbn. split; [exact H1|].
    replace (retries + 1 - 1)%Z with retries in Hv by lia. exact Hv.
  - intros s1 n1 e [H1 He]. split; [exact H1|].
    replace (retries + 1 - 1)%Z with retries in He by lia. exact He.
Qed.
End RetryGuarantee.

Section RetriedOperations.
Context {E : Type} {ans : E -> Type} {T : Type}.
Variable answer : nat -> forall ev : E, ans ev.

(** The operation awaits [ev] once and settles as [res] makes of the
    answer: its invocations from [n] awaited operations on, with [left]
    retries allowed, each followed by the delay. *)
Variable ev : E.
Variable res : ans ev -> Settled T.

Fixpoint attempts (n left : nat) : Settled T :=
  match res (answer n ev) with
  | Fulfilled v => Fulfilled v
  | Rejected e =>
      match left with
      | O => Rejected e
      | S left' => attempts (S (S n)) left'
      end
  end.

Lemma Retried_attempts (n left n' : nat) (r : Settled T) :
  Retried (fun n n' v => n' = S n /\ res (answer n ev) = Fulfilled v)
          (fun n n' e => n' = S n /\ res (answer n ev) = Rejected e) n left n' r ->
  attempts n left = r.
Proof.
  induction 1 as [n n' left v [_ Hv]|n n' e [_ He]|n n' left n'' e r [-> He] _ IH].
  - destruct left; cbn [attempts]; rewrite Hv; reflexivity.
  - cbn [attempts]. rewrite He. reflexivity.
  - cbn [attempts]. rewrite He. exact IH.
Qed.

(** The operation throws [e0] at once. *)
Lemma Retried_thrown (e0 : JsValue) (n left n' : nat) (r : Settled T) :
  Retried (fun _ _ _ => False) (fun n n' e => n' = n /\ e = e0) n left n' r ->
  r = Rejected e0.
Proof.
  induction 1 as [n n' left v []|n n' e [_ ->]|n n' left n'' e r _ _ IH];
    [reflexivity|exact IH].
Qed.
End RetriedOperations.

Lemma NoDup_list_prod {A B : Type} (l1 : list A) (l2 : list B) :
  NoDup l1 -> NoDup l2 -> NoDup (list_prod l1 l2).
Proof.
  intros H1 H2. induction l1 as [|a l1 IH]; cbn [list_prod]; [constructor|].
  apply NoDup_cons_iff in H1. destruct H1 as [Ha H1].
  apply NoDup_app.
  - apply NoDup_map_NoDup_ForallPairs; [|exact H2]. intros x y _ _ Heq. congruence.
  - exact (IH H1).
  - intros [a' b] Hin Hin'. apply in_map_iff in Hin. destruct Hin as (x & Hx & _).
    injection Hx as <- _. apply in_prod_iff in Hin'. exact (Ha (proj1 Hin')).
Qed.

Lemma firstn_plus {A : Type} (b : nat) :
  forall (a : nat) (l : list A), firstn (a + b) l = (firstn a l ++ firstn b (skipn a l))%list.
Proof.
  induction a as [|a IH]; intros l; [reflexivity|].
  destruct l as [|x l]; cbn [Nat.add firstn skipn app].
  - rewrite firstn_nil. reflexivity.
  - rewrite IH. reflexivity.
Qed.

Lemma concat_windows_run {J : Type} (jobs : list J) (c : nat) :
  forall (n i : nat),
  List.concat (windows_run jobs c i n) = firstn (n * c) (skipn i jobs).
Proof.
  induction n as [|n IH]; intros i; [reflexivity|].
  rewrite windows_run_S. cbn [List.concat]. rewrite IH.
  unfold slice. replace (i + c - i) with c by lia.
  replace (S n * c) with (c + n * c) by lia. rewrite firstn_plus, skipn_skipn.
  replace (c + i) with (i + c) by lia. reflexivity.
Qed.

Lemma length_replace_nth {A : Type} (xs : list A) (i : nat) (x : A) :
  List.length (replace_nth xs i x) = List.length xs.
Proof.
  revert i. induction xs as [|y xs IH]; intros [|i]; cbn; try reflexivity.
  rewrite IH. reflexivity.
Qed.

(* ===================================================================== *)
(** ** The cells of a BatchEditor run *)
(* ===================================================================== *)

(** The invocations of a single awaited operation that are all
    rejected end with one of the rejections. *)
Lemma attempts_rejected {E : Type} {ans : E -> Type} {T : Type}
  (answer : nat -> forall ev : E, ans ev) (ev : E) (res : ans ev -> Settled T) (e : JsValue) :
  forall left n, attempts answer ev res n left = Rejected e ->
  exists n', res (answer n' ev) = Rejected e.
Proof.
  induction left as [|left IH]; intros n; cbn [attempts];
    destruct (res (answer n ev)) as [v|e'] eqn:Hres; try discriminate.
  - intros [= <-]. exists n. exact Hres.
  - apply IH.
Qed.

(** [{ status: 'done', imageUrl }] *)
Definition done_cell (url : string) : Batch.EditResult :=
  {| Batch.status := StatusDone; Batch.imageUrl := VString url;
     Batch.errorMessage := VUndefined |}.

(** [{ status: 'error', imageUrl: null, errorMessage }] *)
Definition error_cell (msg : JsValue) : Batch.EditResult :=
  {| Batch.status := StatusError; Batch.imageUrl := VNull; Batch.errorMessage := msg |}.

Definition outcome_cell (o : JobOutcome) : Batch.EditResult :=
  match o with
  | Succeeded url => done_cell url
  | FailedWith msg => error_cell msg
  end.

(** How a request for an edit settles, as the retry helper sees it. *)
Definition edit_result (o : ApiOutcome) : Settled GenerateContentResponse :=
  match o with
  | ApiFulfilled r => Fulfilled r
  | ApiRejected err => Rejected (thrown_value err)
  end.

(** The outcome of the job [(f, p)] of a run with the prompts [ps],
    from what its own operations are answered with: the file is read
    (its operation 0); the edit of the image bytes for prompt [p] is
    requested up to six times (operations 1, 3, ..., 11, a delay
    between two of them); the first response obtained gives the image,
    or the failure of a response without image; when all six requests
    are rejected the job fails with the message of the last error.  A
    file that cannot be read, or whose data URL has nothing after its
    first comma, makes the job fail without any request. *)
Definition batch_outcome (oracle : Batch.Oracle) (ps : list string) (job : nat * nat)
  : JobOutcome :=
  match oracle job 0 (Batch.BlobToDataUrl (fst job)) with
  | Batch.BlobFailed => FailedWith VUndefined
  | Batch.BlobLoaded dataUrl =>
      match nth_error (split_on ","%char dataUrl) 1 with
      | Some (String a rest) =>
          match attempts (oracle job)
                  (Batch.GenerateImageEdit (Batch.string_at ps (snd job)) (String a rest))
                  edit_result 1 5 with
          | Fulfilled resp => outcome_of (ApiFulfilled resp)
          | Rejected e => FailedWith (message_of e)
          end
      | _ => FailedWith (VString "No source image provided.")
      end
  end.

Section BatchGuarantee.
Import Batch.
Local Open Scope proc_scope.
Variable oracle : Oracle.
Variable ps : list string.

(** What the steps of a job may change: its own cell and placeholder,
    and the counter. *)
Definition job_writes (j : nat * nat) (s s' : BatchWidget) : Prop :=
  List.length (results s') = List.length (results s) /\
  (forall q, q <> j -> cell (results s') q = cell (results s) q) /\
  (forall q, q <> j -> (In q (placeholders s') <-> In q (placeholders s))) /\
  isRunning s' = isRunning s /\
  concurrency s' = concurrency s /\
  prompts s' = prompts s.

(** What a job tolerates while it waits: its cell, its placeholder and
    the prompts are left alone and the flag is not set again. *)
Definition job_relies (j : nat * nat) (s s' : BatchWidget) : Prop :=
  List.length (results s') = List.length (results s) /\
  cell (results s') j = cell (results s) j /\
  (In j (placeholders s') <-> In j (placeholders s)) /\
  (isRunning s' = true -> isRunning s = true) /\
  prompts s' = prompts s.

Definition job_waiting (j : nat * nat) (s : BatchWidget) : Prop :=
  fst j < List.length (results s) /\ cell (results s) j = Some pending_result.

Definition job_unstarted (j : nat * nat) (s : BatchWidget) : Prop :=
  job_waiting j s /\ In j (placeholders s) /\ prompts s = ps.

(** The cell of a job that has ended holds the outcome of the job, or
    is still pending when the run was stopped before the job could
    write its image. *)
Definition job_ended (j : nat * nat) (s : BatchWidget) : Prop :=
  (cell (results s) j = Some pending_result \/
   cell (results s) j = Some (outcome_cell (batch_outcome oracle ps j))) /\
  (isRunning s = true ->
   cell (results s) j = Some (outcome_cell (batch_outcome oracle ps j))).

Definition same_concurrency (s s' : BatchWidget) : Prop := concurrency s' = concurrency s.
Definition same_flag (s s' : BatchWidget) : Prop := isRunning s' = isRunning s.

Lemma job_writes_refl (j : nat * nat) (s : BatchWidget) : job_writes j s s.
Proof. unfold job_writes. intuition. Qed.

Lemma job_writes_trans (j : nat * nat) (s1 s2 s3 : BatchWidget) :
  job_writes j s1 s2 -> job_writes j s2 s3 -> job_writes j s1 s3.
Proof.
  intros (A1 & B1 & C1 & D1 & E1 & F1) (A2 & B2 & C2 & D2 & E2 & F2). unfold job_writes.
  split; [congruence|]. split; [intros q Hq; rewrite B2, B1; auto|].
  split; [intros q Hq; rewrite C2, C1; tauto|]. repeat split; congruence.
Qed.

Lemma job_relies_refl (j : nat * nat) (s : BatchWidget) : job_relies j s s.
Proof. unfold job_relies. intuition. Qed.

Lemma job_relies_trans (j : nat * nat) (s1 s2 s3 : BatchWidget) :
  job_relies j s1 s2 -> job_relies j s2 s3 -> job_relies j s1 s3.
Proof.
  intros (A1 & B1 & C1 & D1 & E1) (A2 & B2 & C2 & D2 & E2). unfold job_relies.
  split; [congruence|]. split; [congruence|]. split; [tauto|]. split; [auto|congruence].
Qed.

Lemma job_writes_relies (i j : nat * nat) (s s' : BatchWidget) :
  i <> j -> job_writes i s s' -> job_relies j s s'.
Proof.
  intros Hne (A & B & C & D & _ & F). unfold job_relies.
  split; [exact A|]. split; [apply B; congruence|]. split; [apply C; congruence|].
  split; [congruence|exact F].
Qed.

Lemma handle_relies (j : nat * nat) (u : UserEvent) (s : BatchWidget) :
  job_relies j s (handle u s).
Proof. destruct u. unfold job_relies. cbn. intuition discriminate. Qed.

Lemma job_waiting_stable (j : nat * nat) (s s' : BatchWidget) :
  job_waiting j s -> job_relies j s s' -> job_waiting j s'.
Proof. intros [A B] (A1 & B1 & _). unfold job_waiting. rewrite A1, B1. auto. Qed.

Lemma job_unstarted_stable (j : nat * nat) (s s' : BatchWidget) :
  job_unstarted j s -> job_relies j s s' -> job_unstarted j s'.
Proof.
  intros (A & B & C) H. split; [exact (@job_waiting_stable j s s' A H)|].
  destruct H as (_ & _ & D & _ & E). split; [tauto|congruence].
Qed.

Lemma job_ended_stable (j : nat * nat) (s s' : BatchWidget) :
  job_ended j s -> job_relies j s s' -> job_ended j s'.
Proof.
  intros (A & B) (_ & B1 & _ & D1 & _). unfold job_ended. rewrite B1. auto.
Qed.

Lemma put_cell_writes (j : nat * nat) (r : EditResult) (s : BatchWidget) :
  fst j < List.length (results s) ->
  set_cell j r s = Normal (put_cell j r s) /\
  job_writes j s (put_cell j r s) /\
  cell (results (put_cell j r s)) j = Some r.
Proof.
  intros Hrow. pose proof (put_cell_only j r s) as [Hcells Hconc].
  unfold put_cell in *. unfold set_cell in *.
  destruct (nth_error (results s) (fst j)) as [row|] eqn:Hr.
  2:{ apply nth_error_None in Hr. lia. }
  split; [reflexivity|]. split.
  - unfold job_writes. cbn [results placeholders isRunning concurrency prompts].
    split; [apply length_replace_nth|]. split; [|tauto].
    intros q Hq. apply Hcells. congruence.
  - unfold cell. cbn [results]. rewrite nth_error_replace_nth, Nat.eqb_refl, Hr. cbn.
    apply js_get_set_same.
Qed.

Lemma replace_placeholder_writes (j : nat * nat) (s : BatchWidget) :
  job_writes j s (replace_placeholder j s).
Proof.
  unfold job_writes. cbn. split; [reflexivity|]. split; [reflexivity|].
  split; [|auto]. intros q Hq. rewrite filter_In. split; [tauto|].
  intros H. split; [exact H|]. unfold job_eqb.
  destruct (Nat.eqb_spec (fst q) (fst j)) as [Hf|Hf]; [|reflexivity].
  destruct (Nat.eqb_spec (snd q) (snd j)) as [Hp|Hp]; [|reflexivity].
  exfalso. apply Hq. destruct q, j. cbn in *. congruence.
Qed.

Lemma count_completed_writes (j : nat * nat) (s : BatchWidget) :
  job_writes j s (count_completed s).
Proof. unfold job_writes. cbn. intuition. Qed.

Lemma image_url_of_thrown_non_nullish (resp : GenerateContentResponse) (e : JsValue) :
  image_url_of resp = Thrown e -> nullish e = false.
Proof.
  unfold image_url_of, find_image_part.
  destruct (candidates resp) as [cs|]; [|intros [= <-]; reflexivity].
  destruct (nth_error cs 0) as [c|]; [|intros [= <-]; reflexivity].
  destruct (content c) as [ct|]; [|intros [= <-]; reflexivity].
  destruct (parts ct) as [ps'|]; [|intros [= <-]; reflexivity].
  destruct (match find has_inlineData ps' with Some p => inlineData p | None => None end);
    [discriminate|intros [= <-]; reflexivity].
Qed.

Variable j : nat * nat.

(** [wp] for the steps of job [j], whose operations the oracle
    answers. *)
Definition job_wp {R : Type} (p : BatchProc R) (Q : BatchWidget -> nat -> R -> Prop)
  (P : BatchWidget -> nat -> JsValue -> Prop) (n : nat) (s : BatchWidget) : Prop :=
  wp (job_writes j) (job_relies j) (oracle j) p Q P n s.

(** An error reaches the [catch] block: it is what the job fails
    with. *)
Definition caught (s : BatchWidget) (n : nat) (e : JsValue) : Prop :=
  job_waiting j s /\ nullish e = false /\
  batch_outcome oracle ps j = FailedWith (message_of e).

Lemma write_cell_wp (r : EditResult) (n : nat) (s : BatchWidget) :
  fst j < List.length (results s) ->
  job_wp (write_cell j r)
    (fun s' _ _ => cell (results s') j = Some r /\ isRunning s' = isRunning s)
    (fun _ _ _ => False) n s.
Proof.
  intros Hrow. destruct (@put_cell_writes j r s Hrow) as (Hset & Hw & Hcell).
  unfold job_wp, write_cell. cbn. rewrite Hset. cbn.
  split; [exact Hw|]. split; [exact Hcell|]. apply Hw.
Qed.

Lemma settle_cell_wp (r : EditResult) (n : nat) (s : BatchWidget) :
  fst j < List.length (results s) ->
  r = outcome_cell (batch_outcome oracle ps j) ->
  job_wp (write_cell j r ;;; Write (replace_placeholder j) (Ret tt))
    (fun s' _ _ => job_ended j s') (fun _ _ _ => False) n s.
Proof.
  intros Hrow Hr. apply wp_bind.
  apply (@wp_mono _ _ _ _ _ _ _ (write_cell j r)
           (fun s' _ _ => cell (results s') j = Some r /\ isRunning s' = isRunning s) _
           (fun _ _ _ => False) _); [|auto|exact (@write_cell_wp r n s Hrow)].
  intros s1 n1 _ [Hcell _]. cbn. split; [apply replace_placeholder_writes|].
  unfold job_ended. cbn [replace_placeholder results]. rewrite Hcell, Hr. auto.
Qed.

Lemma after_generate_wp (response : GenerateContentResponse) (n : nat) (s : BatchWidget) :
  job_waiting j s ->
  batch_outcome oracle ps j = outcome_of (ApiFulfilled response) ->
  job_wp (after_generate j response) (fun s' _ _ => job_ended j s') caught n s.
Proof.
  intros [Hrow Hcell] Hout. unfold job_wp, after_generate. cbn [wp].
  destruct (isRunning s) eqn:Hrun; cbn [negb].
  - apply wp_bind. apply wp_lift. cbn [outcome_of] in Hout.
    destruct (image_url_of response) as [url|e] eqn:Hu.
    + apply (@wp_mono _ _ _ _ _ _ _ _ (fun s' _ _ => job_ended j s') _ (fun _ _ _ => False) _);
        [auto|intros s1 n1 e []|].
      apply settle_cell_wp; [exact Hrow|]. rewrite Hout. reflexivity.
    + split; [split; assumption|].
      split; [exact (@image_url_of_thrown_non_nullish response e Hu)|exact Hout].
  - cbn. split; [left; exact Hcell|]. congruence.
Qed.

Lemma catch_block_wp (e : JsValue) (n : nat) (s : BatchWidget) :
  caught s n e ->
  job_wp (catch_block j e) (fun s' _ _ => job_ended j s') (fun _ _ _ => False) n s.
Proof.
  intros ([Hrow _] & He & Hout). unfold job_wp, catch_block. apply wp_bind. apply wp_lift.
  unfold message_of in Hout.
  destruct (@get_member_non_nullish e "message" He) as (msg & Hmsg). rewrite Hmsg in *.
  apply settle_cell_wp; [exact Hrow|]. rewrite Hout. reflexivity.
Qed.

Lemma finally_block_wp (n : nat) (s : BatchWidget) :
  job_ended j s ->
  job_wp finally_block (fun s' _ _ => job_ended j s') (fun _ _ _ => False) n s.
Proof.
  intros Hs. unfold job_wp, finally_block. cbn [wp].
  destruct (isRunning s); cbn; [|exact Hs].
  split; [apply count_completed_writes|exact Hs].
Qed.

(** The requests of the job for the bytes [bytes], from operation 1
    on. *)
Lemma requests_wp (bytes : string) (s : BatchWidget) :
  bytes <> EmptyString ->
  job_waiting j s ->
  job_wp (withGenericRetry (generateFn (string_at ps (snd j)) (VString bytes)) 5 2000
            onRetry delay)
    (fun s' _ v => job_waiting j s' /\
       attempts (oracle j) (GenerateImageEdit (string_at ps (snd j)) bytes) edit_result 1 5
       = Fulfilled v)
    (fun s' _ e => job_waiting j s' /\
       attempts (oracle j) (GenerateImageEdit (string_at ps (snd j)) bytes) edit_result 1 5
       = Rejected e) 1 s.
Proof.
  intros Hne Hs. destruct bytes as [|a rest]; [congruence|].
  set (ev := GenerateImageEdit (string_at ps (snd j)) (String a rest)).
  apply (@wp_mono _ _ _ _ _ _ _ _
           (fun s' n' v => job_waiting j s' /\
              Retried (fun n n' v => n' = S n /\ edit_result (oracle j n ev) = Fulfilled v)
                      (fun n n' e => n' = S n /\ edit_result (oracle j n ev) = Rejected e)
                      1 (Z.to_nat 5) n' (Fulfilled v)) _
           (fun s' n' e => job_waiting j s' /\
              Retried (fun n n' v => n' = S n /\ edit_result (oracle j n ev) = Fulfilled v)
                      (fun n n' e => n' = S n /\ edit_result (oracle j n ev) = Rejected e)
                      1 (Z.to_nat 5) n' (Rejected e)) _).
  - intros s1 n1 v [H1 H2]. split; [exact H1|].
    exact (@Retried_attempts _ _ _ (oracle j) ev edit_result 1 (Z.to_nat 5) n1 _ H2).
  - intros s1 n1 e [H1 H2]. split; [exact H1|].
    exact (@Retried_attempts _ _ _ (oracle j) ev edit_result 1 (Z.to_nat 5) n1 _ H2).
  - apply (@wp_withGenericRetry _ _ _ _ (job_writes j) (job_relies j) (oracle j)
             (job_waiting j)); [lia| | | |exact Hs].
    + intros n s1 H1. cbn. intros s2 Hr. pose proof (@job_waiting_stable j s1 s2 H1 Hr) as H2.
      fold ev. destruct (oracle j n ev) as [resp|err]; cbn; auto.
    + intros a0 e n s1 H1. cbn. auto.
    + intros ms n s1 H1. cbn. intros s2 Hr. split; [|reflexivity].
      exact (@job_waiting_stable j s1 s2 H1 Hr).
Qed.

(** Without image bytes no request is made: every attempt throws. *)
Lemma no_source_wp (imageBytes : JsValue) (s : BatchWidget) :
  imageBytes = VUndefined \/ imageBytes = VString EmptyString ->
  job_waiting j s ->
  job_wp (withGenericRetry (generateFn (string_at ps (snd j)) imageBytes) 5 2000 onRetry delay)
    (fun _ _ _ => False)
    (fun s' _ e => job_waiting j s' /\ e = mkError "Error" "No source image provided.") 1 s.
Proof.
  intros Hb Hs.
  assert (Hfn : generateFn (string_at ps (snd j)) imageBytes
                = Throw (mkError "Error" "No source image provided.")).
  { destruct Hb as [-> | ->]; reflexivity. }
  rewrite Hfn.
  apply (@wp_mono _ _ _ _ _ _ _ _
           (fun s' n' v => job_waiting j s' /\
              Retried (fun _ _ (_ : GenerateContentResponse) => False)
                      (fun n n' e => n' = n /\ e = mkError "Error" "No source image provided.")
                      1 (Z.to_nat 5) n' (Fulfilled v)) _
           (fun s' n' e => job_waiting j s' /\
              Retried (fun _ _ (_ : GenerateContentResponse) => False)
                      (fun n n' e => n' = n /\ e = mkError "Error" "No source image provided.")
                      1 (Z.to_nat 5) n' (Rejected e)) _).
  - intros s1 n1 v [_ H2]. apply Retried_thrown in H2. discriminate.
  - intros s1 n1 e [H1 H2]. apply Retried_thrown in H2. split; [exact H1|congruence].
  - apply (@wp_withGenericRetry _ _ _ _ (job_writes j) (job_relies j) (oracle j)
             (job_waiting j)); [lia| | | |exact Hs].
    + intros n s1 H1. cbn. auto.
    + intros a0 e n s1 H1. cbn. auto.
    + intros ms n s1 H1. cbn. intros s2 Hr. split; [|reflexivity].
      exact (@job_waiting_stable j s1 s2 H1 Hr).
Qed.

Lemma try_block_wp (s : BatchWidget) :
  job_waiting j s -> prompts s = ps ->
  job_wp (try_block j) (fun s' _ _ => job_ended j s') caught 0 s.
Proof.
  intros Hs Hps. unfold job_wp, try_block. cbn [wp]. rewrite Hps. apply wp_bind. cbn [wp].
  intros s1 Hr1. pose proof (@job_waiting_stable j s s1 Hs Hr1) as Hs1.
  destruct (oracle j 0 (BlobToDataUrl (fst j))) as [dataUrl|] eqn:Hblob; cbn [settle_blob wp].
  2:{ split; [exact Hs1|]. split; [reflexivity|].
      unfold batch_outcome. rewrite Hblob. reflexivity. }
  apply wp_bind.
  destruct (nth_error (split_on ","%char dataUrl) 1) as [[|a rest]|] eqn:Hbytes.
  - apply (@wp_mono _ _ _ _ _ _ _ _ (fun _ _ _ => False) _
             (fun s' _ e => job_waiting j s' /\
                            e = mkError "Error" "No source image provided.") _);
      [intros ? ? ? []| |apply no_source_wp; [right; reflexivity|exact Hs1]].
    intros s2 n2 e [H2 ->]. split; [exact H2|]. split; [reflexivity|].
    unfold batch_outcome. rewrite Hblob, Hbytes. reflexivity.
  - apply (@wp_mono _ _ _ _ _ _ _ _
             (fun s' _ v => job_waiting j s' /\
                attempts (oracle j) (GenerateImageEdit (string_at ps (snd j)) (String a rest))
                  edit_result 1 5 = Fulfilled v) _
             (fun s' _ e => job_waiting j s' /\
                attempts (oracle j) (GenerateImageEdit (string_at ps (snd j)) (String a rest))
                  edit_result 1 5 = Rejected e) _);
      [| |apply requests_wp; [discriminate|exact Hs1]].
    + intros s2 n2 resp [H2 Hatt]. apply after_generate_wp; [exact H2|].
      unfold batch_outcome. rewrite Hblob, Hbytes, Hatt. reflexivity.
    + intros s2 n2 e [H2 Hatt]. split; [exact H2|]. split.
      * destruct (attempts_rejected _ _ _ _ _ Hatt) as (n' & Hn').
        destruct (oracle j n' (GenerateImageEdit (string_at ps (snd j)) (String a rest)))
          as [resp|err]; cbn in Hn'; [discriminate|]. injection Hn' as <-. reflexivity.
      * unfold batch_outcome. rewrite Hblob, Hbytes, Hatt. reflexivity.
  - apply (@wp_mono _ _ _ _ _ _ _ _ (fun _ _ _ => False) _
             (fun s' _ e => job_waiting j s' /\
                            e = mkError "Error" "No source image provided.") _);
      [intros ? ? ? []| |apply no_source_wp; [left; reflexivity|exact Hs1]].
    intros s2 n2 e [H2 ->]. split; [exact H2|]. split; [reflexivity|].
    unfold batch_outcome. rewrite Hblob, Hbytes. reflexivity.
Qed.

Lemma batch_runJob_wp (s : BatchWidget) :
  job_unstarted j s ->
  job_wp (runJob j) (fun s' _ _ => job_ended j s') (fun _ _ _ => False) 0 s.
Proof.
  intros (Hs & Hph & Hps). unfold job_wp, runJob. cbn [wp].
  destruct (isRunning s) eqn:Hrun; cbn [negb].
  2:{ cbn. split; [left; apply Hs|congruence]. }
  assert (Hex : existsb (job_eqb j) (placeholders s) = true).
  { apply existsb_exists. exists j. split; [exact Hph|].
    unfold job_eqb. rewrite !Nat.eqb_refl. reflexivity. }
  rewrite Hex. cbn [negb]. apply wp_try_finally.
  apply (@wp_mono _ _ _ _ _ _ _ _ (fun s' _ _ => job_ended j s') _ (fun _ _ _ => False) _);
    [intros s1 n1 _ H1; exact (@finally_block_wp n1 s1 H1)|intros s1 n1 e []|].
  apply wp_try_catch.
  apply (@wp_mono _ _ _ _ _ _ _ _ (fun s' _ _ => job_ended j s') _ caught _);
    [auto|intros s1 n1 e H1; exact (@catch_block_wp e n1 s1 H1)|].
  exact (@try_block_wp s Hs Hps).
Qed.
End BatchGuarantee.

Lemma batch_job_eqb_spec (a b : nat * nat) : Batch.job_eqb a b = true <-> a = b.
Proof.
  unfold Batch.job_eqb. rewrite andb_true_iff, !Nat.eqb_eq. destruct a, b. cbn.
  split; [intros [-> ->]; reflexivity|intros [= -> ->]; auto].
Qed.

(** How a run of [generateEdits] ends: normally, after some [n]
    windows; the cell of a job of these windows holds the outcome of
    the job or is still pending, the others are still pending; with no
    click on the stop button the windows cover the job list and every
    cell holds the outcome of its job. *)
Lemma generateEdits_ends (lines : list string) (oracle : Batch.Oracle)
  (w : Batch.BatchWidget) (ticks : list (Tick (nat * nat) Batch.UserEvent)) :
  1 <= Batch.concurrency w ->
  let jobs := Batch.job_list (List.length (Batch.files w)) (List.length (firstn 20 lines)) in
  exists s n,
    Batch.generateEdits lines oracle w ticks
    = Some (Completed s (windows_run jobs (Batch.concurrency w) 0 n)) /\
    Batch.prompts s = firstn 20 lines /\
    (forall j, In j (firstn (n * Batch.concurrency w) jobs) ->
       Batch.cell (Batch.results s) j = Some Batch.pending_result \/
       Batch.cell (Batch.results s) j
       = Some (outcome_cell (batch_outcome oracle (firstn 20 lines) j))) /\
    (forall j, In j (skipn (n * Batch.concurrency w) jobs) ->
       Batch.cell (Batch.results s) j = Some Batch.pending_result) /\
    (0 < n -> (n - 1) * Batch.concurrency w < List.length jobs) /\
    (Forall no_user_event ticks ->
     List.length jobs <= n * Batch.concurrency w /\
     forall j, In j jobs ->
       Batch.cell (Batch.results s) j
       = Some (outcome_cell (batch_outcome oracle (firstn 20 lines) j))).
Proof.
  intros HC jobs. unfold Batch.generateEdits. cbn [Batch.set_prompts Batch.prompts Batch.files].
  destruct ((List.length (firstn 20 lines) =? 0) || (List.length (Batch.files w) =? 0))%bool
    eqn:Hempty.
  - assert (Hjobs : jobs = []).
    { apply job_list_empty. apply orb_true_iff in Hempty.
      destruct Hempty as [H|H]; apply Nat.eqb_eq in H; auto. }
    exists (Batch.set_prompts (firstn 20 lines) w), 0. rewrite Hjobs. cbn.
    split; [reflexivity|]. split; [reflexivity|].
    split; [intros j []|]. split; [intros j []|]. split; [lia|].
    intros _. split; [lia|intros j []].
  - cbn [Batch.begin_run Batch.files Batch.prompts]. fold (Batch.begin_run lines w). fold jobs.
    assert (Hnd : NoDup jobs).
    { apply NoDup_list_prod; apply seq_NoDup. }
    assert (Inv : LoopInv jobs (job_unstarted (firstn 20 lines))
                    (job_ended oracle (firstn 20 lines)) 0 (Batch.begin_run lines w)).
    { split; [intros j []|]. cbn [skipn]. intros j Hj.
      split; [split|split].
      - cbn [Batch.begin_run Batch.results]. rewrite repeat_length.
        apply in_job_list in Hj. tauto.
      - apply cell_begin_run. exact Hj.
      - exact Hj.
      - reflexivity. }
    destruct (@windows_loop_rg _ _ _ _ _ Batch.job_eqb Batch.handle oracle Batch.isRunning
                Batch.concurrency Batch.runJob jobs batch_job_eqb_spec
                job_writes job_relies (job_unstarted (firstn 20 lines))
                (job_ended oracle (firstn 20 lines))
                (fun s s' => same_concurrency s s' /\ Batch.prompts s' = Batch.prompts s)
                same_flag
                job_writes_refl job_writes_trans job_relies_refl job_relies_trans
                job_writes_relies handle_relies
                (@job_unstarted_stable (firstn 20 lines))
                (@job_ended_stable oracle (firstn 20 lines))
                (fun s => conj eq_refl eq_refl)
                (fun s1 s2 s3 H1 H2 =>
                   conj (eq_trans (proj1 H2) (proj1 H1)) (eq_trans (proj2 H2) (proj2 H1)))
                (fun j s s' H =>
                   conj (proj1 (proj2 (proj2 (proj2 (proj2 H)))))
                        (proj2 (proj2 (proj2 (proj2 (proj2 H))))))
                (fun u s => match u with Batch.ClickStop => conj eq_refl eq_refl end)
                (fun s s' H => proj1 H)
                (fun s => eq_refl) (fun s1 s2 s3 H1 H2 => eq_trans H2 H1)
                (fun j s s' H => proj1 (proj2 (proj2 (proj2 H))))
                (fun j s _ H => @batch_runJob_wp oracle (firstn 20 lines) j s H)
                Hnd (S (List.length jobs)) 0 (Batch.begin_run lines w) ticks [] HC
                ltac:(lia) ltac:(lia) Inv)
      as (s' & n & Hloop & [Hpost Hpre] & [_ Hprompts] & Hend & Hlast & Hquiet).
    cbn [Batch.begin_run Batch.concurrency Batch.prompts app Nat.add]
      in Hloop, Hpost, Hpre, Hend, Hlast, Hprompts.
    rewrite Hloop. exists (Batch.set_running false s'), n.
    split; [reflexivity|]. cbn [Batch.set_running Batch.results Batch.prompts].
    split; [exact Hprompts|]. split; [|split; [|split]].
    + intros j Hj. exact (proj1 (Hpost j Hj)).
    + intros j Hj. apply (Hpre j Hj).
    + exact Hlast.
    + intros Hall. specialize (Hquiet Hall). unfold same_flag in Hquiet.
      cbn [Batch.begin_run Batch.isRunning] in Hquiet. specialize (Hend Hquiet).
      split; [exact Hend|]. intros j Hj.
      apply (Hpost j); [rewrite firstn_all2; [exact Hj|exact Hend]|exact Hquiet].
Qed.

(** X13. [generateEdits] of BatchEditor always ends normally, whatever
    the requests and the clicks on the stop button do: a failed file
    read, a rejected request, exhausted retries or a response without
    image end up in the cell of their job and never abort the batch.
    In the final array the cell of every job is the initial pending
    entry or holds the outcome of the job itself: a [done] entry with
    the data URL of the image of the first response the job's requests
    obtained, or an [error] entry, without image, with the message of
    the error the job ended with. *)
Theorem batch_run_never_aborts (lines : list string) (oracle : Batch.Oracle)
  (w : Batch.BatchWidget) (ticks : list (Tick (nat * nat) Batch.UserEvent)) :
  1 <= Batch.concurrency w ->
  exists s windows,
    Batch.generateEdits lines oracle w ticks = Some (Completed s windows) /\
    forall j, In j (Batch.job_list (List.length (Batch.files w)) (List.length (firstn 20 lines))) ->
      Batch.cell (Batch.results s) j = Some Batch.pending_result \/
      Batch.cell (Batch.results s) j
      = Some (outcome_cell (batch_outcome oracle (firstn 20 lines) j)).
Proof.
  intros HC.
  destruct (generateEdits_ends lines oracle w ticks HC) as (s & n & Hrun & _ & H1 & H2 & _ & _).
  exists s, (windows_run
               (Batch.job_list (List.length (Batch.files w)) (List.length (firstn 20 lines)))
               (Batch.concurrency w) 0 n).
  split; [exact Hrun|]. intros j Hj.
  rewrite <- (firstn_skipn (n * Batch.concurrency w)) in Hj. apply in_app_or in Hj.
  destruct Hj as [Hj|Hj]; [exact (H1 j Hj)|left; exact (H2 j Hj)].
Qed.

Definition batch_job1_rejected : Batch.Oracle :=
  fun job _ ev =>
    match ev with
    | Batch.BlobToDataUrl _ => Batch.BlobLoaded "data:image/png;base64,AAAA"
    | Batch.GenerateImageEdit _ _ =>
        if Batch.job_eqb job (0, 1) then ApiRejected quota_error else ApiFulfilled ok_response
    | Batch.Sleep _ => tt
    end.

Lemma batch_run_never_aborts_witness :
  1 <= Batch.concurrency two_files /\
  exists s windows,
    Batch.generateEdits ["p"; "q"]%string batch_job1_rejected two_files
      [Resume (0, 0); User Batch.ClickStop] = Some (Completed s windows) /\
    forall j, In j (Batch.job_list (List.length (Batch.files two_files))
                      (List.length (firstn 20 ["p"; "q"]%string))) ->
      Batch.cell (Batch.results s) j = Some Batch.pending_result \/
      Batch.cell (Batch.results s) j
      = Some (outcome_cell (batch_outcome batch_job1_rejected (firstn 20 ["p"; "q"]%string) j)).
Proof.
  split; [cbn; lia|].
  apply (@batch_run_never_aborts ["p"; "q"]%string batch_job1_rejected two_files
           [Resume (0, 0); User Batch.ClickStop]).
  cbn. lia.
Defined.

(** The outcomes of two jobs under [batch_job1_rejected]: the image of
    the response, and the message of the sixth rejection. *)
Example batch_outcomes_of_two_jobs :
  batch_outcome batch_job1_rejected ["p"; "q"]%string (0, 0)
  = Succeeded "data:image/png;base64,AAAA" /\
  batch_outcome batch_job1_rejected ["p"; "q"]%string (0, 1)
  = FailedWith (VString "quota exceeded").
Proof. vm_compute. split; reflexivity. Qed.

(** X14. When the stop button is not clicked, a run of [generateEdits]
    over [F] files and [P] prompts (at most 20 of them) runs
    [ceil(F * P / concurrency)] windows which together start every job
    of the job list, in the order of the list, and it leaves no cell
    pending: the cell of every job holds the outcome of that job, a
    [done] entry with the data URL of the image its requests obtained
    or an [error] entry with the message of the error it ended with. *)
Theorem batch_run_settles_every_cell (lines : list string) (oracle : Batch.Oracle)
  (w : Batch.BatchWidget) (ticks : list (Tick (nat * nat) Batch.UserEvent)) :
  1 <= Batch.concurrency w ->
  Forall no_user_event ticks ->
  exists s windows,
    Batch.generateEdits lines oracle w ticks = Some (Completed s windows) /\
    List.length windows
    = ceil_div (List.length (Batch.files w) * List.length (firstn 20 lines))
        (Batch.concurrency w) /\
    List.concat windows
    = Batch.job_list (List.length (Batch.files w)) (List.length (firstn 20 lines)) /\
    forall j, In j (Batch.job_list (List.length (Batch.files w)) (List.length (firstn 20 lines))) ->
      Batch.cell (Batch.results s) j
      = Some (outcome_cell (batch_outcome oracle (firstn 20 lines) j)).
Proof.
  intros HC Hall.
  destruct (generateEdits_ends lines oracle w ticks HC)
    as (s & n & Hrun & _ & _ & _ & Hlast & H3).
  destruct (H3 Hall) as [Hlen Hcells].
  exists s, (windows_run
               (Batch.job_list (List.length (Batch.files w)) (List.length (firstn 20 lines)))
               (Batch.concurrency w) 0 n).
  split; [exact Hrun|]. split; [|split; [|exact Hcells]].
  - unfold windows_run. rewrite length_map, length_seq.
    apply ceil_div_unique; [exact HC| |].
    + unfold Batch.job_list in Hlen. rewrite length_prod, !length_seq in Hlen. exact Hlen.
    + unfold Batch.job_list in Hlast. rewrite length_prod, !length_seq in Hlast. exact Hlast.
  - rewrite concat_windows_run. cbn [skipn]. apply firstn_all2. exact Hlen.
Qed.

Lemma batch_run_settles_every_cell_witness :
  1 <= Batch.concurrency two_files /\
  Forall no_user_event [Resume (0, 1); Resume (0, 0) : Tick (nat * nat) Batch.UserEvent] /\
  exists s windows,
    Batch.generateEdits ["p"; "q"]%string batch_job1_rejected two_files
      [Resume (0, 1); Resume (0, 0)] = Some (Completed s windows) /\
    List.length windows
    = ceil_div (List.length (Batch.files two_files) * List.length (firstn 20 ["p"; "q"]%string))
        (Batch.concurrency two_files) /\
    List.concat windows
    = Batch.job_list (List.length (Batch.files two_files))
        (List.length (firstn 20 ["p"; "q"]%string)) /\
    forall j, In j (Batch.job_list (List.length (Batch.files two_files))
                      (List.length (firstn 20 ["p"; "q"]%string))) ->
      Batch.cell (Batch.results s) j
      = Some (outcome_cell (batch_outcome batch_job1_rejected (firstn 20 ["p"; "q"]%string) j)).
Proof.
  assert (H : Forall no_user_event
                [Resume (0, 1); Resume (0, 0) : Tick (nat * nat) Batch.UserEvent]).
  { repeat constructor. }
  split; [cbn; lia|]. split; [exact H|].
  apply (@batch_run_settles_every_cell ["p"; "q"]%string batch_job1_rejected two_files
           [Resume (0, 1); Resume (0, 0)]); [cbn; lia|exact H].
Defined.

(** Two files and two prompts, the requests of job (0, 1) always
    rejected, no click: four cells, each the outcome of its job. *)
Example batch_cells_of_two_files :
  exists s windows,
    Batch.generateEdits ["p"; "q"]%string batch_job1_rejected two_files [] 
    = Some (Completed s windows) /\
    Batch.results s
    = [[Some (done_cell "data:image/png;base64,AAAA");
        Some (error_cell (VString "quota exceeded"))];
       [Some (done_cell "data:image/png;base64,AAAA");
        Some (done_cell "data:image/png;base64,AAAA")]].
Proof. eexists. eexists. vm_compute. split; reflexivity. Qed.

(* ===================================================================== *)
(** ** The API key across saves, clears and reloads *)
(* ===================================================================== *)

Section ApiKeyFacts.
Import ApiKey.
Variable trim : string -> string.
Variable env_API_KEY : JsValue.

(** The key in memory is the key in the storage, and the indicator
    tells whether it is in use. *)
Definition key_in_sync (st : KeyState) : Prop :=
  premiumApiKey st = stored st /\ indicatorActive st = has_key (premiumApiKey st).

Lemma open_page_in_sync (item : option string) : key_in_sync (open_page item).
Proof. split; reflexivity. Qed.

Lemma act_in_sync (st : KeyState) (a : Action) :
  key_in_sync st -> key_in_sync (act trim st a).
Proof.
  intros [H1 H2]. destruct a; cbn [act].
  - split; assumption.
  - unfold saveApiKey. destruct (non_empty (trim (inputValue st))); split; cbn; auto.
  - split; reflexivity.
  - apply open_page_in_sync.
Qed.

Lemma session_in_sync (actions : list Action) :
  forall st, key_in_sync st -> key_in_sync (fold_left (act trim) actions st).
Proof.
  induction actions as [|a actions IH]; intros st H; [exact H|].
  cbn [fold_left]. apply IH. apply act_in_sync. exact H.
Qed.
End ApiKeyFacts.

(** X15. Whatever the user does on the page (typing in the field,
    saving, clearing, reloading, in any order), the key in memory stays
    the key kept in [localStorage], so reloading the page never changes
    what [getApiKey] returns; and the status indicator is active
    exactly when [getApiKey] returns the saved key rather than
    [process.env.API_KEY]. *)
Theorem api_key_survives_reload (trim : string -> string) (env_API_KEY : JsValue)
  (item : option string) (actions : list ApiKey.Action) :
  let st := ApiKey.session trim item actions in
  ApiKey.getApiKey env_API_KEY (ApiKey.act trim st ApiKey.Reload)
  = ApiKey.getApiKey env_API_KEY st /\
  (ApiKey.indicatorActive st = true ->
   exists k, ApiKey.stored st = Some k /\ ApiKey.getApiKey env_API_KEY st = VString k) /\
  (ApiKey.indicatorActive st = false -> ApiKey.getApiKey env_API_KEY st = env_API_KEY).
Proof.
  intros st.
  destruct (@session_in_sync trim actions (ApiKey.open_page item) (open_page_in_sync item))
    as [H1 H2].
  fold (ApiKey.session trim item actions) in H1, H2. fold st in H1, H2.
  unfold ApiKey.getApiKey. cbn [ApiKey.act ApiKey.open_page ApiKey.load
    ApiKey.updateApiKeyStatusUI ApiKey.premiumApiKey ApiKey.stored].
  rewrite H2, <- H1. destruct (ApiKey.premiumApiKey st) as [k|]; cbn [ApiKey.has_key].
  - split; [reflexivity|]. destruct (ApiKey.non_empty k); split; try discriminate.
    + intros _. exists k. auto.
    + reflexivity.
  - split; [reflexivity|]. split; [discriminate|reflexivity].
Qed.

(** X16. Saving stores the trimmed text of the field: after Save with
    a text that is not blank, [getApiKey] returns the trimmed text, now
    and after any number of reloads, until the key is cleared or
    replaced; Save with a blank text changes nothing; after Clear
    [getApiKey] falls back to [process.env.API_KEY]. *)
Theorem api_key_save_get_clear (trim : string -> string) (env_API_KEY : JsValue)
  (st : ApiKey.KeyState) (text : string) (reloads : nat) :
  let typed := ApiKey.act trim st (ApiKey.TypeKey text) in
  let saved := ApiKey.act trim typed ApiKey.ClickSave in
  (ApiKey.non_empty (trim text) = true ->
   ApiKey.getApiKey env_API_KEY
     (fold_left (ApiKey.act trim) (repeat ApiKey.Reload reloads) saved)
   = VString (trim text)) /\
  (ApiKey.non_empty (trim text) = false -> saved = typed) /\
  ApiKey.getApiKey env_API_KEY
    (fold_left (ApiKey.act trim) (repeat ApiKey.Reload reloads)
       (ApiKey.act trim st ApiKey.ClickClear))
  = env_API_KEY.
Proof.
  cbn zeta. cbn [ApiKey.act ApiKey.saveApiKey ApiKey.inputValue].
  assert (Hre : forall n s k, ApiKey.stored s = k -> ApiKey.premiumApiKey s = k ->
            ApiKey.premiumApiKey (fold_left (ApiKey.act trim) (repeat ApiKey.Reload n) s) = k).
  { induction n as [|n IH]; intros s k H1 H2; [exact H2|].
    cbn [repeat fold_left]. apply IH; cbn; exact H1. }
  split; [|split].
  - intros Hne. unfold ApiKey.saveApiKey. cbn [ApiKey.inputValue]. rewrite Hne.
    unfold ApiKey.getApiKey.
    rewrite (Hre reloads _ (Some (trim text))); [rewrite Hne|..]; reflexivity.
  - intros He. unfold ApiKey.saveApiKey. cbn [ApiKey.inputValue]. rewrite He. reflexivity.
  - unfold ApiKey.getApiKey. rewrite (Hre reloads _ None); reflexivity.
Qed.

(* ===================================================================== *)
(** ** The sequential batch of ImageGenerator *)
(* ===================================================================== *)



Section ImageBatchFacts.
Import ImageBatch.
Variable to_string : JsValue -> option string.
Variable milliseconds : float -> Z.
Variable ceil_seconds : float -> Z.
Variable oracle : Oracle.

Definition item_prompt (item : GridItem) : string :=
  match item with
  | ImageItem _ prompt => prompt
  | FailedItem prompt => prompt
  end.



(** The generation of the image of [prompt] when its first request is
    operation [n] of the batch: up to six requests (operations [n],
    [n + 2], ..., [n + 10], a delay between two of them), ending with
    the first value obtained or, when all six are rejected, with the
    last error. *)
Definition generation (prompt : string) (n : nat) : Settled JsValue :=
  attempts (oracle tt) (GenerateImageContent prompt) (fun r => r) n 5.

(** The item the batch appends for [prompt]: the image obtained, as a
    JPEG data URL, or a [Failed] item when the six requests were
    rejected (or the value obtained has no string conversion). *)
Definition item_from (prompt : string) (n : nat) : GridItem :=
  match generation prompt n with
  | Fulfilled v =>
      match to_string v with
      | Some b => ImageItem ("data:image/jpeg;base64," ++ b) prompt
      | None => FailedItem prompt
      end
  | Rejected _ => FailedItem prompt
  end.

Definition item_of (prompt : string) (item : GridItem) : Prop :=
  exists n, item = item_from prompt n.

Lemma item_of_prompt (prompt : string) (item : GridItem) :
  item_of prompt item -> item_prompt item = prompt.
Proof.
  intros (n & ->). unfold item_from.
  destruct (generation prompt n) as [v|e]; [|reflexivity].
  destruct (to_string v); reflexivity.
Qed.

(** [strict]: the stop button is not clicked. *)
Variable strict : bool.

















End ImageBatchFacts.


Definition sample_to_string (v : JsValue) : option string :=
  match v with
  | VString s => Some s
  | _ => None
  end.

(** The prompt [b] is always rejected, the others yield an image. *)
Definition image_oracle : ImageBatch.Oracle :=
  fun _ _ ev =>
    match ev with
    | ImageBatch.GenerateImageContent prompt =>
        if String.eqb prompt "b" then Rejected VNull else Fulfilled (VString "AAAA")
    | ImageBatch.Timeout _ => tt
    | ImageBatch.IntervalFires => tt
    end.

Definition idle_image_widget : ImageBatch.ImageWidget :=
  {| ImageBatch.isBatchRunning := false; ImageBatch.batchDelaySeconds := 5%float;
     ImageBatch.batchResults := []; ImageBatch.batchOutputGrid := [] |}.

(** The items of the prompts [a] and [b] under [image_oracle],
    whichever operation their generation starts at. *)
Example items_of_two_prompts :
  item_from sample_to_string image_oracle "a" 0
  = ImageBatch.ImageItem "data:image/jpeg;base64,AAAA" "a" /\
  item_from sample_to_string image_oracle "b" 2 = ImageBatch.FailedItem "b".
Proof. vm_compute. split; reflexivity. Qed.

(** Three prompts, the second failing; the stop button is clicked
    while the third is generated: the third image is still recorded. *)
Example image_batch_stopped_late :
  ImageBatch.run sample_to_string (fun _ => 5000%Z) (fun _ => 5%Z) ["a"; "b"; "c"]%string
    image_oracle idle_image_widget
    (repeat (Resume tt) 22 ++ [User ImageBatch.ClickStop])%list
  = AllSettled
      {| ImageBatch.isBatchRunning := false; ImageBatch.batchDelaySeconds := 5%float;
         ImageBatch.batchResults :=
           [("data:image/jpeg;base64,AAAA", "a"); ("data:image/jpeg;base64,AAAA", "c")]%string;
         ImageBatch.batchOutputGrid :=
           [ImageBatch.ImageItem "data:image/jpeg;base64,AAAA" "a";
            ImageBatch.FailedItem "b";
            ImageBatch.ImageItem "data:image/jpeg;base64,AAAA" "c"]%string |} [].
Proof. vm_compute. reflexivity. Qed.

